(** * Entity resolution core of the GSoC organisation archive

    A shallow embedding of the record-merging scripts under
    [data-normalization-testing/]: the URL identity normaliser, the
    union-find grouping of [merge_by_urls.py], the record mergers, the
    name matcher and alias resolution of [align_with_api.py], and the year
    comparison of [final_comparison.py] / [final_comparison_report.py];
    further the main passes of [align_with_api.py] and
    [merge_with_api_names.py], the tally of [final_comparison.py], and the
    grouping functions of [merge_orgs_by_domain_and_name.py].

    Python values are modelled as follows.
    - [str] is [string] (a byte string); [lower], [strip] and [len] act on
      ASCII, which is what URLs and the names used here consist of.
    - a JSON object with a fixed set of keys is a record.  A key that the
      code reads with [.get] alone is an [option] field ([None]: key
      absent or null); a key that it also tests with [in] or reads by
      index is a [field]: absent, null, or holding a value.
    - [set] of years is [gset Z]; [sorted(list(s))] is [merge_sort] over
      [elements s].
    - a [dict] whose iteration order matters is an association list in
      insertion order; the alias table is a [gmap].
    - an exception is [None] in the [option] monad. *)

From Stdlib Require Import Ascii QArith.
From stdpp Require Import sorting relations.
From stdpp Require Import base option list gmap strings numbers.
Local Open Scope Z_scope.

(** ** Python string operations *)

Module Py.

Definition code (a : ascii) : N := Ascii.N_of_ascii a.

Definition between (lo hi : N) (a : ascii) : bool :=
  ((lo <=? code a) && (code a <=? hi))%N.

Definition is_upper : ascii → bool := between 65 90.
Definition is_lower : ascii → bool := between 97 122.
Definition is_digit : ascii → bool := between 48 57.
Definition is_alpha (a : ascii) : bool := is_upper a || is_lower a.

(** [str.isspace] on ASCII: TAB..CR, FS..US and the blank. *)
Definition is_space (a : ascii) : bool :=
  between 9 13 a || between 28 32 a.

Definition lower_char (a : ascii) : ascii :=
  if is_upper a then Ascii.ascii_of_N (code a + 32) else a.

(** [s.lower()] *)
Fixpoint lower (s : string) : string :=
  match s with
  | EmptyString => EmptyString
  | String a s' => String (lower_char a) (lower s')
  end.

(** [len(s)] *)
Fixpoint len (s : string) : nat :=
  match s with
  | EmptyString => O
  | String _ s' => S (len s')
  end.

Definition is_empty (s : string) : bool :=
  match s with EmptyString => true | _ => false end.

(** [s.startswith(p)] *)
Fixpoint startswith (p s : string) : bool :=
  match p, s with
  | EmptyString, _ => true
  | String a p', String b s' => bool_decide (a = b) && startswith p' s'
  | String _ _, EmptyString => false
  end.

(** [sub in s] *)
Fixpoint contains (sub s : string) : bool :=
  startswith sub s ||
  match s with
  | EmptyString => false
  | String _ s' => contains sub s'
  end.

(** [s.lstrip(chars)], the characters given by a predicate. *)
Fixpoint lstrip (P : ascii → bool) (s : string) : string :=
  match s with
  | EmptyString => EmptyString
  | String a s' => if P a then lstrip P s' else s
  end.

(** [s.rstrip(chars)] *)
Fixpoint rstrip (P : ascii → bool) (s : string) : string :=
  match s with
  | EmptyString => EmptyString
  | String a s' =>
      let r := rstrip P s' in
      if is_empty r && P a then EmptyString else String a r
  end.

(** [s.strip()] on ASCII text, and [s.strip(c)] *)
Definition strip (s : string) : string := rstrip is_space (lstrip is_space s).
Definition is_char (c : ascii) (a : ascii) : bool := bool_decide (a = c).
Definition strip_char (c : ascii) (s : string) : string :=
  rstrip (is_char c) (lstrip (is_char c) s).

(** [s.split(c)] for a one-character separator: never the empty list. *)
Fixpoint split (c : ascii) (s : string) : list string :=
  match s with
  | EmptyString => [EmptyString]
  | String a s' =>
      let r := split c s' in
      if bool_decide (a = c) then EmptyString :: r
      else match r with
           | h :: t => String a h :: t
           | [] => [String a EmptyString]
           end
  end.

(** [s.replace(old, "")] for a non-empty [old]: occurrences are deleted
    left to right without overlap.  [skip] counts the characters of the
    occurrence being deleted that are still to be dropped. *)
Fixpoint delete_from (old : string) (skip : nat) (s : string) : string :=
  match s with
  | EmptyString => EmptyString
  | String a s' =>
      match skip with
      | S k => delete_from old k s'
      | O => if startswith old s then delete_from old (pred (len old)) s'
             else String a (delete_from old O s')
      end
  end.
Definition delete_all (old s : string) : string := delete_from old O s.

(** [s[n:]] and [s[:n]] *)
Fixpoint drop (n : nat) (s : string) : string :=
  match n, s with
  | S k, String _ s' => drop k s'
  | _, _ => s
  end.
Fixpoint take (n : nat) (s : string) : string :=
  match n, s with
  | S k, String a s' => String a (take k s')
  | _, _ => EmptyString
  end.

(** [s.endswith(p)] *)
Definition endswith (p s : string) : bool :=
  (len p <=? len s)%nat && bool_decide (drop (len s - len p) s = p).

(** [s.find(c)], [None] for -1. *)
Fixpoint find_char (P : ascii → bool) (s : string) : option nat :=
  match s with
  | EmptyString => None
  | String a s' => if P a then Some O else S <$> find_char P s'
  end.

(** [s.rfind(c)] *)
Fixpoint rfind_char (P : ascii → bool) (s : string) : option nat :=
  match s with
  | EmptyString => None
  | String a s' =>
      match rfind_char P s' with
      | Some i => Some (S i)
      | None => if P a then Some O else None
      end
  end.

Fixpoint forallb (P : ascii → bool) (s : string) : bool :=
  match s with
  | EmptyString => true
  | String a s' => P a && forallb P s'
  end.

(** [s.split()] on whitespace: the non-empty maximal runs of
    non-blank characters. *)
Fixpoint words_from (cur : string) (s : string) : list string :=
  match s with
  | EmptyString => if is_empty cur then [] else [cur]
  | String a s' =>
      if is_space a
      then (if is_empty cur then words_from EmptyString s'
            else cur :: words_from EmptyString s')
      else words_from (cur +:+ String a EmptyString) s'
  end.
Definition words (s : string) : list string := words_from EmptyString s.

End Py.

(** ** [urllib.parse.urlparse]

    The standard library's parser, as far as [normalize_url] reads its
    result ([netloc] and [path]).  The validation of a bracketed or
    non-ASCII host, which can raise [ValueError], is kept abstract as
    [host_ok]: it is consulted on such hosts only. *)

Module Url.

Record parsed := { scheme : string; netloc : string; path : string }.

Definition scheme_char (a : ascii) : bool :=
  Py.is_alpha a || Py.is_digit a ||
  bool_decide (a = "+"%char) || bool_decide (a = "-"%char) ||
  bool_decide (a = "."%char).

(** Characters removed by [urlsplit] before parsing. *)
Definition c0_or_space (a : ascii) : bool := (Py.code a <=? 32)%N.
Definition unsafe (a : ascii) : bool :=
  bool_decide (a = "009"%char) || bool_decide (a = "010"%char) ||
  bool_decide (a = "013"%char).

Fixpoint remove_chars (P : ascii → bool) (s : string) : string :=
  match s with
  | EmptyString => EmptyString
  | String a s' => if P a then remove_chars P s' else String a (remove_chars P s')
  end.

Definition is_ascii (a : ascii) : bool := (Py.code a <? 128)%N.

(** Split off [scheme:] when the text before the first colon is a
    scheme name. *)
Definition split_scheme (url : string) : string * string :=
  match Py.find_char (Py.is_char ":") url with
  | Some (S i) =>
      if Py.forallb scheme_char (Py.take (S i) url) &&
         match url with String a _ => is_ascii a && Py.is_alpha a | _ => false end
      then (Py.lower (Py.take (S i) url), Py.drop (S (S i)) url)
      else (EmptyString, url)
  | _ => (EmptyString, url)
  end.

Definition netloc_end (a : ascii) : bool :=
  bool_decide (a = "/"%char) || bool_decide (a = "?"%char) ||
  bool_decide (a = "#"%char).

(** [_splitnetloc(url, 2)] *)
Definition splitnetloc (url : string) : string * string :=
  let rest := Py.drop 2 url in
  match Py.find_char netloc_end rest with
  | Some i => (Py.take i rest, Py.drop i rest)
  | None => (rest, EmptyString)
  end.

(** [url.split(c, 1)[0]] *)
Definition before (c : ascii) (s : string) : string :=
  match Py.find_char (Py.is_char c) s with
  | Some i => Py.take i s
  | None => s
  end.

Definition uses_params : list string :=
  [""; "ftp"; "hdl"; "prospero"; "http"; "imap"; "https"; "shttp"; "rtsp";
   "rtspu"; "sip"; "sips"; "mms"; "sftp"; "tel"].

(** [_splitparams(url)[0]] *)
Definition splitparams (url : string) : string :=
  match Py.rfind_char (Py.is_char "/") url with
  | Some j =>
      match Py.find_char (Py.is_char ";") (Py.drop j url) with
      | Some i => Py.take (j + i) url
      | None => url
      end
  | None => before ";" url
  end.

Definition has (c : ascii) (s : string) : bool :=
  bool_decide (is_Some (Py.find_char (Py.is_char c) s)).

Section Parse.
Variable host_ok : string → bool.

Definition urlsplit (url0 : string) : option parsed :=
  let url := remove_chars unsafe (Py.lstrip c0_or_space url0) in
  let '(sch, url) := split_scheme url in
  '(loc, url) ←
    (if Py.startswith "//" url then
       let '(loc, rest) := splitnetloc url in
       if xorb (has "[" loc) (has "]" loc) then None
       else if has "[" loc && negb (host_ok loc) then None
       else Some (loc, rest)
     else Some (EmptyString, url));
  let url := before "?" (before "#" url) in
  if negb (Py.forallb is_ascii loc) && negb (host_ok loc) then None
  else Some {| scheme := sch; netloc := loc; path := url |}.

Definition urlparse (url : string) : option parsed :=
  r ← urlsplit url;
  if bool_decide (scheme r ∈ uses_params) && has ";" (path r)
  then Some {| scheme := scheme r; netloc := netloc r;
               path := splitparams (path r) |}
  else Some r.
End Parse.

End Url.

(** ** Organisation records

    The keys of an organisation document that the modelled reductions
    read.  The remaining keys (appearances, categories, topics, tech
    stack, logo, slug, timestamps) are reduced field by field in the same
    loops; they are taken to hold, when present, values of their kind
    (lists of entries, timestamps), on which those loops do not fail. *)

(** A key whose absence and whose null value the code tells apart. *)
Inductive field (A : Type) : Type :=
| Absent
| Null
| Val (a : A).
Arguments Absent {A}.
Arguments Null {A}.
Arguments Val {A} a.

(** [d.get(key)]: the value, [None] for an absent key and for null. *)
Definition get {A} (x : field A) : option A :=
  match x with
  | Val a => Some a
  | _ => None
  end.

(** [d.get(key, default)] as a stored value: an absent key gives the
    default, null stays null. *)
Definition get_or {A} (d : A) (x : field A) : field A :=
  match x with
  | Absent => Val d
  | _ => x
  end.

(** [d[key]]: [None] is KeyError; the value may be null. *)
Definition index_key {A} (x : field A) : option (option A) :=
  match x with
  | Absent => None
  | Null => Some None
  | Val a => Some (Some a)
  end.

Record socials_t := {
  github : option string;
  twitter : option string;
}.

Record org := {
  oid : string;                          (* '_id' *)
  name : string;
  website : option string;
  socials_key : field socials_t;         (* 'socials' *)
  years_appeared_key : field (list Z);   (* 'years_appeared' *)
  years_count : option Z;
  description_html_key : field string;   (* 'description_html' *)
  short_desc_key : field string;         (* 'short_desc' *)
}.

(** [org.get('socials')], [org.get('years_appeared')],
    [org.get('description_html')] and [org.get('short_desc')] *)
Definition socials (o : org) : option socials_t := get (socials_key o).
Definition years_appeared (o : org) : option (list Z) := get (years_appeared_key o).
Definition description_html (o : org) : option string := get (description_html_key o).
Definition short_desc (o : org) : option string := get (short_desc_key o).

(** [org.get('years_appeared') or []] *)
Definition years_of (o : org) : list Z := default [] (years_appeared o).

(** Truthiness of an optional string: present and non-empty. *)
Definition truthy (v : option string) : option string :=
  match v with
  | Some s => if Py.is_empty s then None else Some s
  | None => None
  end.

(** [sorted(list(s))] for a set of years. *)
Definition sorted_years (s : gset Z) : list Z := merge_sort Z.le (elements s).

(** [all_years.update(l)] *)
Definition update_years (s : gset Z) (l : list Z) : gset Z := s ∪ list_to_set l.

(** First non-empty path segment, [parsed.path.strip('/').split('/')[0]],
    when it is non-empty. *)
Definition path_handle (p : string) : option string :=
  match Py.split "/" (Py.strip_char "/" p) with
  | h :: _ => if Py.is_empty h then None else Some h
  | [] => None
  end.

(** [parsed.netloc or parsed.path.split('/')[0]], then the three
    [replace] calls. *)
Definition domain_of (r : Url.parsed) : string :=
  let d := if Py.is_empty (Url.netloc r)
           then default EmptyString (head (Py.split "/" (Url.path r)))
           else Url.netloc r in
  Py.delete_all "https://" (Py.delete_all "http://" (Py.delete_all "www." d)).

(** [url.strip().lower().rstrip('/')], and the URL handed to [urlparse]. *)
Definition clean_url (url : string) : string :=
  Py.rstrip (Py.is_char "/") (Py.lower (Py.strip url)).
Definition with_scheme (url : string) : string :=
  if Py.contains "://" url then url else "http://" +:+ url.

(** ** merge_by_urls.py *)

Module MergeByUrls.
Section Normalizer.
Variable host_ok : string → bool.

Definition normalize_url (url0 : string) : option string :=
  if Py.is_empty url0 then None else
  let url := clean_url url0 in
  if Py.is_empty url then None else
  match Url.urlparse host_ok (with_scheme url) with
  | None => None
  | Some parsed =>
      let domain := domain_of parsed in
      match (if Py.contains "github.com" domain
             then path_handle (Url.path parsed) else None) with
      | Some h => Some ("github:" +:+ h)
      | None =>
          match (if Py.contains "twitter.com" domain || Py.contains "x.com" domain
                 then path_handle (Url.path parsed) else None) with
          | Some h => Some ("twitter:" +:+ h)
          | None =>
              if Py.is_empty domain then None else Some ("web:" +:+ domain)
          end
      end
  end.

(** One entry of the [urls] set: (kind, normalized key, original). *)
Definition key_url : Type := string * string * string.

Definition website_key (o : org) : list key_url :=
  match truthy (website o) with
  | Some w =>
      match normalize_url w with
      | Some n =>
          if negb (Py.startswith "web:groups.google.com" n) &&
             negb (Py.startswith "web:plus.google.com" n)
          then [("website", n, w)] else []
      | None => []
      end
  | None => []
  end.

Definition social_key (kind : string) (v : option string) : list key_url :=
  match truthy v with
  | Some u =>
      match normalize_url u with
      | Some n => if Py.startswith (kind +:+ ":") n then [(kind, n, u)] else []
      | None => []
      end
  | None => []
  end.

(** The three tuples differ in their first component, so the Python
    set holds each of them once; its iteration order is not
    specified, the list fixes one. *)
Definition extract_key_urls (o : org) : list key_url :=
  website_key o ++
  match socials o with
  | Some s => social_key "github" (github s) ++ social_key "twitter" (twitter s)
  | None => []
  end.
End Normalizer.

(** *** merge_organizations *)

(** Sort key of the name choice: (has a Foundation/Project marker,
    minus the length). *)
Definition name_key (n : string) : bool * Z :=
  (Py.contains "Foundation" n || Py.contains "Project" n, - Z.of_nat (Py.len n)).

Definition key_lt (a b : bool * Z) : bool :=
  match a.1, b.1 with
  | false, true => true
  | true, false => false
  | _, _ => a.2 <? b.2
  end.

(** [sorted(names, key=...)[0]]: the sort is stable, so the first name
    of least key. *)
Definition best_of (names : list string) : option string :=
  foldl (λ acc n,
           match acc with
           | None => Some n
           | Some b => if key_lt (name_key n) (name_key b) then Some n else Some b
           end) None names.

(** [if 'years_appeared' in org: all_years.update(org['years_appeared'])]:
    a null value passes the test and [update] raises TypeError. *)
Definition merged_years (orgs : list org) : option (gset Z) :=
  foldl (λ acc o,
           all ← acc;
           match years_appeared_key o with
           | Absent => Some all
           | Null => None
           | Val ys => Some (update_years all ys)
           end) (Some ∅) orgs.

(** First truthy value of a socials key over the group. *)
Definition first_social (f : socials_t → option string) (orgs : list org)
  : option string :=
  head (omap (λ o, s ← socials o; truthy (f s)) orgs).

Definition longest (f : org → option string) (orgs : list org) : string :=
  foldl (λ best o,
           match truthy (f o) with
           | Some d => if (Py.len best <? Py.len d)%nat then d else best
           | None => best
           end) EmptyString orgs.

Definition merged_website (orgs : list org) : option string :=
  let websites := omap (λ o, truthy (website o)) orgs in
  match filter (λ w, Is_true (Py.startswith "https://" w)) websites with
  | w :: _ => Some w
  | [] => head websites
  end.

Definition merge_organizations (orgs : list org) : option org :=
  match orgs with
  | [o] => Some o
  | _ =>
      first ← head orgs;
      best_name ← best_of (name <$> orgs);
      all_years ← merged_years orgs;
      Some {| oid := oid first;
              name := best_name;
              website := merged_website orgs;
              socials_key := Val {| github := first_social github orgs;
                                    twitter := first_social twitter orgs |};
              years_appeared_key := Val (sorted_years all_years);
              years_count := Some (Z.of_nat (size all_years));
              description_html_key := Val (longest description_html orgs);
              short_desc_key := Val (longest short_desc orgs) |}
  end.

(** *** Grouping in [main]: union-find over record indices *)

(** [url_to_orgs[key].append(i)] on an insertion-ordered dictionary. *)
Fixpoint dict_append {K} `{EqDecision K} {V} (k : K) (v : V)
    (d : list (K * list V)) : list (K * list V) :=
  match d with
  | [] => [(k, [v])]
  | (k', vs) :: d' =>
      if decide (k = k') then (k', vs ++ [v]) :: d'
      else (k', vs) :: dict_append k v d'
  end.

(** The recursion of [find] is bounded by [fuel]; the grouping gives it
    the number of records, which is shown to be enough.  The
    interpreter's own recursion limit is not modelled. *)
Fixpoint find (fuel : nat) (parent : list nat) (x : nat)
  : option (list nat * nat) :=
  match fuel with
  | O => None
  | S fuel' =>
      p ← parent !! x;
      if decide (p ≠ x) then
        '(parent1, r) ← find fuel' parent p;
        let parent2 := <[x := r]> parent1 in
        r' ← parent2 !! x;
        Some (parent2, r')
      else Some (parent, p)
  end.

Definition union (fuel : nat) (parent : list nat) (x y : nat)
  : option (list nat) :=
  '(parent1, px) ← find fuel parent x;
  '(parent2, py) ← find fuel parent1 y;
  if decide (px ≠ py) then
    _ ← parent2 !! px;
    Some (<[px := py]> parent2)
  else Some parent2.

(** [for item in org_list[1:]: union(first_idx, item['index'])] *)
Fixpoint union_all (fuel : nat) (parent : list nat) (first_idx : nat)
    (rest : list nat) : option (list nat) :=
  match rest with
  | [] => Some parent
  | i :: rest' =>
      parent' ← union fuel parent first_idx i;
      union_all fuel parent' first_idx rest'
  end.

(** [for url, org_list in url_to_orgs.items(): if len(org_list) > 1: ...] *)
Fixpoint union_shared {K} (fuel : nat) (parent : list nat)
    (url_to_orgs : list (K * list nat)) : option (list nat) :=
  match url_to_orgs with
  | [] => Some parent
  | (_, first_idx :: ((_ :: _) as rest)) :: d' =>
      parent' ← union_all fuel parent first_idx rest;
      union_shared fuel parent' d'
  | _ :: d' => union_shared fuel parent d'
  end.

(** [for i, org in enumerate(orgs): groups[find(i)].append(org)], the
    groups holding the indices of their records. *)
Fixpoint collect (fuel : nat) (parent : list nat) (indices : list nat)
    (groups : list (nat * list nat)) : option (list (nat * list nat)) :=
  match indices with
  | [] => Some groups
  | i :: rest =>
      '(parent', root) ← find fuel parent i;
      collect fuel parent' rest (dict_append root i groups)
  end.

(** The grouping for a given key dictionary over [n] records. *)
Definition group_indices {K} (n : nat) (url_to_orgs : list (K * list nat))
  : option (list (nat * list nat)) :=
  parent ← union_shared n (seq 0 n) url_to_orgs;
  collect n parent (seq 0 n) [].

Section Main.
Variable host_ok : string → bool.

(** [for i, org in enumerate(orgs): for ... in extract_key_urls(org):
    url_to_orgs[normalized_url].append(...)] *)
Fixpoint index_urls (i : nat) (orgs : list org)
    (d : list (string * list nat)) : list (string * list nat) :=
  match orgs with
  | [] => d
  | o :: rest =>
      index_urls (S i) rest
        (foldl (λ d k, dict_append k.1.2 i d) d (extract_key_urls host_ok o))
  end.

Definition url_to_orgs (orgs : list org) : list (string * list nat) :=
  index_urls O orgs [].

Definition groups_of (orgs : list org) : option (list (nat * list nat)) :=
  group_indices (length orgs) (url_to_orgs orgs).

(** [merged_orgs], before the final sort by name.  For a group of two or
    more, the line printed before the merge iterates
    [o.get('years_appeared', [])] of each member. *)
Definition merged_orgs (orgs : list org) : option (list org) :=
  groups ← groups_of orgs;
  mapM (λ g : nat * list nat,
          members ← mapM (λ i, orgs !! i) g.2;
          _ ← (if (1 <? length members)%nat
               then mapM (λ o, get (get_or [] (years_appeared_key o))) members
               else Some []);
          merge_organizations members) groups.
End Main.
End MergeByUrls.

(** ** merge_with_api_names.py *)

Module MergeWithApiNames.

(** Hosts shared by unrelated organisations. *)
Definition denylist : list string :=
  ["groups.google.com"; "plus.google.com"; "gitter.im";
   "webchat.freenode.net"; "medium.com"; "lists.sourceforge.net"].

Section Normalizer.
Variable host_ok : string → bool.

Definition normalize_url (url0 : string) : option string :=
  if Py.is_empty url0 then None else
  let url := clean_url url0 in
  if Py.is_empty url then None else
  match Url.urlparse host_ok (with_scheme url) with
  | None => None
  | Some parsed =>
      let domain := domain_of parsed in
      match (if Py.contains "github.com" domain
             then path_handle (Url.path parsed) else None) with
      | Some h => Some ("github:" +:+ h)
      | None =>
          match (if Py.contains "twitter.com" domain || Py.contains "x.com" domain
                 then path_handle (Url.path parsed) else None) with
          | Some h => Some ("twitter:" +:+ h)
          | None =>
              if negb (Py.is_empty domain) && bool_decide (domain ∉ denylist)
              then Some ("web:" +:+ domain) else None
          end
      end
  end.

Definition social_key (kind : string) (v : option string) : list string :=
  match truthy v with
  | Some u =>
      match normalize_url u with
      | Some n => if Py.startswith (kind +:+ ":") n then [n] else []
      | None => []
      end
  | None => []
  end.

(** The set of normalized keys of a record, without repetition. *)
Definition extract_key_urls (o : org) : list string :=
  remove_dups
    (match truthy (website o) with
     | Some w => option_list (normalize_url w)
     | None => []
     end ++
     match socials o with
     | Some s => social_key "github" (github s) ++ social_key "twitter" (twitter s)
     | None => []
     end).
End Normalizer.

Definition set_name (o : org) (n : string) : org :=
  {| oid := oid o; name := n; website := website o; socials_key := socials_key o;
     years_appeared_key := years_appeared_key o; years_count := years_count o;
     description_html_key := description_html_key o;
     short_desc_key := short_desc_key o |}.

Definition merge_organizations (orgs : list org) (canonical_name : string)
  : option org :=
  match orgs with
  | [o] => Some (set_name o canonical_name)
  | _ =>
      first ← head orgs;
      all_years ← MergeByUrls.merged_years orgs;
      Some {| oid := oid first;
              name := canonical_name;
              website := MergeByUrls.merged_website orgs;
              socials_key := Val {| github := MergeByUrls.first_social github orgs;
                                    twitter := MergeByUrls.first_social twitter orgs |};
              years_appeared_key := Val (sorted_years all_years);
              years_count := Some (Z.of_nat (size all_years));
              description_html_key :=
                Val (MergeByUrls.longest description_html orgs);
              short_desc_key := Val (MergeByUrls.longest short_desc orgs) |}
  end.
End MergeWithApiNames.

(** ** merge_orgs_by_domain_and_name.py *)

Module MergeByDomain.

(** The [years_appeared] and [years_count] entries of the document that
    [merge_group] builds; its identifier, slug and timestamps come from
    the database driver and the clock.  On an empty group the function
    returns before building a document ([None]). *)
Record merged_years := {
  mg_years_appeared : list Z;
  mg_years_count : Z;
}.

(** [sum([[y for y in d.get("years_appeared") or []] for d in docs], [])] *)
Definition all_years (docs : list org) : list Z :=
  foldl (λ acc d, acc ++ years_of d) [] docs.

Definition merge_group (docs : list org) : option merged_years :=
  match docs with
  | [] => None
  | _ =>
      let years := sorted_years (list_to_set (all_years docs)) in
      Some {| mg_years_appeared := years;
              mg_years_count := Z.of_nat (length years) |}
  end.
End MergeByDomain.

(** ** [difflib.SequenceMatcher(None, a, b).ratio()]

    The standard library's matcher with no junk predicate and the default
    [autojunk]: elements of [b] occurring more than [len(b)//100 + 1]
    times are dropped from the index when [len(b) >= 200].  The ratio
    2*M/T is kept as an exact rational; the comparisons of the scripts
    with 0.50, 0.60 and 0.88 and between two ratios give the same answer
    on the rounded floats for all names of realistic length. *)

Module Difflib.
Section Matcher.
Variables a b : list ascii.

Definition indices_of (c : ascii) : list nat :=
  omap (λ p : nat * ascii, if bool_decide (p.2 = c) then Some p.1 else None)
       (imap (λ j x, (j, x)) b).

Definition popular (c : ascii) : bool :=
  (200 <=? length b)%nat &&
  (length b `div` 100 + 1 <? length (indices_of c))%nat.

(** [b2j.get(c, [])], indices ascending. *)
Definition b2j (c : ascii) : list nat :=
  if popular c then [] else indices_of c.

(** [j2len.get(j-1, 0)] *)
Definition prev_len (j2len : gmap nat nat) (j : nat) : nat :=
  match j with
  | O => O
  | S j' => default O (j2len !! j')
  end.

(** (besti, bestj, bestsize) *)
Definition block : Type := nat * nat * nat.

(** The inner loop for one [i]; the [break] at [j >= bhi] skips a
    suffix of the ascending indices. *)
Definition scan_row (blo bhi i : nat) (j2len : gmap nat nat) (best : block)
  : gmap nat nat * block :=
  match a !! i with
  | None => (∅, best)
  | Some c =>
      foldl (λ (st : gmap nat nat * block) j,
               if (j <? blo)%nat || (bhi <=? j)%nat then st
               else
                 let k := (prev_len j2len j + 1)%nat in
                 let newj2len := <[j := k]> st.1 in
                 if (st.2.2 <? k)%nat
                 then (newj2len, ((i + 1 - k)%nat, (j + 1 - k)%nat, k))
                 else (newj2len, st.2))
            (∅, best) (b2j c)
  end.

Definition same_at (i j : nat) : bool :=
  match a !! i, b !! j with
  | Some x, Some y => bool_decide (x = y)
  | _, _ => false
  end.

(** [while besti > alo and bestj > blo and a[besti-1] == b[bestj-1]] *)
Fixpoint extend_left (fuel alo blo : nat) (m : block) : block :=
  match fuel with
  | O => m
  | S fuel' =>
      let '(bi, bj, bs) := m in
      if (alo <? bi)%nat && (blo <? bj)%nat && same_at (bi - 1) (bj - 1)
      then extend_left fuel' alo blo ((bi - 1)%nat, (bj - 1)%nat, S bs)
      else m
  end.

(** [while besti+bestsize < ahi and bestj+bestsize < bhi and ...] *)
Fixpoint extend_right (fuel ahi bhi : nat) (m : block) : block :=
  match fuel with
  | O => m
  | S fuel' =>
      let '(bi, bj, bs) := m in
      if (bi + bs <? ahi)%nat && (bj + bs <? bhi)%nat && same_at (bi + bs) (bj + bs)
      then extend_right fuel' ahi bhi (bi, bj, S bs)
      else m
  end.

Definition find_longest_match (alo ahi blo bhi : nat) : block :=
  let scanned :=
    foldl (λ (st : gmap nat nat * block) i, scan_row blo bhi i st.1 st.2)
          (∅, (alo, blo, O)) (seq alo (ahi - alo)) in
  let m := extend_left (scanned.2.1.1) alo blo scanned.2 in
  extend_right ahi ahi bhi m.

(** Sum of the sizes found by [get_matching_blocks]: the longest
    block of the range, then the ranges on its left and on its right. *)
Fixpoint count_matches (fuel : nat) (alo ahi blo bhi : nat) : option nat :=
  match fuel with
  | O => None
  | S fuel' =>
      let '(i, j, k) := find_longest_match alo ahi blo bhi in
      if (k =? 0)%nat then Some O else
      l ← (if (alo <? i)%nat && (blo <? j)%nat
           then count_matches fuel' alo i blo j else Some O);
      r ← (if (i + k <? ahi)%nat && (j + k <? bhi)%nat
           then count_matches fuel' (i + k) ahi (j + k) bhi else Some O);
      Some (k + l + r)%nat
  end.

Definition matches : option nat :=
  count_matches (S (length a)) 0 (length a) 0 (length b).
End Matcher.

Fixpoint chars (s : string) : list ascii :=
  match s with
  | EmptyString => []
  | String c s' => c :: chars s'
  end.

(** [_calculate_ratio(matches, len(a) + len(b))] *)
Definition calculate_ratio (m total : nat) : Q :=
  match total with
  | O => 1
  | S _ => Qmake (2 * Z.of_nat m) (Pos.of_nat total)
  end.

Definition ratio_opt (x y : string) : option Q :=
  m ← matches (chars x) (chars y);
  Some (calculate_ratio m (Py.len x + Py.len y)).

(** The fuel never runs out ([ratio_opt_total] below), so the default is
    not taken. *)
Definition ratio (x y : string) : Q := default 0%Q (ratio_opt x y).
End Difflib.

(** ** align_with_api.py *)

Record api_org := {
  api_name : string;
  api_years : list Z;   (* [int(y) for y in api_org['years'].keys()] *)
}.

Module AlignWithApi.

Definition Qlt_bool (x y : Q) : bool := negb (Qle_bool y x).

Definition suffixes : list string :=
  [" foundation"; " project"; " initiative"; " community"; " organization";
   ".org"; ".com"; " gmbh"].

Definition get_first_word (s : string) : string :=
  let words := Py.words s in
  let words := match words with
               | w :: rest => if bool_decide (w ∈ ["the"; "a"; "an"]) then rest else words
               | [] => words
               end in
  default EmptyString (head words).

Definition remove_suffixes (s : string) : string :=
  let s := foldl (λ s suffix,
                    if Py.endswith suffix s
                    then Py.strip (Py.take (Py.len s - Py.len suffix) s)
                    else s) s suffixes in
  if Py.startswith "the " s then Py.strip (Py.drop 4 s) else s.

Section Matching.
(** [SequenceMatcher(None, x, y).ratio()] *)
Variable sm_ratio : string → string → Q.

Definition similarity_ratio (name1 name2 : string) : Q :=
  sm_ratio (Py.lower name1) (Py.lower name2).

Definition are_names_compatible (name1 name2 : string) : bool :=
  let n1 := Py.strip (Py.lower name1) in
  let n2 := Py.strip (Py.lower name2) in
  let word1 := get_first_word n1 in
  let word2 := get_first_word n2 in
  if negb (Py.is_empty word1) && negb (Py.is_empty word2) &&
     Qlt_bool (similarity_ratio word1 word2) (1 # 2)
  then false else
  let core1 := remove_suffixes n1 in
  let core2 := remove_suffixes n2 in
  if negb (Py.is_empty core1) && negb (Py.is_empty core2) &&
     Qlt_bool (similarity_ratio core1 core2) (3 # 5)
  then false else true.

(** The loop of [find_best_api_match]: (best_match, best_ratio). *)
Definition best_step (our_org_name : string) (st : option api_org * Q)
    (candidate : api_org) : option api_org * Q :=
  if negb (are_names_compatible our_org_name (api_name candidate)) then st
  else
    let ratio := similarity_ratio our_org_name (api_name candidate) in
    if Qlt_bool st.2 ratio then (Some candidate, ratio) else st.

Definition find_best_api_match (our_org_name : string)
    (api_orgs : list api_org) (threshold : Q) : option api_org * Q :=
  let st := foldl (best_step our_org_name) (None, 0%Q) api_orgs in
  if Qle_bool threshold st.2 then st else (None, 0%Q).

Definition default_threshold : Q := 22 # 25.

(** *** The matching loop of [main] *)

Record align_state := {
  api_groups : list (string * list org);
  unmatched_orgs : list org;
  match_count : nat;
}.

Definition api_by_name (api_orgs : list api_org) : gmap string api_org :=
  foldl (λ m o, <[api_name o := o]> m) ∅ api_orgs.

Definition matched (st : align_state) (target : string) (o : org) : align_state :=
  {| api_groups := MergeByUrls.dict_append target o (api_groups st);
     unmatched_orgs := unmatched_orgs st;
     match_count := S (match_count st) |}.

Section Resolve.
Variable manual_mappings : gmap string string.
Variable api_orgs : list api_org.

(** The alias target, when the name is a key of the table and the
    target is an API name. *)
Definition manual_target (our_name : string) : option string :=
  mapped_name ← manual_mappings !! our_name;
  if bool_decide (is_Some (api_by_name api_orgs !! mapped_name))
  then Some mapped_name else None.

(** The API name a record is filed under, if any. *)
Definition resolve (our_name : string) : option string :=
  match manual_target our_name with
  | Some mapped_name => Some mapped_name
  | None =>
      if bool_decide (is_Some (api_by_name api_orgs !! our_name))
      then Some our_name
      else match find_best_api_match our_name api_orgs default_threshold with
           | (Some api_match, _) => Some (api_name api_match)
           | (None, _) => None
           end
  end.

Definition align_step (st : align_state) (o : org) : align_state :=
  match resolve (name o) with
  | Some target => matched st target o
  | None =>
      {| api_groups := api_groups st;
         unmatched_orgs := unmatched_orgs st ++ [o];
         match_count := match_count st |}
  end.

Definition align (our_orgs : list org) : align_state :=
  foldl align_step
        {| api_groups := []; unmatched_orgs := []; match_count := O |}
        our_orgs.
End Resolve.
End Matching.

(** The alias table of [main]; a later entry for a key replaces an
    earlier one. *)
Definition manual_mappings : gmap string string :=
  foldl (λ m kv, <[kv.1 := kv.2]> m) ∅
    [("AboutCode.org", "AboutCode");
     ("Ardupilot.org", "ArduPilot");
     ("52° North GmbH", "52°North Spatial Information Research GmbH");
     ("52°North GmbH", "52°North Spatial Information Research GmbH");
     ("52° North Initiative for Geospatial Open Source Software GmbH",
      "52°North Spatial Information Research GmbH");
     ("52°North Initiative for Geospatial Open Source Software GmbH",
      "52°North Spatial Information Research GmbH");
     ("BeagleBoard.org Foundation", "BeagleBoard.org");
     ("AOSSIE - Australian Open Source Software Innovation and Education",
      "AOSSIE - The Australian National University's Open-Source Software Innovation and Education");
     ("Berkman Klein Center for Internet & Society at Harvard University",
      "Berkman Klein Center for Internet and Society");
     ("Berkman Klein Center for Internet and Society at Harvard University",
      "Berkman Klein Center for Internet and Society");
     ("afl++", "AFLplusplus");
     ("AFLplusplus", "AFLplusplus");
     ("apertus° Association", "Apertus Association");
     ("Apertus Association", "Apertus Association");
     ("Canadian Center for Computational Genomics",
      "Canadian Centre for Computational Genomics");
     ("Canadian Centre for Computational Genomics (C3G) - Montreal node",
      "Canadian Centre for Computational Genomics");
     ("Catrobat", "Catrobat.org");
     ("Center for Research In Open Source Software (CROSS) at UC Santa Cruz",
      "Center for Research in Open Source Software (CROSS)");
     ("Center for Research in Open Source Software at UC Santa Cruz",
      "Center for Research in Open Source Software (CROSS)");
     ("Center for Research in Open Source Software, UC Santa Cruz",
      "Center for Research in Open Source Software (CROSS)");
     ("Ceph", "Ceph Foundation");
     ("Ceph Foundation", "Ceph Foundation");
     ("CHAOSS: Community Health Analytics Open Source Software", "CHAOSS");
     ("CHAOSS Project", "CHAOSS");
     ("Checkstyle", "checkstyle");
     ("checkstyle", "checkstyle");
     ("CiviCRM", "CiviCRM");
     ("CiviCRM LLC", "CiviCRM");
     ("Cloud Native Computing Foundation (CNCF)", "CNCF");
     ("CNCF", "CNCF");
     ("CRIU (Checkpoint/Restore in User-space)", "CRIU");
     ("CRIU", "CRIU");
     ("D Programming Language", "D Language Foundation");
     ("Debian", "Debian");
     ("Debian Project", "Debian");
     ("Department of Biomedical Informatics (BMI), Emory University School of Medicine",
      "Department of Biomedical Informatics, Emory University");
     ("Earth Science Information Partners (ESIP)",
      "Earth Science Information Partners");
     ("The Eclipse Foundation", "Eclipse Foundation");
     ("Elm Tooling", "Elm Software Foundation");
     ("Eta", "Eta");
     ("FOSDEM VZW", "FOSDEM");
     ("FOSSology", "FOSSology");
     ("FOSSology Project", "FOSSology");
     ("Freifunk", "freifunk");
     ("freifunk", "freifunk");
     ("GENIVI Alliance", "COVESA");
     ("Inkscape Project", "Inkscape");
     ("Intel Media and Audio for Linux", "Intel Video and Audio for Linux");
     ("Intel Media And Audio For Linux", "Intel Video and Audio for Linux");
     ("Kodi Foundation", "Kodi");
     ("MariaDB Foundation", "MariaDB");
     ("MetaBrainz Foundation Inc", "MetaBrainz Foundation Inc");
     ("MetaBrainz Foundation", "MetaBrainz Foundation Inc");
     ("Open Roberta Lab", "Open Roberta");
     ("R Foundation for Statistical Computing",
      "R project for statistical computing");
     ("Scala", "Scala Center");
     ("Shogun", "Shogun");
     ("shogun.ml", "Shogun");
     ("Software and Computational Systems Lab at LMU Munich",
      "Software and Computational Systems Lab, LMU Munich");
     ("Software Heritage", "The Software Heritage Project");
     ("The CGAL Project", "CGAL Project");
     ("CGAL project", "CGAL Project");
     ("CGAL Project", "CGAL Project");
     ("The FreeBSD Project", "The FreeBSD Project");
     ("FreeBSD", "The FreeBSD Project");
     ("The FreeType Project", "FreeType");
     ("The GNU Project", "GNU Project");
     ("The MacPorts Project", "MacPorts");
     ("The STE||AR Group", "Ste||ar group");
     ("TimVideos", "TimVideos.us");
     ("XBMC Foundation", "Kodi")].

(** *** merge_orgs_for_api_match *)

Definition collected_years (our_orgs : list org) : gset Z :=
  foldl (λ all o,
           match years_appeared o with
           | Some (y :: ys) => update_years all (y :: ys)
           | _ => all
           end) ∅ our_orgs.

(** [if org.get(key) and len(org[key]) > len(merged.get(key, '')):
    merged[key] = org[key]], for the candidate [org.get(key)]; the length
    of a null [merged[key]] raises TypeError. *)
Definition longer_text (merged : field string) (candidate : option string)
  : option (field string) :=
  match truthy candidate with
  | None => Some merged
  | Some d =>
      match merged with
      | Val cur => Some (if (Py.len cur <? Py.len d)%nat then Val d else merged)
      | Null => None
      | Absent => Some (if (0 <? Py.len d)%nat then Val d else merged)
      end
  end.

Definition https_website (merged : option string) (o : org) : option string :=
  match truthy (website o) with
  | Some w => if Py.startswith "https://" w then Some w else merged
  | None => merged
  end.

(** One turn of [for org in our_orgs[1:]], on the description, the short
    description and the website of [merged]. *)
Definition later_step (st : field string * field string * option string)
    (o : org) : option (field string * field string * option string) :=
  description ← longer_text st.1.1 (description_html o);
  short ← longer_text st.1.2 (short_desc o);
  Some (description, short, https_website st.2 o).

(** [first_org.get('socials', {})] stores the empty mapping for an absent
    key. *)
Definition no_socials : socials_t := {| github := None; twitter := None |}.

Definition merge_orgs_for_api_match (api : api_org) (our_orgs : list org)
  : option org :=
  let all_years := collected_years our_orgs in
  first_org ← head our_orgs;
  st ← foldl (λ acc o, st ← acc; later_step st o)
             (Some (get_or EmptyString (description_html_key first_org),
                    get_or EmptyString (short_desc_key first_org),
                    website first_org))
             (tail our_orgs);
  Some {| oid := oid first_org;
          name := api_name api;
          website := st.2;
          socials_key := get_or no_socials (socials_key first_org);
          years_appeared_key := Val (sorted_years all_years);
          years_count := Some (Z.of_nat (size all_years));
          description_html_key := st.1.1;
          short_desc_key := st.1.2 |}.
End AlignWithApi.

(** ** final_comparison.py and final_comparison_report.py *)

Module FinalComparison.

Record mismatch := {
  mm_name : string;
  mm_api_years : list Z;
  mm_our_years : list Z;
  missing : list Z;
  extra : list Z;
  match_pct : Z;
}.

Inductive entry :=
| PerfectMatch (n : string)
| YearMismatch (m : mismatch)
| MissingFromOurs (n : string) (years : list Z).

(** [x // y] on integers; [None] is ZeroDivisionError. *)
Definition floordiv (x y : Z) : option Z :=
  if decide (y = 0) then None else Some (x `div` y).

Definition year_set (l : list Z) : gset Z := list_to_set l.

Definition by_name (orgs : list org) : gmap string org :=
  foldl (λ m o, <[name o := o]> m) ∅ orgs.

Definition sorted_list (l : list Z) : list Z := merge_sort Z.le l.

(** The [else] branch once both year lists are at hand; [denominator]
    is the divisor each script builds from the size of the union. *)
Definition compare_years (denominator : nat → Z) (n : string)
    (api_years our_years : list Z) : option entry :=
  let A := year_set api_years in
  let B := year_set our_years in
  if decide (A = B) then Some (PerfectMatch n)
  else
    pct ← floordiv (Z.of_nat (size (A ∩ B)) * 100) (denominator (size (A ∪ B)));
    Some (YearMismatch
            {| mm_name := n; mm_api_years := api_years; mm_our_years := our_years;
               missing := sorted_years (A ∖ B);
               extra := sorted_years (B ∖ A);
               match_pct := pct |}).

(** final_comparison.py: [// max(len(union), 1)]; a record without
    [years_appeared] raises KeyError, one holding null there TypeError. *)
Definition classify (final_orgs : list org) (api : api_org) : option entry :=
  let api_years := sorted_list (api_years api) in
  match by_name final_orgs !! api_name api with
  | None => Some (MissingFromOurs (api_name api) api_years)
  | Some ours =>
      our_years ← years_appeared ours;
      compare_years (λ u, Z.max (Z.of_nat u) 1) (api_name api)
                    api_years (sorted_list our_years)
  end.

(** final_comparison_report.py: [// len(union)] and
    [our_org.get('years_appeared', [])].  A null list, on which [sorted]
    raises TypeError, is read as the empty list: [None] here is
    ZeroDivisionError alone. *)
Definition classify_report (our_orgs : list org) (api : api_org) : option entry :=
  let api_years := sorted_list (api_years api) in
  match by_name our_orgs !! api_name api with
  | None => Some (MissingFromOurs (api_name api) api_years)
  | Some ours =>
      compare_years Z.of_nat (api_name api) api_years (sorted_list (years_of ours))
  end.
End FinalComparison.

(** * Notions used in the statements *)

(** The record does not hold null under ['years_appeared']. *)
Definition years_not_null (o : org) : Prop := years_appeared_key o ≠ Null.

(** The record has no GitHub and no Twitter URL. *)
Definition no_social_urls (o : org) : Prop :=
  match socials o with
  | Some s => truthy (github s) = None ∧ truthy (twitter s) = None
  | None => True
  end.

(** The text under [key] of [first_org] can be merged with the later
    records: it is not null, or no later record has a text to compare it
    with. *)
Definition text_mergeable (key : org → field string) (first_org : org)
    (later : list org) : Prop :=
  key first_org = Null → Forall (λ o, truthy (get (key o)) = None) later.

(** The groups on which [merge_orgs_for_api_match] returns a record. *)
Definition mergeable_for_api (our_orgs : list org) : Prop :=
  match our_orgs with
  | [] => False
  | first_org :: later =>
      text_mergeable description_html_key first_org later ∧
      text_mergeable short_desc_key first_org later
  end.

(** The parse that [normalize_url] works on: the cleaned URL, given a
    scheme when it has none, through [urlparse]. *)
Definition parsed_input (host_ok : string → bool) (url : string)
  : option Url.parsed :=
  if Py.is_empty url then None
  else if Py.is_empty (clean_url url) then None
  else Url.urlparse host_ok (with_scheme (clean_url url)).

(** A path segment that can serve as a handle: not empty, and made of
    ASCII characters above the blank other than the URL delimiters.
    (Beyond ASCII, [str.strip] and [str.lower] know blanks and capitals
    that their counterparts on bytes do not.) *)
Definition handle_char (c : ascii) : bool :=
  (32 <? Py.code c)%N && (Py.code c <? 128)%N &&
  negb (Py.is_char "/" c) && negb (Py.is_char "?" c) &&
  negb (Py.is_char "#" c) && negb (Py.is_char ";" c).

Definition handle_ok (h : string) : Prop :=
  Py.is_empty h = false ∧ Py.forallb handle_char h = true.

(** scheme://[www.]github.com/handle[/] *)
Definition github_url (scheme www h slash : string) : string :=
  scheme +:+ "://" +:+ www +:+ "github.com/" +:+ h +:+ slash.

(** The candidates that pass the compatibility pre-filter, in iteration
    order, and the score of a candidate. *)
Definition compatible_candidates (sm_ratio : string → string → Q)
    (our_org_name : string) (api_orgs : list api_org) : list api_org :=
  filter (λ c, AlignWithApi.are_names_compatible sm_ratio our_org_name (api_name c) = true)
         api_orgs.

Definition score (sm_ratio : string → string → Q) (our_org_name : string)
    (c : api_org) : Q :=
  AlignWithApi.similarity_ratio sm_ratio our_org_name (api_name c).

(** ** Loop invariants *)

(** State of the loop of [find_best_api_match] after the candidates
    [seen]: nothing chosen and no positive score so far, or the first
    candidate of greatest score. *)
Definition best_so_far (sm_ratio : string → string → Q) (our_org_name : string)
    (seen : list api_org) (st : option api_org * Q) : Prop :=
  match st with
  | (None, r) =>
      r = 0%Q ∧
      Forall (λ x, (score sm_ratio our_org_name x <= 0)%Q)
             (compatible_candidates sm_ratio our_org_name seen)
  | (Some c, r) =>
      r = score sm_ratio our_org_name c ∧ (0 < r)%Q ∧
      ∃ l1 l2, compatible_candidates sm_ratio our_org_name seen = l1 ++ c :: l2 ∧
               Forall (λ x, (score sm_ratio our_org_name x
                             < score sm_ratio our_org_name c)%Q) l1 ∧
               Forall (λ x, (score sm_ratio our_org_name x
                             <= score sm_ratio our_org_name c)%Q) l2
  end.

(** Bounds kept by the matcher's scan of the rows [alo .. i-1]: every
    recorded length is at most the number of rows, and the best block
    lies inside them. *)
Definition scanned (alo i : nat) (st : gmap nat nat * Difflib.block) : Prop :=
  (∀ j v, st.1 !! j = Some v → (v ≤ i - alo)%nat) ∧
  (alo ≤ st.2.1.1)%nat ∧ (st.2.1.1 + st.2.2 ≤ i)%nat.

(** [path parent x r d]: following [parent] from [x] reaches the
    representative [r] (an index that is its own parent) in [d] steps. *)
Inductive path (parent : list nat) : nat → nat → nat → Prop :=
| path_root x :
    parent !! x = Some x → path parent x x O
| path_step x p r d :
    parent !! x = Some p → p ≠ x → path parent p r d → path parent x r (S d).

Definition root_of (parent : list nat) (x r : nat) : Prop :=
  ∃ d, path parent x r d.

(** Every index has a representative: the array is a forest. *)
Definition forest (parent : list nat) : Prop :=
  ∀ x, (x < length parent)%nat → ∃ r, root_of parent x r.

(** ** Example inputs *)

(** A host validation that accepts every host. *)
Definition any_host (_ : string) : bool := true.

(** A record with a name, a website and years, and nothing else. *)
Definition record (n : string) (w : option string) (ys : list Z) : org :=
  {| oid := n; name := n; website := w; socials_key := Absent;
     years_appeared_key := Val ys; years_count := Some (Z.of_nat (length ys));
     description_html_key := Absent; short_desc_key := Absent |}.

(** The two records of the year-preservation example. *)
Definition example_group : list org :=
  [record "Kodi Foundation" None [2016; 2018];
   record "XBMC Foundation" None [2017; 2018]].

Definition example_api : api_org :=
  {| api_name := "Kodi"; api_years := [2016; 2017; 2018] |}.

(** Candidates of the tie-break example: the last two score 1. *)
Definition example_candidates : list api_org :=
  [{| api_name := "PEcAn"; api_years := [2016] |};
   {| api_name := "GNU Octave"; api_years := [2016; 2017] |};
   {| api_name := "gnu octave"; api_years := [2018] |}].

(** The alias example: one raw record and the authoritative list. *)
Definition aboutcode_record : org := record "AboutCode.org" None [2017; 2018].

(** Records that share a website host and two records on Google Groups. *)
Definition listed_records : list org :=
  [record "Kodi Foundation" (Some "http://kodi.tv") [2016];
   record "Kodi list" (Some "https://groups.google.com/forum/kodi") [2016];
   record "Kodi" (Some "https://www.kodi.tv/") [2017];
   record "Other list" (Some "https://groups.google.com/forum/other") [2018]].
Definition aboutcode_api : list api_org :=
  [{| api_name := "Debian"; api_years := [2016] |};
   {| api_name := "AboutCode"; api_years := [2017; 2018] |}].

(** A year mismatch: two of the four years agree. *)
Definition mismatch_api : api_org :=
  {| api_name := "Kodi"; api_years := [2016; 2017; 2018] |}.
Definition mismatch_ours : list org := [record "Kodi" None [2019; 2018; 2017]].

(** ** Classes of the grouping *)

(** Two indices have the same representative. *)
Definition same (parent : list nat) (x y : nat) : Prop :=
  ∃ r, root_of parent x r ∧ root_of parent y r.

(** Two indices occur together under some key of the dictionary. *)
Definition linked {K} (dict : list (K * list nat)) (i j : nat) : Prop :=
  ∃ k idxs, (k, idxs) ∈ dict ∧ i ∈ idxs ∧ j ∈ idxs.

(** Record [i] of [orgs] carries the normalized key [k]. *)
Definition has_key (host_ok : string → bool) (orgs : list org) (i : nat)
    (k : string) : Prop :=
  ∃ o x, orgs !! i = Some o ∧ x ∈ MergeByUrls.extract_key_urls host_ok o ∧ x.1.2 = k.

(** Two records carry a common normalized key. *)
Definition shares_key (host_ok : string → bool) (orgs : list org) (i j : nat) : Prop :=
  ∃ k, has_key host_ok orgs i k ∧ has_key host_ok orgs j k.

(** Three records chained by keys: the first two share the website host,
    the last two the GitHub handle. *)
Definition chained_records : list org :=
  [{| oid := "a"; name := "XBMC Foundation"; website := Some "http://kodi.tv";
      socials_key := Absent; years_appeared_key := Val [2014; 2015];
      years_count := Some 2; description_html_key := Absent;
      short_desc_key := Absent |};
   {| oid := "b"; name := "Kodi Foundation"; website := Some "https://www.kodi.tv/";
      socials_key :=
        Val {| github := Some "https://github.com/xbmc"; twitter := None |};
      years_appeared_key := Val [2016]; years_count := Some 1;
      description_html_key := Absent; short_desc_key := Absent |};
   {| oid := "c"; name := "Kodi"; website := None;
      socials_key := Val {| github := Some "github.com/XBMC/"; twitter := None |};
      years_appeared_key := Val [2017]; years_count := Some 1;
      description_html_key := Absent; short_desc_key := Absent |}].

(** ** align_with_api.py: building the aligned list *)

Module AlignMain.

(** [d.get(k, [])] on an insertion-ordered dictionary of lists. *)
Fixpoint dict_get {K} `{EqDecision K} {V} (k : K) (d : list (K * list V)) : list V :=
  match d with
  | [] => []
  | (k', vs) :: d' => if decide (k = k') then vs else dict_get k d'
  end.

(** [for api_org in api_orgs: ...]: one merged record for each API
    entry that has matching records, none for the others. *)
Fixpoint build_aligned (api_groups : list (string * list org))
    (api_orgs : list api_org) : option (list org) :=
  match api_orgs with
  | [] => Some []
  | a :: rest =>
      match dict_get (api_name a) api_groups with
      | [] => build_aligned api_groups rest
      | our_matching_orgs =>
          merged_org ← AlignWithApi.merge_orgs_for_api_match a our_matching_orgs;
          aligned ← build_aligned api_groups rest;
          Some (merged_org :: aligned)
      end
  end.

(** [l.sort(key=lambda x: x['name'].lower())]: a stable sort; strings
    compare position by position on their character codes. *)
Fixpoint insert_by_name (x : org) (l : list org) : list org :=
  match l with
  | [] => [x]
  | y :: l' =>
      if String.leb (Py.lower (name x)) (Py.lower (name y))
      then x :: y :: l'
      else y :: insert_by_name x l'
  end.

Definition sort_by_name (l : list org) : list org := foldr insert_by_name [] l.

Section Main.
Variable sm_ratio : string → string → Q.
Variable manual_mappings : gmap string string.

(** [aligned_orgs] as it is saved: the merged records in API order, then
    the unmatched records, sorted by lower-cased name.  Before building
    the list, [main] prints [org['years_appeared']] for the first ten
    unmatched records. *)
Definition aligned_orgs (api_orgs : list api_org) (our_orgs : list org)
  : option (list org) :=
  let st := AlignWithApi.align sm_ratio manual_mappings api_orgs our_orgs in
  _ ← mapM (λ o, index_key (years_appeared_key o))
           (take 10 (AlignWithApi.unmatched_orgs st));
  aligned ← build_aligned (AlignWithApi.api_groups st) api_orgs;
  Some (sort_by_name (aligned ++ AlignWithApi.unmatched_orgs st)).
End Main.
End AlignMain.

(** What the matching loop maintains, for the records [seen] so far. *)
Definition aligned_state (sm_ratio : string → string → Q) (table : gmap string string)
    (api_orgs : list api_org) (seen : list org) (st : AlignWithApi.align_state) : Prop :=
  concat (AlignWithApi.api_groups st).*2 ++ AlignWithApi.unmatched_orgs st ≡ₚ seen ∧
  AlignWithApi.match_count st = length (concat (AlignWithApi.api_groups st).*2) ∧
  NoDup (AlignWithApi.api_groups st).*1 ∧
  Forall (λ g, g.1 ∈ api_name <$> api_orgs ∧ g.2 ≠ []) (AlignWithApi.api_groups st) ∧
  Forall (λ u, AlignWithApi.resolve sm_ratio table api_orgs (name u) = None)
         (AlignWithApi.unmatched_orgs st) ∧
  Forall (λ g, Forall (λ o, AlignWithApi.resolve sm_ratio table api_orgs (name o)
                            = Some g.1) g.2)
         (AlignWithApi.api_groups st).

(** ** final_comparison.py: the tally and its summary *)

Module ComparisonMain.

Record tally := {
  perfect_matches : list string;
  year_mismatches : list FinalComparison.mismatch;
  missing_from_ours : list (string * list Z);
}.

Definition record_entry (t : tally) (e : FinalComparison.entry) : tally :=
  match e with
  | FinalComparison.PerfectMatch n =>
      {| perfect_matches := perfect_matches t ++ [n];
         year_mismatches := year_mismatches t;
         missing_from_ours := missing_from_ours t |}
  | FinalComparison.YearMismatch m =>
      {| perfect_matches := perfect_matches t;
         year_mismatches := year_mismatches t ++ [m];
         missing_from_ours := missing_from_ours t |}
  | FinalComparison.MissingFromOurs n years =>
      {| perfect_matches := perfect_matches t;
         year_mismatches := year_mismatches t;
         missing_from_ours := missing_from_ours t ++ [(n, years)] |}
  end.

(** [for api_org in api_orgs: ...]; an exception ends the run. *)
Definition tally_orgs (final_orgs : list org) (api_orgs : list api_org)
  : option tally :=
  foldl (λ acc a,
           t ← acc;
           e ← FinalComparison.classify final_orgs a;
           Some (record_entry t e))
        (Some {| perfect_matches := []; year_mismatches := [];
                 missing_from_ours := [] |})
        api_orgs.

(** The three percentages of the summary lines,
    [len(...)*100//len(api_orgs)]. *)
Definition summary (t : tally) (api_orgs : list api_org) : option (Z * Z * Z) :=
  let n := Z.of_nat (length api_orgs) in
  p ← FinalComparison.floordiv (Z.of_nat (length (perfect_matches t)) * 100) n;
  y ← FinalComparison.floordiv (Z.of_nat (length (year_mismatches t)) * 100) n;
  m ← FinalComparison.floordiv (Z.of_nat (length (missing_from_ours t)) * 100) n;
  Some (p, y, m).
(** The names the three lists hold. *)
Definition tallied_names (t : tally) : list string :=
  perfect_matches t ++ (FinalComparison.mm_name <$> year_mismatches t)
  ++ (missing_from_ours t).*1.
End ComparisonMain.

(** ** Notions for the merged fields *)

(** The name carries one of the markers that the name choice avoids. *)
Definition marked (n : string) : bool :=
  Py.contains "Foundation" n || Py.contains "Project" n.

(** Two records of one organisation, the second with the better name
    and the secure site. *)
Definition site_group : list org :=
  [record "Kodi Foundation" (Some "http://kodi.tv") [2016];
   record "Kodi" (Some "https://kodi.tv") [2017]].

(** A record whose website is on a host that merely contains "x.com". *)
Definition linux_record : org :=
  record "The Linux Foundation" (Some "https://www.linux.com/news") [2016].

(** ** merge_orgs_by_domain_and_name.py: grouping *)

Module DomainGroups.

(** [union_lists] of its argument lists: the elements in the order of
    their first occurrence. *)
Definition union_lists {A} `{EqDecision A} (lists : list (list A)) : list A :=
  foldl (λ out l,
           foldl (λ out x, if decide (x ∈ out) then out else out ++ [x]) out l)
        [] lists.

Section Domains.
Variable host_ok : string → bool.

(** [domain_from_url(url)]; an error of [urlparse] gives [None]. *)
Definition domain_from_url (url : option string) : option string :=
  match truthy url with
  | None => None
  | Some u =>
      match Url.urlparse host_ok u with
      | None => None
      | Some parsed =>
          let host := Py.lower (Url.netloc parsed) in
          Some (if Py.startswith "www." host then Py.drop 4 host else host)
      end
  end.

(** [find_domain_groups()] over the documents of the collection:
    [(by_domain, no_domain)]. *)
Definition find_domain_groups (docs : list org)
  : list (string * list org) * list org :=
  foldl (λ '(by_domain, no_domain) d,
           match truthy (domain_from_url (website d)) with
           | Some domain => (MergeByUrls.dict_append domain d by_domain, no_domain)
           | None => (by_domain, no_domain ++ [d])
           end)
        ([], []) docs.
End Domains.

Section Fuzzy.
Variable token_set_ratio : string → string → Q.
Variable thresh : Q.

(** The inner loop over the later documents: those not yet used whose
    lower-cased name scores at least [thresh] join the group. *)
Fixpoint absorb (name_i : string) (later : list org) (used : gset string)
  : list org * gset string :=
  match later with
  | [] => ([], used)
  | e :: later' =>
      if decide (oid e ∈ used) then absorb name_i later' used
      else if Qle_bool thresh (token_set_ratio name_i (Py.lower (name e)))
      then let '(group, used') := absorb name_i later' (used ∪ {[oid e]}) in
           (e :: group, used')
      else absorb name_i later' used
  end.

Fixpoint fuzzy_group_from (docs : list org) (used : gset string)
  : list (list org) :=
  match docs with
  | [] => []
  | d :: later =>
      if decide (oid d ∈ used) then fuzzy_group_from later used
      else
        let '(group, used') :=
          absorb (Py.lower (name d)) later (used ∪ {[oid d]}) in
        (d :: group) :: fuzzy_group_from later used'
  end.

Definition fuzzy_group_remaining (docs : list org) : list (list org) :=
  fuzzy_group_from docs ∅.
End Fuzzy.
End DomainGroups.

(** A score for examples: 100 for equal names, 0 otherwise. *)
Definition same_name_score (a b : string) : Q :=
  if decide (a = b) then 100%Q else 0%Q.

(** Three documents without a website; the first and the last share
    their name up to case. *)
Definition nameless_docs : list org :=
  [{| oid := "a1"; name := "Kodi"; website := None; socials_key := Absent;
      years_appeared_key := Val [2016]; years_count := Some 1;
      description_html_key := Absent; short_desc_key := Absent |};
   {| oid := "b2"; name := "Debian"; website := Some ""; socials_key := Absent;
      years_appeared_key := Val [2016]; years_count := Some 1;
      description_html_key := Null; short_desc_key := Null |};
   {| oid := "c3"; name := "KODI"; website := None; socials_key := Absent;
      years_appeared_key := Val [2017]; years_count := Some 1;
      description_html_key := Absent; short_desc_key := Absent |}].

(** ** merge_with_api_names.py: [main] *)

(** Records are compared with [==] by [raw_orgs.index]. *)
#[global] Instance field_eq_dec {A} `{EqDecision A} : EqDecision (field A).
Proof. solve_decision. Defined.
#[global] Instance socials_eq_dec : EqDecision socials_t.
Proof. solve_decision. Defined.
#[global] Instance org_eq_dec : EqDecision org.
Proof. solve_decision. Defined.

Module ApiNamesMain.

(** An entry of the authoritative list with its [url]. *)
Record api_entry := {
  entry : api_org;
  url : option string;
}.

Definition entry_name (a : api_entry) : string := api_name (entry a).

(** [api_name.lower() in raw_name.lower() or raw_name.lower() in
    api_name.lower() or api_name.replace(' ', '').lower() ==
    raw_name.replace(' ', '').lower()] *)
Definition name_matches (raw_name api_name : string) : bool :=
  Py.contains (Py.lower api_name) (Py.lower raw_name) ||
  Py.contains (Py.lower raw_name) (Py.lower api_name) ||
  bool_decide (Py.lower (Py.delete_all " " api_name)
               = Py.lower (Py.delete_all " " raw_name)).

(** [api_by_name.keys()]: the names in the order of their first
    occurrence. *)
Definition dict_keys (names : list string) : list string :=
  foldl (λ ks n, if decide (n ∈ ks) then ks else ks ++ [n]) [] names.

(** The name matching of the second pass: the exact name, or the first
    key that matches. *)
Definition match_name (names : list string) (raw_name : string) : option string :=
  if decide (raw_name ∈ names) then Some raw_name
  else snd <$> list_find (λ n, Is_true (name_matches raw_name n)) (dict_keys names).

(** [raw_orgs.index(org)]; [None] is ValueError. *)
Definition index_of (org0 : org) (raw_orgs : list org) : option nat :=
  fst <$> list_find (λ o, o = org0) raw_orgs.

(** One step of the inner loop of the first pass. *)
Definition take_org (raw_orgs : list org) (api_name : string)
    (st : option (list (string * list org) * gset nat)) (org0 : org)
  : option (list (string * list org) * gset nat) :=
  '(groups, processed) ← st;
  idx ← index_of org0 raw_orgs;
  if decide (idx ∈ processed) then Some (groups, processed)
  else Some (MergeByUrls.dict_append api_name org0 groups, processed ∪ {[idx]}).

(** First pass: direct URL matching. *)
Definition first_pass (api_url_to_name : gmap string string) (raw_orgs : list org)
    (url_to_raw_orgs : list (string * list org))
  : option (list (string * list org) * gset nat) :=
  foldl (λ st kv,
           match api_url_to_name !! kv.1 with
           | Some api_name => foldl (take_org raw_orgs api_name) st kv.2
           | None => st
           end)
        (Some ([], ∅)) url_to_raw_orgs.

(** Second pass: name matching for the records that remain;
    [(api_name_to_raw_orgs, unmatched_raw_orgs)]. *)
Fixpoint second_pass (names : list string) (processed : gset nat) (i : nat)
    (rest : list org) (st : list (string * list org) * list org)
  : list (string * list org) * list org :=
  match rest with
  | [] => st
  | org0 :: rest' =>
      second_pass names processed (S i) rest'
        (if decide (i ∈ processed) then st
         else match match_name names (name org0) with
              | Some n => (MergeByUrls.dict_append n org0 st.1, st.2)
              | None => (st.1, st.2 ++ [org0])
              end)
  end.

(** [for api_org in api_orgs: ...]: the merged record of each entry
    that has raw records; the check of the years reads
    [merged['years_appeared']]. *)
Fixpoint build_final (groups : list (string * list org))
    (api_names : list string) : option (list org) :=
  match api_names with
  | [] => Some []
  | api_name :: rest =>
      match AlignMain.dict_get api_name groups with
      | [] => build_final groups rest
      | raw_orgs_for_api =>
          merged ← MergeWithApiNames.merge_organizations raw_orgs_for_api api_name;
          _ ← years_appeared merged;
          final ← build_final groups rest;
          Some (merged :: final)
      end
  end.

Section Main.
Variable host_ok : string → bool.

(** [api_url_to_name[url] = api_name] for the entries with a key. *)
Definition api_url_to_name (api_orgs : list api_entry) : gmap string string :=
  foldl (λ m a,
           match truthy (url a) with
           | Some u =>
               match MergeWithApiNames.normalize_url host_ok u with
               | Some k => <[k := entry_name a]> m
               | None => m
               end
           | None => m
           end) ∅ api_orgs.

(** [url_to_raw_orgs[url].append(org)] for every key of every record. *)
Definition url_to_raw_orgs (raw_orgs : list org) : list (string * list org) :=
  foldl (λ d org0,
           foldl (λ d k, MergeByUrls.dict_append k org0 d) d
                 (MergeWithApiNames.extract_key_urls host_ok org0))
        [] raw_orgs.

(** The two passes: [(api_name_to_raw_orgs, unmatched_raw_orgs)]. *)
Definition map_to_api (api_orgs : list api_entry) (raw_orgs : list org)
  : option (list (string * list org) * list org) :=
  '(groups, processed) ←
    first_pass (api_url_to_name api_orgs) raw_orgs (url_to_raw_orgs raw_orgs);
  Some (second_pass (entry_name <$> api_orgs) processed O raw_orgs (groups, [])).

(** [final_orgs] as it is saved. *)
Definition final_orgs (api_orgs : list api_entry) (raw_orgs : list org)
  : option (list org) :=
  '(groups, unmatched) ← map_to_api api_orgs raw_orgs;
  final ← build_final groups (entry_name <$> api_orgs);
  Some (AlignMain.sort_by_name (final ++ unmatched)).
End Main.
End ApiNamesMain.

(** What the first pass maintains: the grouped records are the records
    at the processed indices, each once, under authoritative names. *)
Definition first_pass_state (names : list string) (raw_orgs : list org)
    (st : list (string * list org) * gset nat) : Prop :=
  ∃ taken : list nat,
    NoDup taken ∧ (∀ i, i ∈ taken ↔ i ∈ st.2) ∧
    Forall (λ i, (i < length raw_orgs)%nat) taken ∧
    concat st.1.*2 ≡ₚ omap (λ i, raw_orgs !! i) taken ∧
    NoDup st.1.*1 ∧
    Forall (λ g, g.1 ∈ names ∧ g.2 ≠ []) st.1.

(** One authoritative entry, and two raw records that its URL does not
    reach: one with an unrelated name, one without a name. *)
Definition kodi_entry : ApiNamesMain.api_entry :=
  {| ApiNamesMain.entry := example_api; ApiNamesMain.url := Some "https://kodi.tv" |}.
Definition stray_records : list org :=
  [record "Debian" None [2016]; record "" None [2015]].

(** ** merge_orgs_by_domain_and_name.py: the domain of a merged group *)

Module DomainOfGroup.
Section Domains.
Variable host_ok : string → bool.

(** [for d in docs: domain = domain_from_url(d.get("website")) or domain] *)
Definition group_domain (docs : list org) : option string :=
  foldl (λ domain d,
           match truthy (DomainGroups.domain_from_url host_ok (website d)) with
           | Some x => Some x
           | None => domain
           end) None docs.

(** The ["website"] entry of the merged document,
    [domain or primary.get("website")], for the document [primary]
    that the sort by creation time puts first. *)
Definition merged_website (primary : org) (docs : list org) : option string :=
  match group_domain docs with
  | Some domain => Some domain
  | None => website primary
  end.
End Domains.
End DomainOfGroup.

(** Two documents of one site. *)
Definition site_docs : list org :=
  [record "Kodi" (Some "https://www.kodi.tv/about") [2016];
   record "Kodi Foundation" (Some "http://kodi.tv") [2017]].

(** * Properties *)

(** ** Identity normaliser *)

Section NormalizerFacts.
Variable host_ok : string → bool.

Lemma normalize_url_unfold url :
  MergeByUrls.normalize_url host_ok url =
  match parsed_input host_ok url with
  | None => None
  | Some parsed =>
      let domain := domain_of parsed in
      match (if Py.contains "github.com" domain
             then path_handle (Url.path parsed) else None) with
      | Some h => Some ("github:" +:+ h)
      | None =>
          match (if Py.contains "twitter.com" domain || Py.contains "x.com" domain
                 then path_handle (Url.path parsed) else None) with
          | Some h => Some ("twitter:" +:+ h)
          | None => if Py.is_empty domain then None else Some ("web:" +:+ domain)
          end
      end
  end.
Proof.
  unfold MergeByUrls.normalize_url, parsed_input.
  destruct (Py.is_empty url); [done|].
  destruct (Py.is_empty (clean_url url)); done.
Qed.

Lemma normalize_url_api_unfold url :
  MergeWithApiNames.normalize_url host_ok url =
  match parsed_input host_ok url with
  | None => None
  | Some parsed =>
      let domain := domain_of parsed in
      match (if Py.contains "github.com" domain
             then path_handle (Url.path parsed) else None) with
      | Some h => Some ("github:" +:+ h)
      | None =>
          match (if Py.contains "twitter.com" domain || Py.contains "x.com" domain
                 then path_handle (Url.path parsed) else None) with
          | Some h => Some ("twitter:" +:+ h)
          | None =>
              if negb (Py.is_empty domain) &&
                 bool_decide (domain ∉ MergeWithApiNames.denylist)
              then Some ("web:" +:+ domain) else None
          end
      end
  end.
Proof.
  unfold MergeWithApiNames.normalize_url, parsed_input.
  destruct (Py.is_empty url); [done|].
  destruct (Py.is_empty (clean_url url)); done.
Qed.

Lemma contains_nonempty sub s :
  sub ≠ EmptyString → Py.contains sub s = true → Py.is_empty s = false.
Proof. destruct s, sub; naive_solver. Qed.

(** No denylisted host looks like a code-hosting or social host. *)
Lemma denylist_plain d :
  d ∈ MergeWithApiNames.denylist →
  Py.contains "github.com" d = false ∧ Py.contains "twitter.com" d = false ∧
  Py.contains "x.com" d = false ∧ Py.is_empty d = false.
Proof.
  unfold MergeWithApiNames.denylist. rewrite !elem_of_cons, elem_of_nil.
  intros [->|[->|[->|[->|[->|[->|[]]]]]]]; by vm_compute.
Qed.

Lemma social_host_not_denied d :
  Py.contains "github.com" d = true ∨ Py.contains "twitter.com" d = true ∨
  Py.contains "x.com" d = true →
  d ∉ MergeWithApiNames.denylist.
Proof.
  intros H Hd. destruct (denylist_plain d Hd) as (?&?&?&?).
  destruct H as [|[|]]; congruence.
Qed.

End NormalizerFacts.

(** C3 (as stated, refuted): a bare github.com URL is not mapped to null.
    Both copies of the normaliser fall through to the generic rule and
    answer [web:github.com]. *)
Lemma bare_github_is_web_key :
  MergeByUrls.normalize_url any_host "https://github.com" = Some "web:github.com" ∧
  MergeByUrls.normalize_url any_host "http://www.github.com/" = Some "web:github.com" ∧
  MergeWithApiNames.normalize_url any_host "https://github.com" = Some "web:github.com" ∧
  MergeWithApiNames.normalize_url any_host "http://www.github.com/" = Some "web:github.com".
Proof. by vm_compute. Qed.

(** C3 (amended): for every URL whose host contains github.com,
    twitter.com or x.com and whose path has no non-empty first segment,
    the normaliser returns the generic key [web:<host>]: not null, and
    neither a [github:] nor a [twitter:] handle key. *)
Theorem no_handle_gives_web_key (host_ok : string → bool) (url : string)
    (parsed : Url.parsed) :
  parsed_input host_ok url = Some parsed →
  Py.contains "github.com" (domain_of parsed) = true ∨
  Py.contains "twitter.com" (domain_of parsed) = true ∨
  Py.contains "x.com" (domain_of parsed) = true →
  path_handle (Url.path parsed) = None →
  MergeByUrls.normalize_url host_ok url = Some ("web:" +:+ domain_of parsed) ∧
  MergeWithApiNames.normalize_url host_ok url = Some ("web:" +:+ domain_of parsed) ∧
  Py.startswith "github:" ("web:" +:+ domain_of parsed) = false ∧
  Py.startswith "twitter:" ("web:" +:+ domain_of parsed) = false.
Proof.
  intros Hparse Hhost Hpath.
  assert (Py.is_empty (domain_of parsed) = false) as Hne.
  { destruct Hhost as [H|[H|H]]; eapply contains_nonempty; eauto; done. }
  pose proof (social_host_not_denied _ Hhost) as Hdeny.
  rewrite normalize_url_unfold, normalize_url_api_unfold, Hparse; simpl.
  rewrite Hpath, Hne, (bool_decide_eq_true_2 _ Hdeny); simpl.
  repeat split; by repeat case_match.
Qed.

Lemma no_handle_gives_web_key_witness :
  MergeByUrls.normalize_url any_host "https://github.com" = Some "web:github.com" ∧
  MergeWithApiNames.normalize_url any_host "https://github.com" = Some "web:github.com" ∧
  MergeByUrls.normalize_url any_host "http://twitter.com/" = Some "web:twitter.com".
Proof.
  pose proof (no_handle_gives_web_key any_host "https://github.com"
    {| Url.scheme := "https"; Url.netloc := "github.com"; Url.path := "" |}
    eq_refl (or_introl eq_refl) eq_refl) as (H1 & H2 & _).
  pose proof (no_handle_gives_web_key any_host "http://twitter.com/"
    {| Url.scheme := "http"; Url.netloc := "twitter.com"; Url.path := "" |}
    eq_refl (or_intror (or_introl eq_refl)) eq_refl) as (H3 & _).
  exact (conj H1 (conj H2 H3)).
Defined.

(** *** Keys of the URL dictionary *)

Section KeyFacts.
Variable host_ok : string → bool.

Lemma dict_append_keys {V} (k : string) (v : V) d k' vs :
  (k', vs) ∈ MergeByUrls.dict_append k v d → k' = k ∨ k' ∈ d.*1.
Proof.
  induction d as [|[k0 vs0] d IH]; simpl.
  - rewrite list_elem_of_singleton. intros [=]; auto.
  - case_decide; subst; rewrite !elem_of_cons; simpl.
    + intros [[=]|Hin]; subst; [auto|].
      right. right. apply list_elem_of_fmap. by exists (k', vs).
    + intros [[=]|Hin]; subst; [auto|].
      destruct (IH Hin); auto.
Qed.

Lemma dict_append_keys_fold (i : nat) (ks : list MergeByUrls.key_url) d k vs :
  (k, vs) ∈ foldl (λ d (x : MergeByUrls.key_url),
                     MergeByUrls.dict_append x.1.2 i d) d ks →
  k ∈ d.*1 ∨ ∃ x, x ∈ ks ∧ x.1.2 = k.
Proof.
  revert d. induction ks as [|x ks IH]; simpl; intros d Hin.
  - left. apply list_elem_of_fmap. by exists (k, vs).
  - destruct (IH _ Hin) as [Hk|(y & Hy & <-)].
    + apply list_elem_of_fmap in Hk as ([k1 vs1] & -> & Hk).
      destruct (dict_append_keys _ _ _ _ _ Hk) as [->|?]; [|by left].
      right. exists x. split; [left|done].
    + right. exists y. split; [by right|done].
Qed.

Lemma index_urls_keys orgs i d k vs :
  (k, vs) ∈ MergeByUrls.index_urls host_ok i orgs d →
  k ∈ d.*1 ∨ ∃ o x, o ∈ orgs ∧ x ∈ MergeByUrls.extract_key_urls host_ok o ∧ x.1.2 = k.
Proof.
  revert i d. induction orgs as [|o orgs IH]; simpl; intros i d Hin.
  - left. apply list_elem_of_fmap. by exists (k, vs).
  - destruct (IH _ _ Hin) as [Hk|(o' & x & ? & ? & ?)].
    + apply list_elem_of_fmap in Hk as ([k1 vs1] & -> & Hk).
      destruct (dict_append_keys_fold _ _ _ _ _ Hk) as [?|(x & ? & ?)]; [by left|].
      right. exists o, x. split; [left|done].
    + right. exists o', x. split; [by right|done].
Qed.

Lemma handle_key_not_web kind n :
  kind = "github" ∨ kind = "twitter" →
  Py.startswith (kind +:+ ":") n = true →
  Py.startswith "web:groups.google.com" n = false ∧
  Py.startswith "web:plus.google.com" n = false.
Proof.
  intros [->| ->]; destruct n as [|a n]; simpl; try done;
    case_bool_decide; subst; simpl; try done; intros _; split;
    by rewrite bool_decide_eq_false_2.
Qed.

Lemma extract_key_urls_filtered o x :
  x ∈ MergeByUrls.extract_key_urls host_ok o →
  Py.startswith "web:groups.google.com" x.1.2 = false ∧
  Py.startswith "web:plus.google.com" x.1.2 = false.
Proof.
  unfold MergeByUrls.extract_key_urls, MergeByUrls.website_key,
    MergeByUrls.social_key.
  rewrite elem_of_app. intros [Hw|Hs].
  - repeat case_match; try by apply elem_of_nil in Hw.
    apply list_elem_of_singleton in Hw as ->. simpl.
    match goal with H : _ && _ = true |- _ => apply andb_true_iff in H as [H1 H2] end.
    by apply negb_true_iff in H1, H2.
  - destruct (socials o) as [s|]; [|by apply elem_of_nil in Hs].
    apply elem_of_app in Hs as [Hs|Hs];
      repeat case_match; try (by apply elem_of_nil in Hs);
      apply list_elem_of_singleton in Hs as ->; simpl;
      match goal with
      | H : Py.startswith (?k +:+ ":") _ = true |- _ =>
          apply (handle_key_not_web k) in H; [done|auto]
      end.
Qed.
End KeyFacts.

(** ** Record merger: years *)

Section SortedYears.
Implicit Types (s : gset Z) (l : list Z) (y : Z).

Lemma elem_of_sorted_years s y : y ∈ sorted_years s ↔ y ∈ s.
Proof.
  unfold sorted_years. rewrite merge_sort_Permutation. apply elem_of_elements.
Qed.

Lemma length_sorted_years s : length (sorted_years s) = size s.
Proof. unfold sorted_years. by rewrite merge_sort_Permutation. Qed.

Lemma NoDup_sorted_years s : NoDup (sorted_years s).
Proof.
  unfold sorted_years. rewrite merge_sort_Permutation. apply NoDup_elements.
Qed.

Lemma strictly_sorted l :
  StronglySorted Z.le l → NoDup l → StronglySorted Z.lt l.
Proof.
  induction 1 as [|x l Hl IH Hx]; intros Hnd; [constructor|].
  pose proof (NoDup_cons_1_1 _ _ Hnd) as Hx'.
  pose proof (NoDup_cons_1_2 _ _ Hnd). constructor; [auto|].
  apply Forall_forall. intros z Hz.
  rewrite Forall_forall in Hx. specialize (Hx z Hz).
  apply list_elem_of_In in Hz.
  assert (x ≠ z) by (intros ->; contradiction). lia.
Qed.

(** [sorted(list(s))] is strictly ascending. *)
Lemma sorted_years_ascending s : StronglySorted Z.lt (sorted_years s).
Proof.
  apply strictly_sorted; [|apply NoDup_sorted_years].
  unfold sorted_years. apply StronglySorted_merge_sort; apply _.
Qed.

Lemma elem_of_update_years s l y : y ∈ update_years s l ↔ y ∈ s ∨ y ∈ l.
Proof. unfold update_years. set_solver. Qed.
End SortedYears.

Section MergedYears.
Implicit Types (orgs : list org) (y : Z).

Lemma merged_years_failed orgs :
  foldl (λ acc o,
           all ← acc;
           match years_appeared_key o with
           | Absent => Some all
           | Null => None
           | Val ys => Some (update_years all ys)
           end) None orgs = None.
Proof. induction orgs as [|o orgs IH]; simpl; done. Qed.

Lemma merged_years_from acc orgs s :
  foldl (λ acc o,
           all ← acc;
           match years_appeared_key o with
           | Absent => Some all
           | Null => None
           | Val ys => Some (update_years all ys)
           end) (Some acc) orgs = Some s →
  Forall years_not_null orgs ∧
  ∀ y, y ∈ s ↔ y ∈ acc ∨ ∃ o, o ∈ orgs ∧ y ∈ years_of o.
Proof.
  revert acc. induction orgs as [|o orgs IH]; intros acc; simpl.
  - intros [= <-]. split; [constructor|]. intros y. split; [auto|].
    intros [?|(o & Ho & _)]; [done|]. by apply elem_of_nil in Ho.
  - unfold years_of, years_appeared, years_not_null.
    destruct (years_appeared_key o) as [| |ys] eqn:Hys; simpl.
    + intros [Hall Hiff]%IH. split; [by constructor; [rewrite Hys|]|].
      intros y. rewrite Hiff. split.
      * intros [?|(o' & ? & ?)]; [by left|]. right. exists o'. split; [by right|done].
      * intros [?|(o' & Ho' & Hy)]; [by left|].
        apply elem_of_cons in Ho' as [->|?].
        -- rewrite Hys in Hy. by apply elem_of_nil in Hy.
        -- right. by exists o'.
    + by rewrite merged_years_failed.
    + intros [Hall Hiff]%IH. split; [by constructor; [rewrite Hys|]|].
      intros y. rewrite Hiff, elem_of_update_years. split.
      * intros [[?|?]|(o' & ? & ?)]; [by left| |].
        -- right. exists o. split; [left|]. by rewrite Hys.
        -- right. exists o'. split; [by right|done].
      * intros [?|(o' & Ho' & Hy)]; [by left; left|].
        apply elem_of_cons in Ho' as [->|?].
        -- left. right. by rewrite Hys in Hy.
        -- right. by exists o'.
Qed.

Lemma elem_of_merged_years orgs s y :
  MergeByUrls.merged_years orgs = Some s →
  y ∈ s ↔ ∃ o, o ∈ orgs ∧ y ∈ years_of o.
Proof.
  unfold MergeByUrls.merged_years. intros [_ Hiff]%merged_years_from.
  rewrite Hiff.
  split; [intros [H|H]; [by apply not_elem_of_empty in H|done]|auto].
Qed.

(** The years are collected unless a member holds null. *)
Lemma merged_years_total orgs :
  Forall years_not_null orgs → is_Some (MergeByUrls.merged_years orgs).
Proof.
  unfold MergeByUrls.merged_years. intros Hall. generalize (∅ : gset Z).
  induction Hall as [|o orgs Ho _ IH]; intros acc; simpl; [by eexists|].
  unfold years_not_null in Ho.
  destruct (years_appeared_key o); simpl; [apply IH|done|apply IH].
Qed.

Lemma merged_years_not_null orgs s :
  MergeByUrls.merged_years orgs = Some s → Forall years_not_null orgs.
Proof. unfold MergeByUrls.merged_years. by intros [? _]%merged_years_from. Qed.

Lemma collected_years_from acc orgs y :
  y ∈ foldl (λ all o, match years_appeared o with
                      | Some (z :: zs) => update_years all (z :: zs)
                      | _ => all
                      end) acc orgs
  ↔ y ∈ acc ∨ ∃ o, o ∈ orgs ∧ y ∈ years_of o.
Proof.
  revert acc. induction orgs as [|o orgs IH]; intros acc; simpl.
  - split; [auto|]. intros [?|(o & Ho & _)]; [done|]. by apply elem_of_nil in Ho.
  - rewrite IH. clear IH.
    assert (∀ o', o' ∈ o :: orgs ↔ o' = o ∨ o' ∈ orgs) as Hcons
      by (intros; apply elem_of_cons).
    unfold years_of at 2.
    destruct (years_appeared o) as [[|z zs]|] eqn:Hys; simpl.
    + split.
      * intros [?|(o' & ? & ?)]; [by left|]. right. exists o'. rewrite Hcons. auto.
      * intros [?|(o' & Ho' & Hy)]; [by left|].
        apply Hcons in Ho' as [->|?]; [|right; by exists o'].
        unfold years_of in Hy. rewrite Hys in Hy. by apply elem_of_nil in Hy.
    + rewrite elem_of_update_years. split.
      * intros [[?|?]|(o' & ? & ?)]; [by left| |].
        -- right. exists o. rewrite Hcons. split; [auto|].
           unfold years_of. by rewrite Hys.
        -- right. exists o'. rewrite Hcons. auto.
      * intros [?|(o' & Ho' & Hy)]; [by left; left|].
        apply Hcons in Ho' as [->|?]; [|right; by exists o'].
        left. right. unfold years_of in Hy. by rewrite Hys in Hy.
    + split.
      * intros [?|(o' & ? & ?)]; [by left|]. right. exists o'. rewrite Hcons. auto.
      * intros [?|(o' & Ho' & Hy)]; [by left|].
        apply Hcons in Ho' as [->|?]; [|right; by exists o'].
        unfold years_of in Hy. rewrite Hys in Hy. by apply elem_of_nil in Hy.
Qed.

Lemma elem_of_collected_years orgs y :
  y ∈ AlignWithApi.collected_years orgs ↔ ∃ o, o ∈ orgs ∧ y ∈ years_of o.
Proof.
  unfold AlignWithApi.collected_years. rewrite collected_years_from.
  split; [intros [H|H]; [by apply not_elem_of_empty in H|done]|auto].
Qed.

Lemma best_of_from (acc : option string) names :
  is_Some acc →
  is_Some (foldl (λ acc n,
                    match acc with
                    | None => Some n
                    | Some b => if MergeByUrls.key_lt (MergeByUrls.name_key n)
                                     (MergeByUrls.name_key b)
                                then Some n else Some b
                    end) acc names).
Proof.
  revert acc. induction names as [|n names IH]; simpl; [done|].
  intros acc [b ->]. apply IH. by case_match.
Qed.

Lemma best_of_is_Some n names : is_Some (MergeByUrls.best_of (n :: names)).
Proof. unfold MergeByUrls.best_of. simpl. by apply best_of_from. Qed.

(** What [merge_organizations] returns on a group that is not a
    singleton, when it returns. *)
Lemma merge_organizations_inv o1 o2 orgs m :
  MergeByUrls.merge_organizations (o1 :: o2 :: orgs) = Some m →
  ∃ best_name s,
    MergeByUrls.best_of (name <$> o1 :: o2 :: orgs) = Some best_name ∧
    MergeByUrls.merged_years (o1 :: o2 :: orgs) = Some s ∧
    m = {| oid := oid o1;
           name := best_name;
           website := MergeByUrls.merged_website (o1 :: o2 :: orgs);
           socials_key :=
             Val {| github := MergeByUrls.first_social github (o1 :: o2 :: orgs);
                    twitter := MergeByUrls.first_social twitter (o1 :: o2 :: orgs) |};
           years_appeared_key := Val (sorted_years s);
           years_count := Some (Z.of_nat (size s));
           description_html_key :=
             Val (MergeByUrls.longest description_html (o1 :: o2 :: orgs));
           short_desc_key :=
             Val (MergeByUrls.longest short_desc (o1 :: o2 :: orgs)) |}.
Proof.
  unfold MergeByUrls.merge_organizations. cbn [head mbind option_bind].
  destruct (MergeByUrls.best_of (name <$> o1 :: o2 :: orgs)) as [b|]; [|done].
  cbn [mbind option_bind].
  destruct (MergeByUrls.merged_years (o1 :: o2 :: orgs)) as [s|]; [|done].
  cbn [mbind option_bind]. intros [= <-]. by exists b, s.
Qed.

(** It returns unless a member holds null under ['years_appeared']. *)
Lemma merge_organizations_multi o1 o2 orgs :
  Forall years_not_null (o1 :: o2 :: orgs) →
  ∃ m s, MergeByUrls.merged_years (o1 :: o2 :: orgs) = Some s ∧
         MergeByUrls.merge_organizations (o1 :: o2 :: orgs) = Some m ∧
         years_appeared m = Some (sorted_years s) ∧
         years_count m = Some (Z.of_nat (size s)).
Proof.
  intros [s Hs]%merged_years_total.
  unfold MergeByUrls.merge_organizations. cbn [head mbind option_bind].
  destruct (best_of_is_Some (name o1) (name <$> o2 :: orgs)) as [b Hb].
  change (name <$> o1 :: o2 :: orgs) with (name o1 :: (name <$> o2 :: orgs)).
  rewrite Hb. cbn [mbind option_bind]. rewrite Hs. cbn [mbind option_bind].
  eexists _, s. split; [done|]. split; [done|]. done.
Qed.

(** *** The texts of [merge_orgs_for_api_match] *)

Lemma longer_text_Val cur candidate :
  ∃ d, AlignWithApi.longer_text (Val cur) candidate = Some (Val d) ∧
       (d = cur ∨ candidate = Some d) ∧
       (Py.len cur ≤ Py.len d)%nat ∧
       ∀ c, candidate = Some c → (Py.len c ≤ Py.len d)%nat.
Proof.
  unfold AlignWithApi.longer_text, truthy.
  destruct candidate as [c|]; [|exists cur; split; [done|]; split; [by left|done]].
  destruct (Py.is_empty c) eqn:Hc.
  - exists cur. split; [done|]. split; [by left|]. split; [done|].
    intros ? [= <-]. destruct c; [simpl; lia|done].
  - destruct (Nat.ltb_spec (Py.len cur) (Py.len c)).
    + exists c. split; [done|]. split; [by right|]. split; [lia|]. by intros ? [= <-].
    + exists cur. split; [done|]. split; [by left|]. split; [done|]. by intros ? [= <-].
Qed.

Lemma longer_text_Null candidate :
  AlignWithApi.longer_text Null candidate
  = match truthy candidate with Some _ => None | None => Some Null end.
Proof. unfold AlignWithApi.longer_text. by destruct (truthy candidate). Qed.

(** The fold over the later records, from a state that [get_or] built. *)
Lemma later_fold_spec (later : list org) (desc short : field string)
    (web : option string) :
  desc ≠ Absent → short ≠ Absent →
  (desc = Null → Forall (λ o, truthy (description_html o) = None) later) →
  (short = Null → Forall (λ o, truthy (short_desc o) = None) later) →
  ∃ desc' short',
    foldl (λ acc o, st ← acc; AlignWithApi.later_step st o)
          (Some (desc, short, web)) later
    = Some (desc', short', foldl AlignWithApi.https_website web later) ∧
    (desc = Null → desc' = Null) ∧
    (∀ cur, desc = Val cur →
       ∃ d, desc' = Val d ∧
            (d = cur ∨ ∃ o, o ∈ later ∧ description_html o = Some d) ∧
            (Py.len cur ≤ Py.len d)%nat ∧
            ∀ o c, o ∈ later → description_html o = Some c → (Py.len c ≤ Py.len d)%nat).
Proof.
  revert desc short web. induction later as [|o later IH];
    intros desc short web Hd Hs Hdn Hsn; cbn [foldl].
  - exists desc, short. split; [done|]. split; [done|].
    intros cur ->. exists cur. split; [done|]. split; [by left|]. split; [done|].
    by intros o c ?%elem_of_nil.
  - unfold AlignWithApi.later_step at 2. cbn [mbind option_bind fst snd].
    assert (∃ desc1, AlignWithApi.longer_text desc (description_html o) = Some desc1 ∧
              desc1 ≠ Absent ∧
              (desc = Null → desc1 = Null) ∧
              (desc1 = Null → desc = Null) ∧
              ∀ cur, desc = Val cur →
                ∃ d, desc1 = Val d ∧ (d = cur ∨ description_html o = Some d) ∧
                     (Py.len cur ≤ Py.len d)%nat ∧
                     ∀ c, description_html o = Some c → (Py.len c ≤ Py.len d)%nat)
      as (desc1 & -> & Hd1 & Hdn1 & Hdn1' & Hdv1).
    { destruct desc as [| |cur]; [done| |].
      - rewrite longer_text_Null.
        specialize (Hdn eq_refl). apply Forall_cons_1 in Hdn as [-> _].
        exists Null. by repeat split.
      - destruct (longer_text_Val cur (description_html o)) as (d & -> & ? & ? & ?).
        exists (Val d). split; [done|]. split; [done|]. split; [done|].
        split; [done|]. intros ? [= <-]. by exists d. }
    assert (∃ short1, AlignWithApi.longer_text short (short_desc o) = Some short1 ∧
              short1 ≠ Absent ∧ (short1 = Null → short = Null))
      as (short1 & -> & Hs1 & Hsn1).
    { destruct short as [| |cur]; [done| |].
      - rewrite longer_text_Null.
        specialize (Hsn eq_refl). apply Forall_cons_1 in Hsn as [-> _].
        by exists Null.
      - destruct (longer_text_Val cur (short_desc o)) as (d & -> & _).
        by exists (Val d). }
    cbn [mbind option_bind].
    destruct (IH desc1 short1 (AlignWithApi.https_website web o) Hd1 Hs1)
      as (desc' & short' & Hfold & Hnull & Hval).
    { intros Hn. specialize (Hdn (Hdn1' Hn)). by apply Forall_cons_1 in Hdn as [_ ?]. }
    { intros Hn. specialize (Hsn (Hsn1 Hn)). by apply Forall_cons_1 in Hsn as [_ ?]. }
    exists desc', short'. split; [done|]. split; [by auto|].
    intros cur Hcur. destruct (Hdv1 cur Hcur) as (d1 & Hd1v & Hfrom1 & Hlen1 & Hall1).
    destruct (Hval d1 Hd1v) as (d & -> & Hfrom & Hlen & Hall).
    exists d. split; [done|]. split; [|split; [lia|]].
    + destruct Hfrom as [->|(o' & ? & ?)].
      * destruct Hfrom1 as [->|?]; [by left|]. right. exists o. split; [left|done].
      * right. exists o'. split; [by right|done].
    + intros o' c [->|Ho']%elem_of_cons Hc; [|by eapply Hall].
      specialize (Hall1 c Hc). lia.
Qed.

(** What [merge_orgs_for_api_match] returns on a group it can merge. *)
Lemma merge_for_api_spec api first_org later :
  mergeable_for_api (first_org :: later) →
  ∃ desc short,
    AlignWithApi.merge_orgs_for_api_match api (first_org :: later)
    = Some {| oid := oid first_org;
              name := api_name api;
              website := foldl AlignWithApi.https_website (website first_org) later;
              socials_key := get_or AlignWithApi.no_socials (socials_key first_org);
              years_appeared_key :=
                Val (sorted_years (AlignWithApi.collected_years (first_org :: later)));
              years_count :=
                Some (Z.of_nat (size (AlignWithApi.collected_years
                                        (first_org :: later))));
              description_html_key := desc;
              short_desc_key := short |} ∧
    (description_html_key first_org = Null → desc = Null) ∧
    (∀ cur, get_or EmptyString (description_html_key first_org) = Val cur →
       ∃ d, desc = Val d ∧
            (d = cur ∨ ∃ o, o ∈ later ∧ description_html o = Some d) ∧
            (Py.len cur ≤ Py.len d)%nat ∧
            ∀ o c, o ∈ later → description_html o = Some c → (Py.len c ≤ Py.len d)%nat).
Proof.
  intros [Hdesc Hshort].
  unfold AlignWithApi.merge_orgs_for_api_match. cbn [head tail mbind option_bind].
  destruct (later_fold_spec later
              (get_or EmptyString (description_html_key first_org))
              (get_or EmptyString (short_desc_key first_org))
              (website first_org))
    as (desc & short & -> & Hnull & Hval).
  - by destruct (description_html_key first_org).
  - by destruct (short_desc_key first_org).
  - intros Hn. apply Hdesc. by destruct (description_html_key first_org).
  - intros Hn. apply Hshort. by destruct (short_desc_key first_org).
  - cbn [mbind option_bind fst snd]. exists desc, short. split; [done|].
    split; [|done]. intros Hn. apply Hnull. by rewrite Hn.
Qed.

Lemma later_fold_failed (later : list org) :
  foldl (λ acc o, st ← acc; AlignWithApi.later_step st o) None later = None.
Proof. induction later as [|o later IH]; simpl; done. Qed.

(** The fold returns only where no text is compared with null. *)
Lemma later_fold_inv (later : list org) (desc short : field string)
    (web : option string) r :
  foldl (λ acc o, st ← acc; AlignWithApi.later_step st o)
        (Some (desc, short, web)) later = Some r →
  (desc = Null → Forall (λ o, truthy (description_html o) = None) later) ∧
  (short = Null → Forall (λ o, truthy (short_desc o) = None) later).
Proof.
  revert desc short web. induction later as [|o later IH];
    intros desc short web; cbn [foldl].
  - intros _. split; intros _; constructor.
  - unfold AlignWithApi.later_step at 2. cbn [mbind option_bind fst snd].
    destruct (AlignWithApi.longer_text desc (description_html o)) as [desc1|] eqn:Hd;
      cbn [mbind option_bind]; [|by rewrite later_fold_failed].
    destruct (AlignWithApi.longer_text short (short_desc o)) as [short1|] eqn:Hs;
      cbn [mbind option_bind]; [|by rewrite later_fold_failed].
    intros [IHd IHs]%IH. split.
    + intros ->. rewrite longer_text_Null in Hd.
      destruct (truthy (description_html o)) eqn:Ht; [done|].
      injection Hd as <-. constructor; [done|by apply IHd].
    + intros ->. rewrite longer_text_Null in Hs.
      destruct (truthy (short_desc o)) eqn:Ht; [done|].
      injection Hs as <-. constructor; [done|by apply IHs].
Qed.

(** [merge_orgs_for_api_match] returns exactly on the groups whose texts
    it can merge. *)
Lemma merge_for_api_mergeable api group m :
  AlignWithApi.merge_orgs_for_api_match api group = Some m → mergeable_for_api group.
Proof.
  unfold AlignWithApi.merge_orgs_for_api_match.
  destruct group as [|first_org later]; [done|]. cbn [head tail mbind option_bind].
  destruct (foldl _ _ later) as [[[desc short] web]|] eqn:Hfold; [|done].
  intros _. apply later_fold_inv in Hfold as [Hd Hs]. split.
  - intros Hn. apply Hd. by rewrite Hn.
  - intros Hn. apply Hs. by rewrite Hn.
Qed.

Lemma merge_for_api_years api group m :
  AlignWithApi.merge_orgs_for_api_match api group = Some m →
  name m = api_name api ∧
  years_appeared m = Some (sorted_years (AlignWithApi.collected_years group)) ∧
  years_count m = Some (Z.of_nat (size (AlignWithApi.collected_years group))).
Proof.
  intros Hm. pose proof (merge_for_api_mergeable _ _ _ Hm) as Hok.
  destruct group as [|first_org later]; [done|].
  destruct (merge_for_api_spec api first_org later Hok) as (desc & short & Heq & _).
  rewrite Heq in Hm. by injection Hm as <-.
Qed.

Lemma merge_by_urls_years group m :
  MergeByUrls.merge_organizations group = Some m →
  ∀ y, y ∈ years_of m ↔ ∃ o, o ∈ group ∧ y ∈ years_of o.
Proof.
  destruct group as [|o1 [|o2 orgs]]; [done| |].
  - intros [= <-] y. split.
    + intros Hy. exists o1. split; [left|done].
    + intros (o & Ho & Hy). by apply list_elem_of_singleton in Ho as ->.
  - intros (b & s & _ & Hs & ->)%merge_organizations_inv y.
    unfold years_of at 1. simpl.
    by rewrite elem_of_sorted_years, (elem_of_merged_years _ _ _ Hs).
Qed.
End MergedYears.

(** C1: for every group of records, the years of a record that a merger
    returns are exactly the union of the years of the group's members:
    every year of every member is kept.  [merge_by_urls.merge_organizations]
    returns a record exactly on the groups of one record and on the
    groups of several none of which holds null under ['years_appeared'];
    [merge_orgs_for_api_match] exactly on the groups whose texts it can
    merge. *)
Theorem merge_preserves_years (group : list org) (api : api_org) :
  (∀ m, MergeByUrls.merge_organizations group = Some m →
        ∀ y, y ∈ years_of m ↔ ∃ o, o ∈ group ∧ y ∈ years_of o) ∧
  (∀ m, AlignWithApi.merge_orgs_for_api_match api group = Some m →
        ∀ y, y ∈ years_of m ↔ ∃ o, o ∈ group ∧ y ∈ years_of o) ∧
  (is_Some (MergeByUrls.merge_organizations group) ↔
   group ≠ [] ∧ (length group = 1%nat ∨ Forall years_not_null group)) ∧
  (is_Some (AlignWithApi.merge_orgs_for_api_match api group) ↔
   mergeable_for_api group).
Proof.
  split; [apply merge_by_urls_years|]. split; [|split].
  - intros m (_ & Hys & _)%merge_for_api_years y.
    unfold years_of at 1. rewrite Hys. simpl.
    by rewrite elem_of_sorted_years, elem_of_collected_years.
  - destruct group as [|o1 [|o2 orgs]].
    + split; [by intros [m Hm]|by intros [? _]].
    + split; [intros _; split; [done|by left]|by eexists].
    + split.
      * intros [m (b & s & _ & Hs & _)%merge_organizations_inv].
        split; [done|]. right. by eapply merged_years_not_null.
      * intros [_ [Hlen|Hyears]]; [done|].
        destruct (merge_organizations_multi o1 o2 orgs Hyears)
          as (m & _ & _ & -> & _).
        by eexists.
  - split.
    + intros [m Hm]. by eapply merge_for_api_mergeable.
    + destruct group as [|o1 orgs]; [done|]. intros Htexts.
      destruct (merge_for_api_spec api o1 orgs Htexts) as (desc & short & -> & _).
      by eexists.
Qed.

Lemma merge_preserves_years_witness :
  years_of <$> MergeByUrls.merge_organizations example_group
    = Some [2016; 2017; 2018] ∧
  years_of <$> AlignWithApi.merge_orgs_for_api_match example_api example_group
    = Some [2016; 2017; 2018] ∧
  (∀ y, y ∈ [2016; 2017; 2018] ↔ ∃ o, o ∈ example_group ∧ y ∈ years_of o) ∧
  is_Some (MergeByUrls.merge_organizations example_group) ∧
  is_Some (AlignWithApi.merge_orgs_for_api_match example_api example_group).
Proof.
  split; [by vm_compute|]. split; [by vm_compute|].
  destruct (merge_preserves_years example_group example_api)
    as (Hurls & _ & Hsome & Hapi).
  split; [|split].
  - exact (Hurls _ eq_refl).
  - apply Hsome. split; [discriminate|]. right. repeat constructor; discriminate.
  - apply Hapi. split; discriminate.
Defined.

(** C10: every record that a merge function of the repository returns
    on a group of two or more records has a [years_count] that is the
    length of its [years_appeared], and a [years_appeared] that is
    strictly ascending (sorted, without repetition).  On such a group the
    two mergers by URL return a record exactly when no member holds null
    under ['years_appeared'], the merger by domain always, and
    [merge_orgs_for_api_match] exactly when it can merge the texts. *)
Theorem merged_years_count_sorted (group : list org) (api : api_org)
    (canonical_name : string) :
  (2 ≤ length group)%nat →
  (∀ m, MergeByUrls.merge_organizations group = Some m ∨
        MergeWithApiNames.merge_organizations group canonical_name = Some m ∨
        AlignWithApi.merge_orgs_for_api_match api group = Some m →
        ∃ ys, years_appeared m = Some ys ∧
              years_count m = Some (Z.of_nat (length ys)) ∧
              StronglySorted Z.lt ys ∧ NoDup ys) ∧
  (∃ m, MergeByDomain.merge_group group = Some m ∧
        MergeByDomain.mg_years_count m
          = Z.of_nat (length (MergeByDomain.mg_years_appeared m)) ∧
        StronglySorted Z.lt (MergeByDomain.mg_years_appeared m) ∧
        NoDup (MergeByDomain.mg_years_appeared m)) ∧
  (is_Some (MergeByUrls.merge_organizations group) ↔ Forall years_not_null group) ∧
  (is_Some (MergeWithApiNames.merge_organizations group canonical_name) ↔
   Forall years_not_null group) ∧
  (is_Some (AlignWithApi.merge_orgs_for_api_match api group) ↔
   mergeable_for_api group).
Proof.
  intros Hlen.
  destruct group as [|o1 [|o2 orgs]]; simpl in Hlen; [lia..|].
  split; [|split; [|split; [|split]]].
  - intros m [Hm|[Hm|Hm]].
    + apply merge_organizations_inv in Hm as (b & s & _ & _ & ->).
      exists (sorted_years s). rewrite length_sorted_years.
      split; [done|]. split; [done|].
      split; [apply sorted_years_ascending|apply NoDup_sorted_years].
    + unfold MergeWithApiNames.merge_organizations in Hm.
      cbn [head mbind option_bind] in Hm.
      destruct (MergeByUrls.merged_years (o1 :: o2 :: orgs)) as [s|]; [|done].
      cbn [mbind option_bind] in Hm. injection Hm as <-.
      exists (sorted_years s). rewrite length_sorted_years.
      split; [done|]. split; [done|].
      split; [apply sorted_years_ascending|apply NoDup_sorted_years].
    + apply merge_for_api_years in Hm as (_ & Hys & Hcount).
      eexists. rewrite length_sorted_years.
      split; [done|]. split; [done|].
      split; [apply sorted_years_ascending|apply NoDup_sorted_years].
  - eexists. simpl.
    eauto using sorted_years_ascending, NoDup_sorted_years.
  - split.
    + intros [m (b & s & _ & Hs & _)%merge_organizations_inv].
      by eapply merged_years_not_null.
    + intros Hyears.
      destruct (merge_organizations_multi o1 o2 orgs Hyears) as (m & _ & _ & -> & _).
      by eexists.
  - unfold MergeWithApiNames.merge_organizations. cbn [head mbind option_bind].
    split.
    + destruct (MergeByUrls.merged_years (o1 :: o2 :: orgs)) as [s|] eqn:Hs;
        [|by intros [m Hm]].
      intros _. by eapply merged_years_not_null.
    + intros [s ->]%merged_years_total. by eexists.
  - split.
    + intros [m Hm]. by eapply merge_for_api_mergeable.
    + intros Htexts.
      destruct (merge_for_api_spec api o1 (o2 :: orgs) Htexts)
        as (desc & short & -> & _).
      by eexists.
Qed.

Lemma merged_years_count_sorted_witness :
  (2 ≤ length example_group)%nat ∧
  years_count <$> MergeByUrls.merge_organizations example_group = Some (Some 3) ∧
  (∃ m ys, MergeByUrls.merge_organizations example_group = Some m ∧
           years_appeared m = Some ys ∧
           years_count m = Some (Z.of_nat (length ys)) ∧
           StronglySorted Z.lt ys ∧ NoDup ys) ∧
  is_Some (MergeWithApiNames.merge_organizations example_group "Kodi") ∧
  is_Some (AlignWithApi.merge_orgs_for_api_match example_api example_group).
Proof.
  split; [simpl; lia|]. split; [by vm_compute|].
  destruct (merged_years_count_sorted example_group example_api "Kodi")
    as (Hmerged & _ & Hurls & Hnames & Hapi); [simpl; lia|].
  assert (Forall years_not_null example_group) as Hyears
    by (repeat constructor; discriminate).
  destruct (proj2 Hurls Hyears) as [m Hm].
  split; [|split; [exact (proj2 Hnames Hyears)|apply Hapi; split; discriminate]].
  exists m. destruct (Hmerged m (or_introl Hm)) as (ys & ? & ? & ? & ?).
  by exists ys.
Defined.

(** ** Grouping engine: union-find *)

Section UnionFind.
Local Open Scope nat_scope.
Implicit Types (parent : list nat) (x y r p d fuel : nat).

Lemma path_lt parent x r d : path parent x r d → x < length parent.
Proof. destruct 1; by eapply lookup_lt_Some. Qed.

Lemma path_end parent x r d : path parent x r d → parent !! r = Some r.
Proof. induction 1; auto. Qed.

Lemma path_det parent x r d r' d' :
  path parent x r d → path parent x r' d' → r = r' ∧ d = d'.
Proof.
  intros H. revert r' d'. induction H as [x Hx|x p r d Hx Hp _ IH];
    intros r' d' H'; inversion H'; subst; simplify_eq; try done.
  destruct (IH _ _ ltac:(eassumption)) as [-> ->]. done.
Qed.

Lemma root_of_det parent x r r' :
  root_of parent x r → root_of parent x r' → r = r'.
Proof. intros [d H] [d' H']. by destruct (path_det _ _ _ _ _ _ H H'). Qed.

(** The indices met on a path are pairwise distinct. *)
Lemma path_nodes parent x r d :
  path parent x r d →
  ∃ l : list nat, length l = S d ∧ NoDup l ∧
    ∀ y, y ∈ l → ∃ d', d' ≤ d ∧ path parent y r d'.
Proof.
  induction 1 as [x Hx|x p r d Hx Hp Hpath (l & Hlen & Hnd & Hl)].
  - exists [x]. split; [done|]. split; [apply NoDup_singleton|].
    intros y ->%list_elem_of_singleton. exists 0. split; [done|by constructor].
  - exists (x :: l). split; [simpl; lia|]. split.
    + apply NoDup_cons_2; [|done]. intros Hin.
      destruct (Hl _ Hin) as (d' & Hd' & Hx').
      assert (path parent x r (S d)) as Hx'' by (by econstructor).
      destruct (path_det _ _ _ _ _ _ Hx' Hx''). lia.
    + intros y [->|Hy]%elem_of_cons.
      * exists (S d). split; [done|by econstructor].
      * destruct (Hl _ Hy) as (d' & ? & ?). exists d'. split; [lia|done].
Qed.

(** A path is shorter than the array. *)
Lemma path_bound parent x r d : path parent x r d → d < length parent.
Proof.
  intros (l & Hlen & Hnd & Hl)%path_nodes.
  assert (l ⊆+ seq 0 (length parent)) as Hsub.
  { apply NoDup_submseteq; [done|]. intros y (d' & _ & Hy)%Hl.
    apply elem_of_seq. split; [lia|]. simpl. by eapply path_lt. }
  apply submseteq_length in Hsub. rewrite length_seq in Hsub. lia.
Qed.

(** Path compression keeps every representative. *)
Lemma compress_root_of parent x r y r' :
  root_of parent x r → root_of parent y r' → root_of (<[x := r]> parent) y r'.
Proof.
  intros Hx [d' Hy].
  assert (x < length parent) as Hlt by (destruct Hx; by eapply path_lt).
  induction Hy as [y Hy|y p r' d' Hy Hp Hpath IH].
  - exists 0. constructor. destruct (decide (x = y)) as [->|Hne].
    + assert (r = y) as -> by (eapply root_of_det; [exact Hx|exists 0; by constructor]).
      by apply list_lookup_insert_eq.
    + by rewrite list_lookup_insert_ne.
  - destruct (decide (x = y)) as [->|Hne].
    + assert (r = r') as <-.
      { eapply root_of_det; [exact Hx|]. exists (S d'). by econstructor. }
      destruct Hx as [d Hx]. pose proof (path_end _ _ _ _ Hx) as Hr.
      assert (r ≠ y) as Hry by (intros ->; simplify_eq).
      exists 1. econstructor; [by apply list_lookup_insert_eq|done|].
      constructor. by rewrite list_lookup_insert_ne.
    + destruct IH as [d'' IH]. exists (S d'').
      eapply path_step; [by rewrite list_lookup_insert_ne|done|done].
Qed.

(** [find] returns the representative and keeps all representatives,
    as soon as the fuel exceeds the length of the path. *)
Lemma find_spec fuel parent x r d :
  path parent x r d → d < fuel →
  ∃ parent', MergeByUrls.find fuel parent x = Some (parent', r) ∧
    length parent' = length parent ∧
    ∀ y r', root_of parent y r' → root_of parent' y r'.
Proof.
  intros H. revert fuel. induction H as [x Hx|x p r d Hx Hp Hpath IH];
    intros fuel Hfuel; (destruct fuel as [|fuel]; [lia|]); simpl; rewrite Hx; simpl.
  - rewrite decide_False by (intros ?; done). eauto.
  - rewrite decide_True by done.
    destruct (IH fuel ltac:(lia)) as (parent1 & -> & Hlen & Hroots). simpl.
    assert (x < length parent1) as Hlt.
    { rewrite Hlen. by eapply lookup_lt_Some. }
    rewrite list_lookup_insert_eq by done. simpl.
    eexists. split; [done|]. split; [by rewrite length_insert|].
    intros y r' Hy. apply compress_root_of; [|by apply Hroots].
    apply Hroots. exists (S d). by econstructor.
Qed.

Lemma find_forest fuel parent x :
  forest parent → x < length parent → length parent ≤ fuel →
  ∃ parent' r, MergeByUrls.find fuel parent x = Some (parent', r) ∧
    length parent' = length parent ∧ forest parent' ∧
    parent' !! r = Some r ∧
    ∀ y, parent !! y = Some y → parent' !! y = Some y.
Proof.
  intros Hf Hx Hfuel. destruct (Hf x Hx) as (r & d & Hpath).
  pose proof (path_bound _ _ _ _ Hpath).
  destruct (find_spec fuel _ _ _ _ Hpath ltac:(lia)) as (parent' & Hfind & Hlen & Hroots).
  exists parent', r. split; [done|]. split; [done|].
  assert (∀ y, parent !! y = Some y → parent' !! y = Some y) as Hkeep.
  { intros y Hy. destruct (Hroots y y) as [d' Hd']; [exists 0; by constructor|].
    by eapply path_end. }
  split; [|split; [|done]].
  - intros y Hy. rewrite Hlen in Hy. destruct (Hf y Hy) as (r' & Hr').
    exists r'. by apply Hroots.
  - apply Hkeep. by eapply path_end.
Qed.

(** Attaching one representative to another keeps the forest. *)
Lemma link_forest parent px py :
  forest parent → parent !! px = Some px → parent !! py = Some py → px ≠ py →
  forest (<[px := py]> parent).
Proof.
  intros Hf Hpx Hpy Hne y Hy. rewrite length_insert in Hy.
  pose proof (lookup_lt_Some _ _ _ Hpx) as Hlt.
  destruct (Hf y Hy) as (r & d & Hpath).
  induction Hpath as [y Hyy|y p r d Hyp Hp Hpath IH].
  - destruct (decide (y = px)) as [->|Hne'].
    + exists py, 1. econstructor; [by apply list_lookup_insert_eq|done|].
      constructor. by rewrite list_lookup_insert_ne.
    + exists y, 0. constructor. by rewrite list_lookup_insert_ne.
  - assert (y ≠ px) as Hne' by (intros ->; simplify_eq).
    destruct IH as (r' & d' & IH); [by eapply path_lt|].
    exists r', (S d').
    eapply path_step; [by rewrite list_lookup_insert_ne|done|done].
Qed.

Lemma union_forest fuel parent x y :
  forest parent → x < length parent → y < length parent →
  length parent ≤ fuel →
  ∃ parent', MergeByUrls.union fuel parent x y = Some parent' ∧
    length parent' = length parent ∧ forest parent'.
Proof.
  intros Hf Hx Hy Hfuel. unfold MergeByUrls.union.
  destruct (find_forest fuel parent x Hf Hx Hfuel)
    as (parent1 & px & -> & Hlen1 & Hf1 & Hpx & _). simpl.
  destruct (find_forest fuel parent1 y Hf1 ltac:(lia) ltac:(lia))
    as (parent2 & py & -> & Hlen2 & Hf2 & Hpy & Hkeep). simpl.
  apply Hkeep in Hpx.
  destruct (decide (px ≠ py)) as [Hne|_].
  - rewrite Hpx. simpl. eexists. split; [done|].
    split; [rewrite length_insert; lia|]. by apply link_forest.
  - exists parent2. split; [done|]. split; [lia|done].
Qed.

Lemma union_all_forest fuel parent first_idx rest :
  forest parent → first_idx < length parent →
  Forall (λ i, i < length parent) rest → length parent ≤ fuel →
  ∃ parent', MergeByUrls.union_all fuel parent first_idx rest = Some parent' ∧
    length parent' = length parent ∧ forest parent'.
Proof.
  intros Hf Hfirst Hrest Hfuel. revert parent Hf Hfirst Hrest Hfuel.
  induction rest as [|i rest IH]; intros parent Hf Hfirst Hrest Hfuel; simpl.
  - eauto.
  - apply Forall_cons_1 in Hrest as [Hi Hrest].
    destruct (union_forest fuel parent first_idx i) as (parent1 & -> & Hlen & Hf1);
      [done..|]. simpl.
    destruct (IH parent1) as (parent2 & -> & Hlen2 & Hf2); try done; try lia.
    + by rewrite Hlen.
    + exists parent2. split; [done|]. split; [lia|done].
Qed.

Lemma union_shared_forest {K} fuel parent (dict : list (K * list nat)) :
  forest parent →
  Forall (λ kv, Forall (λ i, i < length parent) kv.2) dict →
  length parent ≤ fuel →
  ∃ parent', MergeByUrls.union_shared fuel parent dict = Some parent' ∧
    length parent' = length parent ∧ forest parent'.
Proof.
  intros Hf Hd Hfuel. revert parent Hf Hd Hfuel.
  induction dict as [|[k idxs] dict IH]; intros parent Hf Hd Hfuel; simpl.
  - eauto.
  - apply Forall_cons_1 in Hd as [Hidxs Hd]. simpl in Hidxs.
    destruct idxs as [|first_idx [|i rest]]; [by apply IH..|].
    apply Forall_cons_1 in Hidxs as [Hfirst Hrest].
    destruct (union_all_forest fuel parent first_idx (i :: rest))
      as (parent1 & -> & Hlen & Hf1); [done..|]. simpl.
    destruct (IH parent1) as (parent2 & -> & Hlen2 & Hf2); try done; try lia.
    + by rewrite Hlen.
    + exists parent2. split; [done|]. split; [lia|done].
Qed.

Lemma forest_initial n : forest (seq 0 n).
Proof.
  intros x Hx. rewrite length_seq in Hx. exists x, 0. constructor.
  by rewrite lookup_seq_lt.
Qed.
End UnionFind.

Section Collect.
Local Open Scope nat_scope.
Context {K : Type} `{EqDecision K} {V : Type}.
Implicit Types (d : list (K * list V)) (k : K) (v : V).

Lemma dict_append_concat k v d :
  concat (MergeByUrls.dict_append k v d).*2 ≡ₚ concat d.*2 ++ [v].
Proof.
  induction d as [|[k' vs] d IH]; simpl; [done|].
  case_decide; simpl.
  - rewrite <-!(assoc_L (++)). f_equiv. apply Permutation_app_comm.
  - by rewrite IH, (assoc_L (++)).
Qed.

Lemma dict_append_keys_eq k v d :
  (MergeByUrls.dict_append k v d).*1 = if decide (k ∈ d.*1) then d.*1 else d.*1 ++ [k].
Proof.
  induction d as [|[k' vs] d IH].
  - destruct (decide (k ∈ ([] : list (K * list V)).*1)) as [Hin|_]; [|done].
    by apply elem_of_nil in Hin.
  - cbn [MergeByUrls.dict_append]. destruct (decide (k = k')) as [->|Hne].
    + destruct (decide (k' ∈ ((k', vs) :: d).*1)) as [_|Hnin]; [done|].
      destruct Hnin. left.
    + rewrite fmap_cons, IH. cbn [fst].
      destruct (decide (k ∈ d.*1)) as [Hin|Hnin];
        destruct (decide (k ∈ ((k', vs) :: d).*1)) as [Hin'|Hnin']; try done.
      * destruct Hnin'. by right.
      * apply elem_of_cons in Hin' as [?|?]; done.
Qed.

Lemma dict_append_NoDup k v d :
  NoDup d.*1 → NoDup (MergeByUrls.dict_append k v d).*1.
Proof.
  intros Hnd. rewrite dict_append_keys_eq. case_decide; [done|].
  apply list.NoDup_app. split; [done|]. split; [|apply NoDup_singleton].
  intros x Hx ->%list_elem_of_singleton. done.
Qed.

Lemma dict_append_nonempty k v d :
  Forall (λ g, g.2 ≠ []) d → Forall (λ g, g.2 ≠ []) (MergeByUrls.dict_append k v d).
Proof.
  induction 1 as [|[k' vs] d Hvs Hd IH]; simpl.
  - by constructor.
  - case_decide; constructor; simpl; try done.
    by destruct vs.
Qed.

Lemma dict_append_bounded (P : V → Prop) k v d :
  P v → Forall (λ g, Forall P g.2) d →
  Forall (λ g, Forall P g.2) (MergeByUrls.dict_append k v d).
Proof.
  intros Hv. induction 1 as [|[k' vs] d Hvs Hd IH]; simpl.
  - repeat constructor. done.
  - case_decide; constructor; simpl; try done.
    apply Forall_app. split; [done|]. by constructor.
Qed.
End Collect.

Section Grouping.
Local Open Scope nat_scope.

Lemma collect_spec fuel parent indices groups :
  forest parent → Forall (λ i, i < length parent) indices →
  length parent ≤ fuel →
  ∃ result, MergeByUrls.collect fuel parent indices groups = Some result ∧
    concat result.*2 ≡ₚ concat groups.*2 ++ indices ∧
    (NoDup groups.*1 → NoDup result.*1) ∧
    (Forall (λ g, g.2 ≠ []) groups → Forall (λ g, g.2 ≠ []) result).
Proof.
  intros Hf Hidx Hfuel. revert parent groups Hf Hidx Hfuel.
  induction indices as [|i indices IH]; intros parent groups Hf Hidx Hfuel; simpl.
  - exists groups. by rewrite app_nil_r.
  - apply Forall_cons_1 in Hidx as [Hi Hidx].
    destruct (find_forest fuel parent i Hf Hi Hfuel)
      as (parent' & root & -> & Hlen & Hf' & _). simpl.
    destruct (IH parent' (MergeByUrls.dict_append root i groups))
      as (result & -> & Hperm & Hnd & Hne); try done; try lia.
    + by rewrite Hlen.
    + exists result. split; [done|]. split; [|split].
      * rewrite Hperm, dict_append_concat. by rewrite <-(assoc_L (++)).
      * intros ?. by apply Hnd, dict_append_NoDup.
      * intros ?. by apply Hne, dict_append_nonempty.
Qed.

(** The grouping is a partition of the indices, whatever the key
    dictionary and the order of its entries. *)
Lemma group_indices_partition {K} n (dict : list (K * list nat)) :
  Forall (λ kv, Forall (λ i, i < n) kv.2) dict →
  ∃ groups, MergeByUrls.group_indices n dict = Some groups ∧
    concat groups.*2 ≡ₚ seq 0 n ∧ NoDup groups.*1 ∧
    Forall (λ g, g.2 ≠ []) groups.
Proof.
  intros Hd. unfold MergeByUrls.group_indices.
  destruct (union_shared_forest n (seq 0 n) dict) as (parent & -> & Hlen & Hf).
  - apply forest_initial.
  - by rewrite length_seq.
  - by rewrite length_seq.
  - simpl. rewrite length_seq in Hlen.
    destruct (collect_spec n parent (seq 0 n) []) as (groups & -> & Hperm & Hnd & Hne).
    + done.
    + rewrite Hlen. apply list.Forall_forall. intros i Hi%elem_of_seq. lia.
    + lia.
    + exists groups. split; [done|]. split; [done|].
      split; [apply Hnd; constructor|apply Hne; constructor].
Qed.

Lemma index_urls_bounded host_ok n orgs i d :
  i + length orgs ≤ n →
  Forall (λ kv : string * list nat, Forall (λ j, j < n) kv.2) d →
  Forall (λ kv, Forall (λ j, j < n) kv.2) (MergeByUrls.index_urls host_ok i orgs d).
Proof.
  revert i d. induction orgs as [|o orgs IH]; simpl; intros i d Hi Hd; [done|].
  apply IH; [lia|].
  generalize (MergeByUrls.extract_key_urls host_ok o). intros ks.
  revert d Hd. induction ks as [|x ks IHks]; simpl; intros d Hd; [done|].
  apply IHks. apply dict_append_bounded; [lia|done].
Qed.
End Grouping.

(** C2: the groups that [main] of merge_by_urls.py reads off the
    union-find array form a partition of the record indices: their
    concatenation is a permutation of 0..n-1 (every index in exactly one
    group, exactly once), the groups have distinct representatives and
    none is empty. *)
Theorem groups_partition (host_ok : string → bool) (orgs : list org) :
  ∃ groups, MergeByUrls.groups_of host_ok orgs = Some groups ∧
    concat groups.*2 ≡ₚ seq 0 (length orgs) ∧
    NoDup (concat groups.*2) ∧
    NoDup groups.*1 ∧
    Forall (λ g, g.2 ≠ []) groups.
Proof.
  destruct (group_indices_partition (length orgs)
              (MergeByUrls.url_to_orgs host_ok orgs))
    as (groups & Hg & Hperm & Hnd & Hne).
  { apply index_urls_bounded; [simpl; lia|constructor]. }
  exists groups. split; [done|]. split; [done|]. split; [|done].
  rewrite Hperm. apply NoDup_seq.
Qed.

(** Without a key there is nothing to union. *)

Section Singletons.
Variable host_ok : string → bool.

(** A record whose only URL is a website on Google Groups or Google Plus
    has no key. *)
Lemma google_host_no_key o w parsed :
  truthy (website o) = Some w → no_social_urls o →
  parsed_input host_ok w = Some parsed →
  domain_of parsed ∈ ["groups.google.com"; "plus.google.com"] →
  MergeByUrls.extract_key_urls host_ok o = [].
Proof.
  intros Hw Hs Hparse Hd.
  unfold MergeByUrls.extract_key_urls, MergeByUrls.website_key.
  rewrite Hw, normalize_url_unfold, Hparse.
  assert (match socials o with
          | Some s => MergeByUrls.social_key host_ok "github" (github s)
                      ++ MergeByUrls.social_key host_ok "twitter" (twitter s)
          | None => []
          end = []) as ->.
  { unfold no_social_urls in Hs. destruct (socials o) as [s|]; [|done].
    destruct Hs as [Hg Ht]. unfold MergeByUrls.social_key. by rewrite Hg, Ht. }
  simpl. apply elem_of_cons in Hd as [->|Hd]; [done|].
  by apply list_elem_of_singleton in Hd as ->.
Qed.
End Singletons.

(** ** The matcher always answers *)

Section MatcherTotal.
Local Open Scope nat_scope.
Variables a b : list ascii.
Implicit Types (j2len : gmap nat nat) (best : Difflib.block).

Lemma prev_len_bound j2len j n :
  (∀ j' v, j2len !! j' = Some v → v ≤ n) → Difflib.prev_len j2len j ≤ n.
Proof.
  intros H. destruct j as [|j]; simpl; [lia|].
  destruct (j2len !! j) as [v|] eqn:Hv; simpl; [eauto|lia].
Qed.

Lemma scan_row_bounds alo blo bhi i j2len best :
  alo ≤ i → scanned alo i (j2len, best) →
  scanned alo (S i) (Difflib.scan_row a b blo bhi i j2len best).
Proof.
  intros Hi (Hlen & Hlo & Hhi). simpl in *. unfold Difflib.scan_row.
  assert (scanned alo (S i) (∅, best)) as Hinit.
  { repeat split; simpl; [|lia..]. intros j v Hv. by rewrite lookup_empty in Hv. }
  destruct (a !! i) as [c|]; [|done].
  revert Hinit. generalize (∅ : gmap nat nat, best). generalize (Difflib.b2j b c).
  intros l. induction l as [|j l IH]; intros st Hst; simpl; [done|].
  apply IH. destruct ((j <? blo) || (bhi <=? j)); [done|].
  destruct Hst as (Hlen' & Hlo' & Hhi').
  pose proof (prev_len_bound j2len j (i - alo) Hlen) as Hprev.
  destruct (st.2.2 <? Difflib.prev_len j2len j + 1); repeat split; simpl; try lia.
  all: intros j' v; rewrite lookup_insert; case_decide; [intros [= <-]; lia|eauto].
Qed.

Lemma scan_rows_bounds alo blo bhi n i st :
  alo ≤ i → scanned alo i st →
  scanned alo (i + n)
    (foldl (λ st i, Difflib.scan_row a b blo bhi i st.1 st.2) st (seq i n)).
Proof.
  revert i st. induction n as [|n IH]; intros i st Hi Hst; simpl.
  - by rewrite Nat.add_0_r.
  - replace (i + S n) with (S i + n) by lia. apply IH; [lia|].
    destruct st as [j2len best]. by apply scan_row_bounds.
Qed.

Lemma extend_left_bounds fuel alo blo m hi :
  alo ≤ m.1.1 → m.1.1 + m.2 ≤ hi →
  alo ≤ (Difflib.extend_left a b fuel alo blo m).1.1 ∧
  (Difflib.extend_left a b fuel alo blo m).1.1
    + (Difflib.extend_left a b fuel alo blo m).2 ≤ hi.
Proof.
  revert m. induction fuel as [|fuel IH]; intros [[bi bj] bs]; simpl; [done|].
  intros Hlo Hhi. destruct (alo <? bi) eqn:Hlt; simpl; [|done].
  apply Nat.ltb_lt in Hlt.
  destruct ((blo <? bj) && Difflib.same_at a b (bi - 1) (bj - 1)); [|done].
  apply IH; simpl; lia.
Qed.

Lemma extend_right_bounds fuel ahi bhi m alo :
  alo ≤ m.1.1 → m.1.1 + m.2 ≤ ahi →
  alo ≤ (Difflib.extend_right a b fuel ahi bhi m).1.1 ∧
  (Difflib.extend_right a b fuel ahi bhi m).1.1
    + (Difflib.extend_right a b fuel ahi bhi m).2 ≤ ahi.
Proof.
  revert m. induction fuel as [|fuel IH]; intros [[bi bj] bs]; simpl; [done|].
  intros Hlo Hhi. destruct (bi + bs <? ahi) eqn:Hlt; simpl; [|done].
  apply Nat.ltb_lt in Hlt.
  destruct ((bj + bs <? bhi) && Difflib.same_at a b (bi + bs) (bj + bs)); [|done].
  apply IH; simpl; lia.
Qed.

(** The longest block starts no earlier than [alo] and ends no later
    than [ahi]. *)
Lemma find_longest_match_bounds alo ahi blo bhi :
  alo ≤ ahi →
  alo ≤ (Difflib.find_longest_match a b alo ahi blo bhi).1.1 ∧
  (Difflib.find_longest_match a b alo ahi blo bhi).1.1
    + (Difflib.find_longest_match a b alo ahi blo bhi).2 ≤ ahi.
Proof.
  intros Hle. unfold Difflib.find_longest_match.
  pose proof (scan_rows_bounds alo blo bhi (ahi - alo) alo (∅, (alo, blo, 0))
                ltac:(lia)) as Hscan.
  destruct Hscan as (_ & Hlo & Hhi).
  { repeat split; simpl; [|lia..]. intros j v Hv. by rewrite lookup_empty in Hv. }
  replace (alo + (ahi - alo)) with ahi in Hhi by lia.
  set (st := foldl _ _ _) in *.
  destruct (extend_left_bounds st.2.1.1 alo blo st.2 ahi Hlo Hhi) as [Hlo' Hhi'].
  by apply extend_right_bounds.
Qed.

Lemma count_matches_total fuel alo ahi blo bhi :
  alo ≤ ahi → ahi - alo < fuel →
  is_Some (Difflib.count_matches a b fuel alo ahi blo bhi).
Proof.
  revert alo ahi blo bhi. induction fuel as [|fuel IH];
    intros alo ahi blo bhi Hle Hfuel; [lia|]. simpl.
  pose proof (find_longest_match_bounds alo ahi blo bhi Hle) as [Hlo Hhi].
  destruct (Difflib.find_longest_match a b alo ahi blo bhi) as [[i j] k].
  simpl in Hlo, Hhi.
  destruct (k =? 0) eqn:Hk; [done|]. apply Nat.eqb_neq in Hk.
  assert (is_Some (if (alo <? i) && (blo <? j)
                   then Difflib.count_matches a b fuel alo i blo j else Some 0))
    as [l ->].
  { destruct ((alo <? i) && (blo <? j)); [|done]. apply IH; lia. }
  assert (is_Some (if (i + k <? ahi) && (j + k <? bhi)
                   then Difflib.count_matches a b fuel (i + k) ahi (j + k) bhi
                   else Some 0))
    as [r ->].
  { destruct ((i + k <? ahi) && (j + k <? bhi)); [|done]. apply IH; lia. }
  done.
Qed.
End MatcherTotal.

(** The matcher model never runs out of fuel: [ratio] is [ratio_opt]. *)
Lemma ratio_opt_total x y : Difflib.ratio_opt x y = Some (Difflib.ratio x y).
Proof.
  unfold Difflib.ratio, Difflib.ratio_opt, Difflib.matches.
  destruct (count_matches_total (Difflib.chars x) (Difflib.chars y)
              (S (length (Difflib.chars x))) 0 (length (Difflib.chars x))
              0 (length (Difflib.chars y))) as [m ->]; [lia..|done].
Qed.

(** ** Similarity engine *)

(** C7: [are_names_compatible("Debian", "PEcAn")] is false.  The first
    words "debian" and "pecan" score 6/11, which is not below 0.50; the
    suffix-stripped cores are the same two words and 6/11 is below 0.60,
    so the second check rejects the pair. *)
Theorem debian_pecan_incompatible :
  AlignWithApi.are_names_compatible Difflib.ratio "Debian" "PEcAn" = false ∧
  Difflib.ratio_opt "debian" "pecan" = Some (6 # 11) ∧
  AlignWithApi.Qlt_bool
    (AlignWithApi.similarity_ratio Difflib.ratio
       (AlignWithApi.get_first_word "debian") (AlignWithApi.get_first_word "pecan"))
    (1 # 2) = false ∧
  AlignWithApi.Qlt_bool
    (AlignWithApi.similarity_ratio Difflib.ratio
       (AlignWithApi.remove_suffixes "debian") (AlignWithApi.remove_suffixes "pecan"))
    (3 # 5) = true.
Proof. by vm_compute. Qed.

Section BestMatch.
Variable sm_ratio : string → string → Q.
Variable our_org_name : string.

Local Abbreviation sim := (score sm_ratio our_org_name).
Local Abbreviation compat := (compatible_candidates sm_ratio our_org_name).
Local Abbreviation best_so_far := (best_so_far sm_ratio our_org_name).

Lemma Qlt_bool_true x y : AlignWithApi.Qlt_bool x y = true ↔ (x < y)%Q.
Proof.
  unfold AlignWithApi.Qlt_bool. rewrite negb_true_iff.
  rewrite <-not_true_iff_false, Qle_bool_iff. split.
  - apply Qnot_le_lt.
  - apply Qlt_not_le.
Qed.

Lemma Qlt_bool_false x y : AlignWithApi.Qlt_bool x y = false ↔ (y <= x)%Q.
Proof.
  unfold AlignWithApi.Qlt_bool. rewrite negb_false_iff. apply Qle_bool_iff.
Qed.

Lemma compat_snoc seen c :
  compat (seen ++ [c]) =
  compat seen ++
  (if AlignWithApi.are_names_compatible sm_ratio our_org_name (api_name c)
   then [c] else []).
Proof.
  unfold compatible_candidates. rewrite list.filter_app. f_equal.
  rewrite list.filter_cons, list.filter_nil.
  destruct (AlignWithApi.are_names_compatible _ _ _); by case_decide.
Qed.

Lemma best_step_invariant seen st c :
  best_so_far seen st →
  best_so_far (seen ++ [c]) (AlignWithApi.best_step sm_ratio our_org_name st c).
Proof.
  unfold AlignWithApi.best_step, best_so_far. rewrite compat_snoc.
  destruct (AlignWithApi.are_names_compatible _ _ _) eqn:Hc; simpl;
    [|destruct st as [[b|] r]; rewrite app_nil_r; done].
  fold (sim c).
  destruct st as [[b|] r]; simpl.
  - intros (-> & Hpos & l1 & l2 & -> & H1 & H2).
    destruct (AlignWithApi.Qlt_bool (sim b) (sim c)) eqn:Hlt.
    + apply Qlt_bool_true in Hlt. split; [done|].
      split; [eapply Qlt_trans; done|].
      exists (l1 ++ b :: l2), []. split; [by rewrite <-(assoc_L (++))|].
      split; [|constructor].
      apply Forall_app. split.
      * eapply list.Forall_impl; [done|]. intros x Hx. simpl in Hx.
        eapply Qlt_trans; done.
      * constructor; [done|].
        eapply list.Forall_impl; [done|]. intros x Hx. simpl in Hx.
        eapply Qle_lt_trans; done.
    + apply Qlt_bool_false in Hlt. split; [done|]. split; [done|].
      exists l1, (l2 ++ [c]). split; [by rewrite <-(assoc_L (++))|].
      split; [done|]. apply Forall_app. split; [done|]. by constructor.
  - intros (-> & Hall).
    destruct (AlignWithApi.Qlt_bool 0 (sim c)) eqn:Hlt.
    + apply Qlt_bool_true in Hlt. split; [done|]. split; [done|].
      exists (compat seen), []. split; [done|]. split; [|constructor].
      eapply list.Forall_impl; [done|]. intros x Hx. simpl in Hx.
      eapply Qle_lt_trans; done.
    + apply Qlt_bool_false in Hlt. split; [done|].
      apply Forall_app. split; [done|]. by constructor.
Qed.

Lemma best_fold_invariant seen st rest :
  best_so_far seen st →
  best_so_far (seen ++ rest)
    (foldl (AlignWithApi.best_step sm_ratio our_org_name) st rest).
Proof.
  revert seen st. induction rest as [|c rest IH]; intros seen st Hst; simpl.
  - by rewrite app_nil_r.
  - rewrite (assoc_L (++) seen [c] rest : seen ++ c :: rest = (seen ++ [c]) ++ rest).
    apply IH. by apply best_step_invariant.
Qed.
End BestMatch.

(** C6: [find_best_api_match] looks only at the candidates that pass
    [are_names_compatible].  For a positive threshold (the default is
    0.88) it returns a candidate exactly when the greatest score among
    them reaches the threshold: the returned candidate has the greatest
    score, every earlier compatible candidate scores strictly less (the
    first of equal best wins), and the returned score is that
    candidate's; otherwise it returns (None, 0) and every compatible
    candidate scores below the threshold. *)
Theorem find_best_match_spec (sm_ratio : string → string → Q)
    (our_org_name : string) (candidates : list api_org) (threshold : Q) :
  (0 < threshold)%Q →
  match AlignWithApi.find_best_api_match sm_ratio our_org_name candidates threshold with
  | (Some c, s) =>
      s = score sm_ratio our_org_name c ∧ (threshold <= s)%Q ∧
      ∃ l1 l2,
        compatible_candidates sm_ratio our_org_name candidates = l1 ++ c :: l2 ∧
        Forall (λ x, (score sm_ratio our_org_name x < score sm_ratio our_org_name c)%Q) l1 ∧
        Forall (λ x, (score sm_ratio our_org_name x <= score sm_ratio our_org_name c)%Q) l2
  | (None, s) =>
      s = 0%Q ∧
      Forall (λ x, (score sm_ratio our_org_name x < threshold)%Q)
             (compatible_candidates sm_ratio our_org_name candidates)
  end.
Proof.
  intros Hpos. unfold AlignWithApi.find_best_api_match.
  pose proof (best_fold_invariant sm_ratio our_org_name [] (None, 0%Q) candidates) as Hinv.
  simpl in Hinv. specialize (Hinv (conj eq_refl (Forall_nil _))).
  destruct (foldl _ _ candidates) as [[c|] r]; simpl in *.
  - destruct Hinv as (-> & Hr & l1 & l2 & Hsplit & H1 & H2).
    destruct (Qle_bool threshold _) eqn:Hle.
    + apply Qle_bool_iff in Hle. eauto 10.
    + split; [done|].
      assert (score sm_ratio our_org_name c < threshold)%Q as Hlt.
      { apply Qnot_le_lt. intros Hle'. apply Qle_bool_iff in Hle'. congruence. }
      rewrite Hsplit. apply Forall_app. split; [|constructor; [done|]].
      * eapply list.Forall_impl; [done|]. intros x Hx. simpl in Hx.
        eapply Qlt_trans; done.
      * eapply list.Forall_impl; [done|]. intros x Hx. simpl in Hx.
        eapply Qle_lt_trans; done.
  - destruct Hinv as (-> & Hall).
    assert (Forall (λ x, (score sm_ratio our_org_name x < threshold)%Q)
                   (compatible_candidates sm_ratio our_org_name candidates)).
    { eapply list.Forall_impl; [done|]. intros x Hx. simpl in Hx.
      eapply Qle_lt_trans; done. }
    by destruct (Qle_bool threshold 0).
Qed.

Lemma find_best_match_spec_witness :
  (0 < AlignWithApi.default_threshold)%Q ∧
  (AlignWithApi.find_best_api_match Difflib.ratio "GNU Octave" example_candidates
     AlignWithApi.default_threshold).1
  = Some {| api_name := "GNU Octave"; api_years := [2016; 2017] |} ∧
  match AlignWithApi.find_best_api_match Difflib.ratio "GNU Octave"
          example_candidates AlignWithApi.default_threshold with
  | (Some c, s) =>
      s = score Difflib.ratio "GNU Octave" c ∧
      (AlignWithApi.default_threshold <= s)%Q ∧
      ∃ l1 l2,
        compatible_candidates Difflib.ratio "GNU Octave" example_candidates
          = l1 ++ c :: l2 ∧
        Forall (λ x, (score Difflib.ratio "GNU Octave" x
                      < score Difflib.ratio "GNU Octave" c)%Q) l1 ∧
        Forall (λ x, (score Difflib.ratio "GNU Octave" x
                      <= score Difflib.ratio "GNU Octave" c)%Q) l2
  | (None, s) =>
      s = 0%Q ∧
      Forall (λ x, (score Difflib.ratio "GNU Octave" x
                    < AlignWithApi.default_threshold)%Q)
             (compatible_candidates Difflib.ratio "GNU Octave" example_candidates)
  end.
Proof.
  split; [reflexivity|]. split; [by vm_compute|].
  exact (find_best_match_spec Difflib.ratio "GNU Octave" example_candidates
           AlignWithApi.default_threshold eq_refl).
Defined.

(** ** Alignment *)

Section Alignment.
Variable sm_ratio : string → string → Q.
Variable table : gmap string string.
Variable api_orgs : list api_org.

Lemma api_by_name_from (acc : gmap string api_org) (l : list api_org) n :
  is_Some (foldl (λ m o, <[api_name o := o]> m) acc l !! n)
  ↔ is_Some (acc !! n) ∨ n ∈ api_name <$> l.
Proof.
  revert acc. induction l as [|a l IH]; intros acc; simpl.
  - split; [auto|]. intros [?|H]; [done|]. by apply elem_of_nil in H.
  - rewrite IH, elem_of_cons. destruct (decide (api_name a = n)) as [<-|Hne].
    + rewrite lookup_insert_eq. split; [auto|]. intros _. left. by eexists.
    + rewrite lookup_insert_ne by done. split.
      * intros [?|?]; auto.
      * intros [?|[?|?]]; auto. congruence.
Qed.

Lemma api_by_name_is_Some n :
  is_Some (AlignWithApi.api_by_name api_orgs !! n) ↔ n ∈ api_name <$> api_orgs.
Proof.
  unfold AlignWithApi.api_by_name. rewrite api_by_name_from, lookup_empty.
  split; [intros [[? [=]]|?]; done|auto].
Qed.

Lemma dict_append_new {V} (k : string) (v : V) d :
  ∃ vs, (k, vs) ∈ MergeByUrls.dict_append k v d ∧ v ∈ vs.
Proof.
  induction d as [|[k' vs'] d (vs & Hin & Hv)]; simpl.
  - exists [v]. split; left.
  - case_decide; subst.
    + exists (vs' ++ [v]). split; [left|]. apply elem_of_app. right. left.
    + exists vs. split; [by right|done].
Qed.

Lemma dict_append_old {V} (k k' : string) (v v' : V) d vs :
  (k', vs) ∈ d → v' ∈ vs →
  ∃ vs', (k', vs') ∈ MergeByUrls.dict_append k v d ∧ v' ∈ vs'.
Proof.
  intros Hin Hv. induction d as [|[k0 vs0] d IH]; simpl.
  - by apply elem_of_nil in Hin.
  - apply elem_of_cons in Hin as [[= <- <-]|Hin].
    + case_decide; subst.
      * exists (vs ++ [v]). split; [left|]. apply elem_of_app. by left.
      * exists vs. split; [left|done].
    + case_decide; subst.
      * exists vs. split; [by right|done].
      * destruct (IH Hin) as (vs' & ? & ?). exists vs'. split; [by right|done].
Qed.

Lemma align_step_keeps st o' k vs (o : org) :
  (k, vs) ∈ AlignWithApi.api_groups st → o ∈ vs →
  ∃ vs', (k, vs') ∈ AlignWithApi.api_groups
                      (AlignWithApi.align_step sm_ratio table api_orgs st o') ∧
         o ∈ vs'.
Proof.
  intros Hin Ho. unfold AlignWithApi.align_step.
  destruct (AlignWithApi.resolve _ _ _ _); simpl; [|eauto].
  by eapply dict_append_old.
Qed.

Lemma align_fold_keeps l st k vs (o : org) :
  (k, vs) ∈ AlignWithApi.api_groups st → o ∈ vs →
  ∃ vs', (k, vs') ∈ AlignWithApi.api_groups
                      (foldl (AlignWithApi.align_step sm_ratio table api_orgs) st l) ∧
         o ∈ vs'.
Proof.
  revert st vs. induction l as [|o' l IH]; intros st vs Hin Ho; simpl; [eauto|].
  destruct (align_step_keeps st o' k vs o Hin Ho) as (vs' & ? & ?). by eapply IH.
Qed.

Lemma align_fold_unmatched l st (u : org) :
  u ∈ AlignWithApi.unmatched_orgs
        (foldl (AlignWithApi.align_step sm_ratio table api_orgs) st l) →
  u ∈ AlignWithApi.unmatched_orgs st ∨
  AlignWithApi.resolve sm_ratio table api_orgs (name u) = None.
Proof.
  revert st. induction l as [|o' l IH]; intros st; simpl; [auto|].
  intros [Hu|?]%IH; [|auto]. unfold AlignWithApi.align_step in Hu.
  destruct (AlignWithApi.resolve _ _ _ (name o')) eqn:Hres; simpl in Hu; [auto|].
  apply elem_of_app in Hu as [?|Hu]; [auto|].
  apply list_elem_of_singleton in Hu as ->. auto.
Qed.
End Alignment.

(** C5: a record whose name is a key of the alias table, with an alias
    target that is an authoritative name, is filed under that target.
    The answer is the one of the alias lookup, for every similarity
    function: neither the exact-name test nor the fuzzy matcher has a say.
    The record ends up in the target's group and not among the unmatched
    records. *)
Theorem alias_takes_precedence (sm_ratio : string → string → Q)
    (table : gmap string string) (api_orgs : list api_org)
    (our_orgs : list org) (o : org) (target : string) :
  o ∈ our_orgs →
  table !! name o = Some target →
  target ∈ api_name <$> api_orgs →
  AlignWithApi.manual_target table api_orgs (name o) = Some target ∧
  AlignWithApi.resolve sm_ratio table api_orgs (name o) = Some target ∧
  (∃ members,
     (target, members) ∈ AlignWithApi.api_groups
                            (AlignWithApi.align sm_ratio table api_orgs our_orgs) ∧
     o ∈ members) ∧
  o ∉ AlignWithApi.unmatched_orgs
        (AlignWithApi.align sm_ratio table api_orgs our_orgs).
Proof.
  intros Ho Halias Htarget.
  assert (AlignWithApi.manual_target table api_orgs (name o) = Some target) as Hmt.
  { unfold AlignWithApi.manual_target. rewrite Halias. simpl.
    rewrite bool_decide_eq_true_2; [done|]. by apply api_by_name_is_Some. }
  assert (AlignWithApi.resolve sm_ratio table api_orgs (name o) = Some target) as Hres.
  { unfold AlignWithApi.resolve. by rewrite Hmt. }
  split; [done|]. split; [done|]. split.
  - apply list_elem_of_split in Ho as (l1 & l2 & ->).
    unfold AlignWithApi.align. rewrite foldl_app. simpl.
    set (st := foldl _ _ l1).
    unfold AlignWithApi.align_step at 2. rewrite Hres.
    destruct (dict_append_new target o (AlignWithApi.api_groups st)) as (vs & ? & ?).
    by eapply align_fold_keeps.
  - intros [Hu|Hu]%align_fold_unmatched; [|congruence].
    by apply elem_of_nil in Hu.
Qed.

Lemma alias_takes_precedence_witness :
  AlignWithApi.manual_target AlignWithApi.manual_mappings aboutcode_api
    (name aboutcode_record) = Some "AboutCode" ∧
  AlignWithApi.resolve Difflib.ratio AlignWithApi.manual_mappings aboutcode_api
    (name aboutcode_record) = Some "AboutCode" ∧
  (∃ members,
     ("AboutCode", members) ∈
       AlignWithApi.api_groups
         (AlignWithApi.align Difflib.ratio AlignWithApi.manual_mappings
            aboutcode_api [aboutcode_record]) ∧
     aboutcode_record ∈ members) ∧
  aboutcode_record ∉
    AlignWithApi.unmatched_orgs
      (AlignWithApi.align Difflib.ratio AlignWithApi.manual_mappings
         aboutcode_api [aboutcode_record]).
Proof.
  refine (alias_takes_precedence Difflib.ratio AlignWithApi.manual_mappings
            aboutcode_api [aboutcode_record] aboutcode_record "AboutCode" _ _ _).
  - left.
  - by vm_compute.
  - right. left.
Defined.

(** ** Comparison *)

Section Comparison.
Implicit Types (A B : gset Z) (l : list Z).

Lemma year_set_sorted l :
  FinalComparison.year_set (FinalComparison.sorted_list l) = FinalComparison.year_set l.
Proof.
  unfold FinalComparison.year_set, FinalComparison.sorted_list.
  apply set_eq. intros y. by rewrite !elem_of_list_to_set, merge_sort_Permutation.
Qed.

Lemma union_size_pos A B : A ≠ B → (0 < size (A ∪ B))%nat.
Proof.
  intros Hne. destruct (decide (size (A ∪ B) = 0%nat)) as [Hz|]; [|lia].
  apply size_empty_iff in Hz. destruct Hne. set_solver.
Qed.

(** The percentage of a year mismatch, for either divisor. *)
Lemma compare_years_mismatch (denominator : nat → Z) n api_years our_years m :
  (∀ u, (0 < u)%nat → denominator u = Z.of_nat u) →
  FinalComparison.compare_years denominator n api_years our_years
    = Some (FinalComparison.YearMismatch m) →
  FinalComparison.mm_api_years m = api_years ∧
  FinalComparison.mm_our_years m = our_years ∧
  FinalComparison.year_set api_years ≠ FinalComparison.year_set our_years ∧
  FinalComparison.match_pct m =
    (Z.of_nat (size (FinalComparison.year_set api_years ∩
                     FinalComparison.year_set our_years)) * 100)
    `div` Z.of_nat (size (FinalComparison.year_set api_years ∪
                          FinalComparison.year_set our_years)).
Proof.
  intros Hden. unfold FinalComparison.compare_years.
  case_decide as Hne; [done|].
  pose proof (union_size_pos _ _ Hne) as Hpos.
  rewrite (Hden _ Hpos). unfold FinalComparison.floordiv.
  rewrite decide_False by lia. simpl. by intros [= <-].
Qed.
End Comparison.

(** C8: for an authoritative entry that either script classifies as a
    year mismatch, the reported percentage is the size of the
    intersection of the two year sets times 100, floor-divided by the
    size of their union, which is positive: it is the integer q with
    q * |union| <= 100 * |intersection| < (q + 1) * |union|. *)
Theorem match_percent_floor (our_orgs : list org) (authoritative : api_org)
    (m : FinalComparison.mismatch) :
  FinalComparison.classify our_orgs authoritative
    = Some (FinalComparison.YearMismatch m) ∨
  FinalComparison.classify_report our_orgs authoritative
    = Some (FinalComparison.YearMismatch m) →
  ∃ ours,
    FinalComparison.by_name our_orgs !! api_name authoritative = Some ours ∧
    let A := FinalComparison.year_set (api_years authoritative) in
    let B := FinalComparison.year_set (years_of ours) in
    let inter := Z.of_nat (size (A ∩ B)) in
    let union := Z.of_nat (size (A ∪ B)) in
    A ≠ B ∧ 0 < union ∧
    FinalComparison.match_pct m = (inter * 100) `div` union ∧
    FinalComparison.match_pct m * union ≤ inter * 100 < (FinalComparison.match_pct m + 1) * union.
Proof.
  intros Hclass.
  assert (∃ ours ys denominator,
            FinalComparison.by_name our_orgs !! api_name authoritative = Some ours ∧
            years_of ours = ys ∧
            (∀ u, (0 < u)%nat → denominator u = Z.of_nat u) ∧
            FinalComparison.compare_years denominator (api_name authoritative)
              (FinalComparison.sorted_list (api_years authoritative))
              (FinalComparison.sorted_list ys)
            = Some (FinalComparison.YearMismatch m))
    as (ours & ys & den & Hours & Hys & Hden & Hcmp).
  { destruct Hclass as [H|H].
    - unfold FinalComparison.classify in H.
      destruct (FinalComparison.by_name our_orgs !! api_name authoritative)
        as [ours|] eqn:Hours; [|done].
      destruct (years_appeared ours) as [ys|] eqn:Hys; [|done]. simpl in H.
      exists ours, ys, (λ u, Z.max (Z.of_nat u) 1).
      split; [done|]. split; [unfold years_of; by rewrite Hys|].
      split; [intros; lia|done].
    - unfold FinalComparison.classify_report in H.
      destruct (FinalComparison.by_name our_orgs !! api_name authoritative)
        as [ours|] eqn:Hours; [|done].
      exists ours, (years_of ours), Z.of_nat. done. }
  destruct (compare_years_mismatch _ _ _ _ _ Hden Hcmp) as (_ & _ & Hne & Hpct).
  subst ys. rewrite !year_set_sorted in Hne, Hpct.
  exists ours. split; [done|]. simpl.
  pose proof (union_size_pos _ _ Hne) as Hpos.
  split; [done|]. split; [lia|]. split; [done|].
  rewrite Hpct.
  set (i := Z.of_nat (size _) * 100).
  set (u := Z.of_nat (size _)).
  assert (0 < u) by (unfold u; lia).
  pose proof (Z.div_mod i u ltac:(lia)).
  pose proof (Z.mod_pos_bound i u ltac:(lia)).
  nia.
Qed.

Lemma match_percent_floor_witness :
  FinalComparison.match_pct <$>
    (match FinalComparison.classify_report mismatch_ours mismatch_api with
     | Some (FinalComparison.YearMismatch m) => Some m
     | _ => None
     end) = Some 50 ∧
  ∃ m ours,
    FinalComparison.classify mismatch_ours mismatch_api
      = Some (FinalComparison.YearMismatch m) ∧
    FinalComparison.by_name mismatch_ours !! api_name mismatch_api = Some ours ∧
    FinalComparison.match_pct m =
      (Z.of_nat (size (FinalComparison.year_set (api_years mismatch_api) ∩
                       FinalComparison.year_set (years_of ours))) * 100)
      `div` Z.of_nat (size (FinalComparison.year_set (api_years mismatch_api) ∪
                            FinalComparison.year_set (years_of ours))).
Proof.
  split; [by vm_compute|].
  eexists.
  destruct (match_percent_floor mismatch_ours mismatch_api _ (or_introl eq_refl))
    as (ours & Hours & _ & _ & Hpct & _).
  exists ours. split; [reflexivity|]. split; [exact Hours|exact Hpct].
Defined.

(** ** Normaliser on GitHub URLs *)

Section StringFacts.
Implicit Types (P : ascii → bool) (s : string) (c : ascii).

Lemma forallb_app P s1 s2 :
  Py.forallb P (s1 +:+ s2) = Py.forallb P s1 && Py.forallb P s2.
Proof. induction s1 as [|a s1 IH]; simpl; [done|]. by rewrite IH, andb_assoc. Qed.

Lemma forallb_impl P (Q : ascii → bool) s :
  (∀ c, P c = true → Q c = true) → Py.forallb P s = true → Py.forallb Q s = true.
Proof.
  intros HPQ. induction s as [|a s IH]; simpl; [done|].
  intros [Ha Hs]%andb_true_iff. by rewrite (HPQ _ Ha), IH.
Qed.

Lemma lower_app s1 s2 : Py.lower (s1 +:+ s2) = Py.lower s1 +:+ Py.lower s2.
Proof. induction s1 as [|a s1 IH]; simpl; [done|]. by rewrite IH. Qed.

Lemma is_empty_lower s : Py.is_empty (Py.lower s) = Py.is_empty s.
Proof. by destruct s. Qed.

Lemma lstrip_noop P s :
  Py.forallb (λ c, negb (P c)) s = true → Py.lstrip P s = s.
Proof.
  destruct s as [|a s]; simpl; [done|].
  intros [Ha _]%andb_true_iff. apply negb_true_iff in Ha. by rewrite Ha.
Qed.

Lemma rstrip_noop P s :
  Py.forallb (λ c, negb (P c)) s = true → Py.rstrip P s = s.
Proof.
  induction s as [|a s IH]; simpl; [done|].
  intros [Ha Hs]%andb_true_iff. apply negb_true_iff in Ha.
  by rewrite IH, Ha, andb_false_r.
Qed.

Lemma is_empty_app s1 s2 :
  Py.is_empty (s1 +:+ s2) = Py.is_empty s1 && Py.is_empty s2.
Proof. by destruct s1. Qed.

Lemma rstrip_app_keep P s1 s2 :
  Py.is_empty (Py.rstrip P s2) = false →
  Py.rstrip P (s1 +:+ s2) = s1 +:+ Py.rstrip P s2.
Proof.
  intros Hne. induction s1 as [|a s1 IH]; [done|].
  change (Py.rstrip P (String a s1 +:+ s2))
    with (let r := Py.rstrip P (s1 +:+ s2) in
          if Py.is_empty r && P a then EmptyString else String a r).
  simpl. by rewrite IH, is_empty_app, Hne, andb_false_r.
Qed.

Lemma rstrip_app_drop P s1 s2 :
  Py.rstrip P s2 = EmptyString → Py.rstrip P (s1 +:+ s2) = Py.rstrip P s1.
Proof. intros He. induction s1 as [|a s1 IH]; simpl; [done|]. by rewrite IH. Qed.

Lemma remove_chars_noop P s :
  Py.forallb (λ c, negb (P c)) s = true → Url.remove_chars P s = s.
Proof.
  induction s as [|a s IH]; simpl; [done|].
  intros [Ha Hs]%andb_true_iff. apply negb_true_iff in Ha. by rewrite Ha, IH.
Qed.

Lemma remove_chars_app P s1 s2 :
  Url.remove_chars P (s1 +:+ s2) = Url.remove_chars P s1 +:+ Url.remove_chars P s2.
Proof.
  induction s1 as [|a s1 IH]; simpl; [done|]. rewrite IH. by destruct (P a).
Qed.

Lemma find_char_none P s :
  Py.forallb (λ c, negb (P c)) s = true → Py.find_char P s = None.
Proof.
  induction s as [|a s IH]; simpl; [done|].
  intros [Ha Hs]%andb_true_iff. apply negb_true_iff in Ha. by rewrite Ha, IH.
Qed.

Lemma split_none c s :
  Py.forallb (λ a, negb (Py.is_char c a)) s = true → Py.split c s = [s].
Proof.
  induction s as [|a s IH]; simpl; [done|].
  intros [Ha Hs]%andb_true_iff. apply negb_true_iff in Ha.
  unfold Py.is_char in Ha. by rewrite Ha, IH.
Qed.

(** What a handle character is not, and that lowering keeps it one. *)
Lemma handle_char_facts c :
  handle_char c = true →
  Py.is_space c = false ∧ Url.c0_or_space c = false ∧ Url.unsafe c = false ∧
  Py.is_char "/" c = false ∧ Py.is_char "?" c = false ∧
  Py.is_char "#" c = false ∧ Py.is_char ";" c = false ∧
  handle_char (Py.lower_char c) = true.
Proof. destruct c as [[] [] [] [] [] [] [] []]; by vm_compute. Qed.

Lemma handle_lower h : handle_ok h → handle_ok (Py.lower h).
Proof.
  intros [Hne Hall]. split; [by rewrite is_empty_lower|].
  clear Hne. induction h as [|a h IH]; simpl in *; [done|].
  apply andb_true_iff in Hall as [Ha Hh].
  rewrite IH by done. by destruct (handle_char_facts a Ha) as (_&_&_&_&_&_&_&->).
Qed.

Lemma handle_none h (P : ascii → bool) :
  (∀ c, handle_char c = true → P c = false) →
  Py.forallb handle_char h = true → Py.forallb (λ c, negb (P c)) h = true.
Proof.
  intros HP. apply forallb_impl. intros c Hc. by rewrite (HP c Hc).
Qed.
End StringFacts.

Lemma append_empty_r s : s +:+ "" = s.
Proof.
  induction s as [|a s IH]; [done|].
  change (String a s +:+ "") with (String a (s +:+ "")). by rewrite IH.
Qed.

Lemma rstrip_slash h slash :
  slash ∈ [""; "/"] →
  Py.forallb (λ c, negb (Py.is_char "/" c)) h = true →
  Py.rstrip (Py.is_char "/") (h +:+ slash) = h.
Proof.
  intros Hsl Hh. apply elem_of_cons in Hsl as [->|Hsl].
  - rewrite append_empty_r. by apply rstrip_noop.
  - apply list_elem_of_singleton in Hsl as ->.
    rewrite rstrip_app_drop by done. by apply rstrip_noop.
Qed.

Lemma before_none c s :
  Py.forallb (λ a, negb (Py.is_char c a)) s = true → Url.before c s = s.
Proof. intros H. unfold Url.before. by rewrite find_char_none. Qed.

Lemma has_none c s :
  Py.forallb (λ a, negb (Py.is_char c a)) s = true → Url.has c s = false.
Proof.
  intros H. unfold Url.has. rewrite find_char_none by done.
  apply bool_decide_eq_false_2. by intros [? [=]].
Qed.

(** The parse of scheme://[www.]github.com/handle[/]. *)
Lemma github_url_parsed host_ok scheme www h slash :
  handle_ok h →
  scheme ∈ ["http"; "https"] → www ∈ [""; "www."] → slash ∈ [""; "/"] →
  parsed_input host_ok (github_url scheme www h slash)
  = Some {| Url.scheme := scheme; Url.netloc := www +:+ "github.com";
            Url.path := "/" +:+ Py.lower h |}.
Proof.
  intros Hh Hs Hw Hsl.
  pose proof (handle_lower h Hh) as [Hne' Hall'].
  destruct Hh as [Hne Hall].
  assert (Py.forallb (λ c, negb (Py.is_space c)) h = true) as Hsp.
  { eapply handle_none; [|done]. intros c Hc. by destruct (handle_char_facts c Hc) as (->&_). }
  assert (Py.forallb (λ c, negb (Py.is_space c)) slash = true) as Hsp'.
  { apply elem_of_cons in Hsl as [->|Hsl]; [done|].
    by apply list_elem_of_singleton in Hsl as ->. }
  assert (Py.lower slash = slash) as Hlow.
  { apply elem_of_cons in Hsl as [->|Hsl]; [done|].
    by apply list_elem_of_singleton in Hsl as ->. }
  assert (∀ P : ascii → bool, (∀ c, handle_char c = true → P c = false) →
            Py.forallb (λ c, negb (P c)) (Py.lower h) = true) as Hnone.
  { intros P HP. by eapply handle_none. }
  pose proof (Hnone (Py.is_char "/") ltac:(intros c Hc; by destruct (handle_char_facts c Hc) as (_&_&_&->&_))) as Hslash.
  pose proof (Hnone (Py.is_char "?") ltac:(intros c Hc; by destruct (handle_char_facts c Hc) as (_&_&_&_&->&_))) as Hquest.
  pose proof (Hnone (Py.is_char "#") ltac:(intros c Hc; by destruct (handle_char_facts c Hc) as (_&_&_&_&_&->&_))) as Hhash.
  pose proof (Hnone (Py.is_char ";") ltac:(intros c Hc; by destruct (handle_char_facts c Hc) as (_&_&_&_&_&_&->&_))) as Hsemi.
  pose proof (Hnone Url.unsafe ltac:(intros c Hc; by destruct (handle_char_facts c Hc) as (_&_&->&_))) as Hunsafe.
  clear Hnone.
  set (h' := Py.lower h) in *.
  assert (∀ c, Py.is_char c "/" = false →
            Py.forallb (λ a, negb (Py.is_char c a)) h' = true →
            Py.forallb (λ a, negb (Py.is_char c a)) ("/" +:+ h') = true) as Hpath.
  { intros c Hc Hh. rewrite forallb_app, Hh. simpl. by rewrite Hc. }
  apply elem_of_cons in Hs as [->|Hs]; [|apply list_elem_of_singleton in Hs as ->];
  (apply elem_of_cons in Hw as [->|Hw]; [|apply list_elem_of_singleton in Hw as ->]).
  all: match goal with
       | |- parsed_input _ (github_url ?sch ?www _ _) = _ =>
           let p := eval vm_compute in (sch +:+ "://" +:+ www +:+ "github.com/") in
           let rest := eval vm_compute in ("//" +:+ www +:+ "github.com/") in
           let loc := eval vm_compute in (www +:+ "github.com") in
           change (github_url sch www h slash) with (p +:+ (h +:+ slash));
           unfold parsed_input; rewrite is_empty_app; simpl andb; cbv iota;
           unfold clean_url, Py.strip;
           rewrite (lstrip_noop Py.is_space), (rstrip_noop Py.is_space)
             by (by rewrite !forallb_app, Hsp, Hsp');
           rewrite !lower_app, Hlow; fold h';
           rewrite rstrip_app_keep by (by rewrite rstrip_slash, Hne');
           rewrite rstrip_slash by done;
           change (Py.lower p) with p;
           change (Py.is_empty (p +:+ h')) with false; cbv iota;
           change (with_scheme (p +:+ h')) with (p +:+ h');
           unfold Url.urlparse, Url.urlsplit;
           change (Py.lstrip Url.c0_or_space (p +:+ h')) with (p +:+ h');
           rewrite remove_chars_app, (remove_chars_noop Url.unsafe h') by done;
           change (Url.remove_chars Url.unsafe p) with p;
           change (Url.split_scheme (p +:+ h')) with (sch, rest +:+ h');
           cbv beta iota;
           change (Py.startswith "//" (rest +:+ h')) with true; cbv iota;
           change (Url.splitnetloc (rest +:+ h')) with (loc, "/" +:+ h');
           cbv beta iota;
           change (Url.has "[" loc) with false;
           change (Url.has "]" loc) with false;
           cbn [xorb andb mbind option_bind];
           change (Py.forallb Url.is_ascii loc) with true;
           cbn [negb andb];
           rewrite (before_none "#"), (before_none "?") by (by apply Hpath);
           cbn [mbind option_bind Url.scheme Url.path Url.netloc];
           rewrite (has_none ";") by (by apply Hpath);
           rewrite andb_false_r; reflexivity
       end.
Qed.

Lemma path_handle_segment h :
  handle_ok h → path_handle ("/" +:+ Py.lower h) = Some (Py.lower h).
Proof.
  intros Hh. destruct (handle_lower h Hh) as [Hne Hall].
  assert (Py.forallb (λ c, negb (Py.is_char "/" c)) (Py.lower h) = true) as Hslash.
  { eapply handle_none; [|done]. intros c Hc.
    by destruct (handle_char_facts c Hc) as (_&_&_&->&_). }
  unfold path_handle, Py.strip_char.
  change (Py.lstrip (Py.is_char "/") ("/" +:+ Py.lower h))
    with (Py.lstrip (Py.is_char "/") (Py.lower h)).
  rewrite lstrip_noop, rstrip_noop, split_none by done. by rewrite Hne.
Qed.

(** C9: for a GitHub URL with one path segment of ASCII characters the
    key does not depend on the scheme (http or https), on a leading
    "www." or on a trailing slash: it is [github:<handle>], the handle in
    lower case.  Both copies of the normaliser agree.  At the handle "foo" this gives
    normalize("https://github.com/foo/") = normalize("http://www.github.com/foo")
    = "github:foo". *)
Theorem github_key_symmetry (host_ok : string → bool) (scheme www h slash : string) :
  handle_ok h →
  scheme ∈ ["http"; "https"] → www ∈ [""; "www."] → slash ∈ [""; "/"] →
  MergeByUrls.normalize_url host_ok (github_url scheme www h slash)
    = Some ("github:" +:+ Py.lower h) ∧
  MergeWithApiNames.normalize_url host_ok (github_url scheme www h slash)
    = Some ("github:" +:+ Py.lower h).
Proof.
  intros Hh Hs Hw Hsl.
  rewrite normalize_url_unfold, normalize_url_api_unfold.
  rewrite (github_url_parsed host_ok scheme www h slash) by done.
  cbn [Url.path]. rewrite (path_handle_segment h Hh).
  assert (domain_of {| Url.scheme := scheme; Url.netloc := www +:+ "github.com";
                       Url.path := "/" +:+ Py.lower h |} = "github.com") as ->.
  { apply elem_of_cons in Hw as [->|Hw]; [done|].
    by apply list_elem_of_singleton in Hw as ->. }
  done.
Qed.

Lemma github_key_symmetry_witness :
  MergeByUrls.normalize_url any_host "https://github.com/foo/" = Some "github:foo" ∧
  MergeByUrls.normalize_url any_host "http://www.github.com/foo" = Some "github:foo".
Proof.
  split.
  - exact (proj1 (github_key_symmetry any_host "https" "" "foo" "/"
                    (conj eq_refl eq_refl)
                    ltac:(right; left) ltac:(left) ltac:(right; left))).
  - exact (proj1 (github_key_symmetry any_host "http" "www." "foo" ""
                    (conj eq_refl eq_refl)
                    ltac:(left) ltac:(right; left) ltac:(left))).
Defined.

(** ** Grouping engine: which records are joined *)

Section Classes.
Local Open Scope nat_scope.
Implicit Types (parent : list nat) (x y r a b : nat).

Lemma root_of_lt parent x r : root_of parent x r → x < length parent.
Proof. intros [d H]. by eapply path_lt. Qed.

Lemma root_of_root parent x r : root_of parent x r → parent !! r = Some r.
Proof. intros [d H]. by eapply path_end. Qed.

Lemma root_of_self parent r : parent !! r = Some r → root_of parent r r.
Proof. intros H. exists 0. by constructor. Qed.

Lemma same_sym parent a b : same parent a b → same parent b a.
Proof. intros (r & ? & ?). by exists r. Qed.

Lemma same_trans parent a b c : same parent a b → same parent b c → same parent a c.
Proof.
  intros (r & Ha & Hb) (r' & Hb' & Hc).
  rewrite (root_of_det _ _ _ _ Hb Hb') in Ha. by exists r'.
Qed.

Lemma same_refl parent a : forest parent → a < length parent → same parent a a.
Proof. intros Hf Ha. destruct (Hf a Ha) as [r Hr]. by exists r. Qed.

Lemma same_initial n a b : same (seq 0 n) a b → a = b.
Proof.
  assert (∀ x r, root_of (seq 0 n) x r → r = x) as Hroot.
  { intros x r [d H]. destruct H as [x Hx|x p r d Hx Hp _]; [done|].
    apply lookup_seq in Hx as [-> _]. done. }
  intros (r & Ha%Hroot & Hb%Hroot). congruence.
Qed.

(** [find] answers the representative and changes no representative. *)
Lemma find_same fuel parent x :
  forest parent → x < length parent → length parent ≤ fuel →
  ∃ parent' r, MergeByUrls.find fuel parent x = Some (parent', r) ∧
    length parent' = length parent ∧ forest parent' ∧ root_of parent x r ∧
    ∀ y r', root_of parent' y r' ↔ root_of parent y r'.
Proof.
  intros Hf Hx Hfuel. destruct (Hf x Hx) as (r & d & Hpath).
  pose proof (path_bound _ _ _ _ Hpath).
  destruct (find_spec fuel _ _ _ _ Hpath ltac:(lia)) as (parent' & Hfind & Hlen & Hroots).
  exists parent', r. split; [done|]. split; [done|].
  assert (forest parent') as Hf'.
  { intros y Hy. rewrite Hlen in Hy. destruct (Hf y Hy) as (r' & Hr').
    exists r'. by apply Hroots. }
  split; [done|]. split; [by exists d|].
  intros y r'. split; [|by apply Hroots].
  intros Hy'. pose proof (root_of_lt _ _ _ Hy') as Hy. rewrite Hlen in Hy.
  destruct (Hf y Hy) as (r'' & Hr'').
  by rewrite (root_of_det _ _ _ _ Hy' (Hroots _ _ Hr'')).
Qed.

(** Attaching the representative [px] to [py] redirects exactly the
    indices represented by [px]. *)
Lemma link_root_of parent px py y r :
  parent !! px = Some px → parent !! py = Some py → px ≠ py →
  root_of parent y r →
  root_of (<[px := py]> parent) y (if decide (r = px) then py else r).
Proof.
  intros Hpx Hpy Hne [d Hpath].
  pose proof (lookup_lt_Some _ _ _ Hpx) as Hlt.
  induction Hpath as [y Hy|y p r d Hy Hp Hpath IH].
  - case_decide as Hc.
    + subst y. exists 1. eapply path_step; [by apply list_lookup_insert_eq|done|].
      constructor. by rewrite list_lookup_insert_ne.
    + exists 0. constructor. by rewrite list_lookup_insert_ne.
  - assert (y ≠ px) as Hne' by (intros ->; simplify_eq).
    destruct IH as [d' IH]. exists (S d').
    eapply path_step; [by rewrite list_lookup_insert_ne|done|done].
Qed.

(** The classes after [union(x, y)]: the old ones, with the classes of
    [x] and [y] joined. *)
Lemma union_same fuel parent x y :
  forest parent → x < length parent → y < length parent →
  length parent ≤ fuel →
  ∃ parent', MergeByUrls.union fuel parent x y = Some parent' ∧
    length parent' = length parent ∧ forest parent' ∧
    ∀ a b, same parent' a b ↔
           same parent a b ∨ (same parent a x ∧ same parent y b) ∨
           (same parent a y ∧ same parent x b).
Proof.
  intros Hf Hx Hy Hfuel. unfold MergeByUrls.union.
  destruct (find_same fuel parent x Hf Hx Hfuel)
    as (parent1 & px & -> & Hlen1 & Hf1 & Hpx & Hiff1). simpl.
  destruct (find_same fuel parent1 y Hf1 ltac:(lia) ltac:(lia))
    as (parent2 & py & -> & Hlen2 & Hf2 & Hpy & Hiff2). simpl.
  apply Hiff1 in Hpy.
  assert (∀ z r, root_of parent2 z r ↔ root_of parent z r) as Hiff.
  { intros z r. by rewrite Hiff2, Hiff1. }
  assert (∀ a b, same parent2 a b ↔ same parent a b) as Hsame.
  { intros a b. unfold same. by setoid_rewrite Hiff. }
  clear Hiff1 Hiff2.
  destruct (decide (px ≠ py)) as [Hne|Heq].
  - assert (parent2 !! px = Some px) as Hpx2.
    { eapply root_of_root. apply Hiff. exact Hpx. }
    assert (parent2 !! py = Some py) as Hpy2.
    { eapply root_of_root. apply Hiff. exact Hpy. }
    rewrite Hpx2. simpl. eexists. split; [done|].
    split; [rewrite length_insert; lia|].
    split; [by apply link_forest|].
    intros a b. split.
    + intros (r & Ha & Hb).
      pose proof (root_of_lt _ _ _ Ha) as Ha'. pose proof (root_of_lt _ _ _ Hb) as Hb'.
      rewrite length_insert in Ha', Hb'.
      destruct (Hf2 a Ha') as (ra & Hra). destruct (Hf2 b Hb') as (rb & Hrb).
      pose proof (link_root_of _ _ _ _ _ Hpx2 Hpy2 Hne Hra) as Ha2.
      pose proof (link_root_of _ _ _ _ _ Hpx2 Hpy2 Hne Hrb) as Hb2.
      pose proof (root_of_det _ _ _ _ Ha Ha2) as Hr1.
      pose proof (root_of_det _ _ _ _ Hb Hb2) as Hr2.
      apply Hiff in Hra, Hrb.
      destruct (decide (ra = px)) as [e1|n1], (decide (rb = px)) as [e2|n2].
      * left. assert (ra = rb) as -> by congruence. by exists rb.
      * right. left. assert (rb = py) as <- by congruence.
        rewrite e1 in Hra. split; [by exists px|by exists rb].
      * right. right. assert (ra = py) as <- by congruence.
        rewrite e2 in Hrb. split; [by exists ra|by exists px].
      * left. assert (ra = rb) as -> by congruence. by exists rb.
    + assert (∀ a, root_of parent a px → root_of (<[px:=py]> parent2) a py) as Hxa.
      { intros c Hc%Hiff. pose proof (link_root_of _ _ _ _ _ Hpx2 Hpy2 Hne Hc) as H.
        by rewrite decide_True in H. }
      assert (∀ a, root_of parent a py → root_of (<[px:=py]> parent2) a py) as Hya.
      { intros c Hc%Hiff. pose proof (link_root_of _ _ _ _ _ Hpx2 Hpy2 Hne Hc) as H.
        by rewrite decide_False in H by done. }
      intros [(r & Ha & Hb)|[[(r & Ha & Hx') (r' & Hy' & Hb)]|[(r & Ha & Hy') (r' & Hx' & Hb)]]].
      * apply Hiff in Ha, Hb.
        exists (if decide (r = px) then py else r).
        split; by apply link_root_of.
      * rewrite <-(root_of_det _ _ _ _ Hpx Hx') in Ha.
        rewrite <-(root_of_det _ _ _ _ Hpy Hy') in Hb.
        exists py. auto.
      * rewrite <-(root_of_det _ _ _ _ Hpy Hy') in Ha.
        rewrite <-(root_of_det _ _ _ _ Hpx Hx') in Hb.
        exists py. auto.
  - assert (px = py) as <- by (destruct (decide (px = py)); [done|by destruct Heq]).
    exists parent2. split; [done|]. split; [lia|]. split; [done|].
    intros a b. rewrite Hsame. split; [auto|].
    intros [?|[[Ha Hb]|[Ha Hb]]]; [done|..].
    + eapply same_trans; [exact Ha|]. eapply same_trans; [|exact Hb]. by exists px.
    + eapply same_trans; [exact Ha|]. eapply same_trans; [|exact Hb]. by exists px.
Qed.
End Classes.

Section Unions.
Local Open Scope nat_scope.
(** [R] stands for any symmetric and transitive relation that the unions
    are allowed to realise. *)
Variable R : nat → nat → Prop.
Hypothesis R_sym : ∀ a b, R a b → R b a.
Hypothesis R_trans : ∀ a b c, R a b → R b c → R a c.

Lemma union_all_same fuel parent first_idx rest :
  forest parent → first_idx < length parent →
  Forall (λ i, i < length parent) rest → length parent ≤ fuel →
  ∃ parent', MergeByUrls.union_all fuel parent first_idx rest = Some parent' ∧
    length parent' = length parent ∧ forest parent' ∧
    (∀ a b, same parent a b → same parent' a b) ∧
    (∀ i, i ∈ rest → same parent' first_idx i) ∧
    ((∀ a b, same parent a b → R a b) → (∀ i, i ∈ rest → R first_idx i) →
     ∀ a b, same parent' a b → R a b).
Proof.
  intros Hf Hfirst Hrest Hfuel. revert parent Hf Hfirst Hrest Hfuel.
  induction rest as [|i rest IH]; intros parent Hf Hfirst Hrest Hfuel; simpl.
  - exists parent. repeat split; [done|done| |auto].
    intros i Hi. by apply elem_of_nil in Hi.
  - apply Forall_cons_1 in Hrest as [Hi Hrest].
    destruct (union_same fuel parent first_idx i) as (parent1 & -> & Hlen & Hf1 & Hsame);
      [done..|]. simpl.
    destruct (IH parent1) as (parent2 & -> & Hlen2 & Hf2 & Hmono & Hjoin & Hsound);
      try done; try lia.
    { by rewrite Hlen. }
    exists parent2. split; [done|]. split; [lia|]. split; [done|].
    split; [|split].
    + intros a b Hab. apply Hmono, Hsame. by left.
    + intros j [->|Hj]%elem_of_cons; [|by apply Hjoin].
      apply Hmono, Hsame. right. left.
      split; apply same_refl; (done || lia).
    + intros HR Hlink a b. apply Hsound.
      * intros c e [?|[[Hc He]|[Hc He]]]%Hsame; [by apply HR|..].
        -- eapply R_trans; [by apply HR|].
           eapply R_trans; [|by apply HR]. apply Hlink. left.
        -- eapply R_trans; [by apply HR|].
           eapply R_trans; [|by apply HR]. apply R_sym, Hlink. left.
      * intros j Hj. apply Hlink. by right.
Qed.

Lemma union_shared_same {K} fuel parent (dict : list (K * list nat)) :
  forest parent →
  Forall (λ kv, Forall (λ i, i < length parent) kv.2) dict →
  length parent ≤ fuel →
  ∃ parent', MergeByUrls.union_shared fuel parent dict = Some parent' ∧
    length parent' = length parent ∧ forest parent' ∧
    (∀ a b, same parent a b → same parent' a b) ∧
    (∀ a b, linked dict a b → same parent' a b) ∧
    ((∀ a b, same parent a b → R a b) → (∀ a b, linked dict a b → R a b) →
     ∀ a b, same parent' a b → R a b).
Proof.
  intros Hf Hd Hfuel. revert parent Hf Hd Hfuel.
  induction dict as [|[k idxs] dict IH]; intros parent Hf Hd Hfuel.
  - exists parent. repeat split; [done|done| |auto].
    intros a b (k & idxs & Hin & _). by apply elem_of_nil in Hin.
  - apply Forall_cons_1 in Hd as [Hidxs Hd]. simpl in Hidxs.
    assert (∃ parent1,
              (match idxs with
               | first_idx :: ((_ :: _) as rest) =>
                   MergeByUrls.union_all fuel parent first_idx rest
               | _ => Some parent
               end) = Some parent1 ∧
              length parent1 = length parent ∧ forest parent1 ∧
              (∀ a b, same parent a b → same parent1 a b) ∧
              (∀ a b, a ∈ idxs → b ∈ idxs → same parent1 a b) ∧
              ((∀ a b, same parent a b → R a b) →
               (∀ a b, a ∈ idxs → b ∈ idxs → R a b) →
               ∀ a b, same parent1 a b → R a b))
      as (parent1 & Hstep & Hlen & Hf1 & Hmono1 & Hjoin1 & Hsound1).
    { destruct idxs as [|first_idx [|i rest]].
      - exists parent. repeat split; [done|done| |auto].
        intros a b Ha. by apply elem_of_nil in Ha.
      - exists parent. repeat split; [done|done| |auto].
        intros a b ->%list_elem_of_singleton ->%list_elem_of_singleton.
        apply same_refl; [done|]. by apply Forall_cons_1 in Hidxs as [? _].
      - apply Forall_cons_1 in Hidxs as [Hfirst Hrest].
        destruct (union_all_same fuel parent first_idx (i :: rest))
          as (parent1 & -> & Hlen & Hf1 & Hmono & Hjoin & Hsound); [done..|].
        exists parent1. split; [done|]. split; [done|]. split; [done|].
        split; [done|]. split.
        + assert (∀ a, a ∈ first_idx :: i :: rest → same parent1 first_idx a) as Hall.
          { intros a [->|Ha]%elem_of_cons; [|by apply Hjoin].
            apply same_refl; [done|lia]. }
          intros a b Ha%Hall Hb%Hall.
          eapply same_trans; [by apply same_sym|done].
        + intros HR Hlink. apply Hsound; [done|].
          intros j Hj. apply Hlink; [left|by right]. }
    assert (MergeByUrls.union_shared fuel parent ((k, idxs) :: dict)
            = parent' ← Some parent1; MergeByUrls.union_shared fuel parent' dict)
      as ->.
    { rewrite <-Hstep. by destruct idxs as [|? [|? ?]]. }
    simpl.
    destruct (IH parent1) as (parent2 & -> & Hlen2 & Hf2 & Hmono & Hjoin & Hsound);
      try done; try lia.
    { by rewrite Hlen. }
    exists parent2. split; [done|]. split; [lia|]. split; [done|].
    split; [|split].
    + intros a b Hab. by apply Hmono, Hmono1.
    + intros a b (k' & idxs' & [[= -> ->]|Hin]%elem_of_cons & Ha & Hb).
      * by apply Hmono, Hjoin1.
      * apply Hjoin. by exists k', idxs'.
    + intros HR Hlink. apply Hsound.
      * apply Hsound1; [done|]. intros a b Ha Hb. apply Hlink.
        exists k, idxs. split; [left|done].
      * intros a b (k' & idxs' & Hin & Ha & Hb). apply Hlink.
        exists k', idxs'. split; [by right|done].
Qed.
End Unions.

Section GroupClasses.
Local Open Scope nat_scope.

Lemma dict_append_rel {K} `{EqDecision K} {V} (P : K → V → Prop) k v
    (d : list (K * list V)) :
  P k v → Forall (λ g, Forall (P g.1) g.2) d →
  Forall (λ g, Forall (P g.1) g.2) (MergeByUrls.dict_append k v d).
Proof.
  intros Hv. induction 1 as [|[k' vs] d Hvs Hd IH]; simpl.
  - repeat constructor. done.
  - case_decide; subst; constructor; simpl; try done.
    apply Forall_app. split; [done|]. by constructor.
Qed.

Lemma elem_of_concat {A} (x : A) (ls : list (list A)) :
  x ∈ concat ls ↔ ∃ l, x ∈ l ∧ l ∈ ls.
Proof.
  induction ls as [|l ls IH]; simpl.
  - split; [by intros ?%elem_of_nil|]. intros (l & _ & Hl). by apply elem_of_nil in Hl.
  - rewrite elem_of_app, IH. split.
    + intros [?|(l' & ? & ?)]; [exists l; split; [done|left]|].
      exists l'. split; [done|by right].
    + intros (l' & Hx & [->|?]%elem_of_cons); [by left|]. right. by exists l'.
Qed.

Lemma unique_entry {K V} (l : list (K * V)) k v1 v2 :
  NoDup l.*1 → (k, v1) ∈ l → (k, v2) ∈ l → v1 = v2.
Proof.
  induction l as [|[k' v'] l IH]; simpl; intros Hnd H1 H2.
  - by apply elem_of_nil in H1.
  - pose proof (NoDup_cons_1_1 _ _ Hnd) as Hk. pose proof (NoDup_cons_1_2 _ _ Hnd).
    assert (∀ v, (k', v) ∈ l → False) as Hfresh.
    { intros v Hv. apply Hk. apply list_elem_of_fmap. by exists (k', v). }
    apply elem_of_cons in H1 as [[= -> ->]|H1], H2 as [[= <-]|H2]; try done.
    + by destruct (Hfresh v2).
    + subst. by destruct (Hfresh v1).
    + by apply IH.
Qed.

(** Every member of a collected group is represented by the group's key. *)
Lemma collect_roots fuel parent indices groups result :
  forest parent → Forall (λ i, i < length parent) indices →
  length parent ≤ fuel →
  MergeByUrls.collect fuel parent indices groups = Some result →
  Forall (λ g, Forall (λ i, root_of parent i g.1) g.2) groups →
  Forall (λ g, Forall (λ i, root_of parent i g.1) g.2) result.
Proof.
  revert parent groups. induction indices as [|i indices IH];
    intros parent groups Hf Hidx Hfuel; simpl.
  - by intros [= <-].
  - apply Forall_cons_1 in Hidx as [Hi Hidx].
    destruct (find_same fuel parent i Hf Hi Hfuel)
      as (parent' & root & -> & Hlen & Hf' & Hroot & Hiff). simpl.
    intros Hres Hgroups.
    assert (∀ gs : list (nat * list nat),
              Forall (λ g, Forall (λ i, root_of parent i g.1) g.2) gs ↔
              Forall (λ g, Forall (λ i, root_of parent' i g.1) g.2) gs) as Hswap.
    { intros gs. apply Forall_proper; [|done]. intros g.
      apply Forall_proper; [|done]. intros j. by rewrite Hiff. }
    apply Hswap. eapply IH; [done| |lia|done|].
    + by rewrite Hlen.
    + apply Hswap. by apply (dict_append_rel (λ k v, root_of parent v k)).
Qed.

(** The groups are the classes of the relation generated by the keys. *)
Lemma group_indices_classes {K} n (dict : list (K * list nat)) groups i j :
  Forall (λ kv, Forall (λ i, i < n) kv.2) dict →
  MergeByUrls.group_indices n dict = Some groups →
  (∃ g, g ∈ groups ∧ i ∈ g.2 ∧ j ∈ g.2) ↔
  i < n ∧ j < n ∧ rtsc (linked dict) i j.
Proof.
  intros Hd. unfold MergeByUrls.group_indices.
  destruct (union_shared_same (rtsc (linked dict))
              ltac:(intros ???; by symmetry) ltac:(intros ?????; by etrans)
              n (seq 0 n) dict)
    as (parent & -> & Hlen & Hf & _ & Hjoin & Hsound).
  { apply forest_initial. }
  { by rewrite length_seq. }
  { by rewrite length_seq. }
  simpl. rewrite length_seq in Hlen. intros Hcollect.
  assert (Forall (λ i, i < length parent) (seq 0 n)) as Hidx.
  { rewrite Hlen. apply list.Forall_forall. intros k Hk%elem_of_seq. lia. }
  destruct (collect_spec n parent (seq 0 n) [] Hf Hidx ltac:(lia))
    as (groups' & Hcollect' & Hperm & Hnd & _).
  rewrite Hcollect in Hcollect'. injection Hcollect' as <-.
  specialize (Hnd (NoDup_nil_2)).
  pose proof (collect_roots n parent (seq 0 n) [] groups Hf Hidx ltac:(lia)
                Hcollect ltac:(constructor)) as Hroots.
  assert (∀ g x, g ∈ groups → x ∈ g.2 → root_of parent x g.1) as Hroot.
  { intros g x Hg Hx. rewrite list.Forall_forall in Hroots.
    specialize (Hroots g Hg). rewrite list.Forall_forall in Hroots. auto. }
  assert (∀ x, x < n → ∃ g, g ∈ groups ∧ x ∈ g.2) as Hcover.
  { intros x Hx. assert (x ∈ concat groups.*2) as Hin.
    { rewrite Hperm. apply elem_of_seq. lia. }
    apply elem_of_concat in Hin as (l & Hxl & Hl).
    apply list_elem_of_fmap in Hl as (g & -> & Hg). eauto. }
  assert (∀ a b, same parent a b ↔ a < n ∧ b < n ∧ rtsc (linked dict) a b) as Hclass.
  { intros a b. split.
    - intros Hab. split; [|split].
      + destruct Hab as (r & Ha & _). rewrite <-Hlen. by eapply root_of_lt.
      + destruct Hab as (r & _ & Hb). rewrite <-Hlen. by eapply root_of_lt.
      + apply Hsound; [|by apply rtsc_lr|done].
        intros c e ->%same_initial. done.
    - intros (Ha & Hb & Hab). revert Ha Hb.
      induction Hab as [a|a c b Hac Hcb IH]; intros Ha Hb.
      + apply same_refl; [done|lia].
      + assert (same parent a c) as Hsame.
        { destruct Hac as [Hac|Hca]; [by apply Hjoin|by apply same_sym, Hjoin]. }
        eapply same_trans; [done|]. apply IH; [|done].
        destruct Hsame as (r & _ & Hc). rewrite <-Hlen. by eapply root_of_lt. }
  rewrite <-Hclass. split.
  - intros (g & Hg & Hi & Hj). exists g.1. split; by apply Hroot.
  - intros (r & Hi & Hj).
    destruct (Hcover i) as (g & Hg & Hig).
    { rewrite <-Hlen. by eapply root_of_lt. }
    destruct (Hcover j) as (g' & Hg' & Hjg).
    { rewrite <-Hlen. by eapply root_of_lt. }
    pose proof (root_of_det _ _ _ _ Hi (Hroot _ _ Hg Hig)) as Hr.
    pose proof (root_of_det _ _ _ _ Hj (Hroot _ _ Hg' Hjg)) as Hr'.
    destruct g as [k vs], g' as [k' vs']. simpl in *. subst k k'.
    rewrite (unique_entry groups r vs vs' Hnd Hg Hg') in *. eauto.
Qed.
End GroupClasses.

Section KeyedRecords.
Local Open Scope nat_scope.
Variable host_ok : string → bool.

Lemma rtsc_mono {A} (R1 R2 : relation A) a b :
  (∀ x y, R1 x y → R2 x y) → rtsc R1 a b → rtsc R2 a b.
Proof.
  intros Hsub. induction 1 as [a|a c b Hac _ IH]; [done|].
  eapply rtc_l; [|done]. destruct Hac; [left|right]; auto.
Qed.

Lemma index_fold_sound (all : list org) i0 (ks : list MergeByUrls.key_url) d :
  (∀ x, x ∈ ks → has_key host_ok all i0 x.1.2) →
  Forall (λ g, Forall (λ i, has_key host_ok all i g.1) g.2) d →
  Forall (λ g, Forall (λ i, has_key host_ok all i g.1) g.2)
         (foldl (λ d (x : MergeByUrls.key_url), MergeByUrls.dict_append x.1.2 i0 d) d ks).
Proof.
  revert d. induction ks as [|x ks IH]; intros d Hks Hd; simpl; [done|].
  apply IH; [intros y Hy; apply Hks; by right|].
  apply (dict_append_rel (λ k v, has_key host_ok all v k)); [|done].
  apply Hks. left.
Qed.

Lemma index_urls_sound (all : list org) orgs i0 d :
  (∀ j o, orgs !! j = Some o → all !! (i0 + j) = Some o) →
  Forall (λ g, Forall (λ i, has_key host_ok all i g.1) g.2) d →
  Forall (λ g, Forall (λ i, has_key host_ok all i g.1) g.2)
         (MergeByUrls.index_urls host_ok i0 orgs d).
Proof.
  revert i0 d. induction orgs as [|o orgs IH]; intros i0 d Hall Hd; simpl; [done|].
  apply IH.
  - intros j o' Hj. replace (S i0 + j) with (i0 + S j) by lia. by apply Hall.
  - apply index_fold_sound; [|done]. intros x Hx. exists o, x.
    split; [|done]. specialize (Hall 0 o eq_refl). by rewrite Nat.add_0_r in Hall.
Qed.

Lemma index_fold_keeps i0 (ks : list MergeByUrls.key_url)
    (d : list (string * list nat)) k idxs (v : nat) :
  (k, idxs) ∈ d → v ∈ idxs →
  ∃ idxs', (k, idxs') ∈ foldl (λ d (x : MergeByUrls.key_url),
                                 MergeByUrls.dict_append x.1.2 i0 d) d ks ∧
           v ∈ idxs'.
Proof.
  revert d idxs. induction ks as [|x ks IH]; intros d idxs Hin Hv; simpl; [eauto|].
  destruct (dict_append_old x.1.2 k i0 v d idxs Hin Hv) as (idxs' & ? & ?).
  by eapply IH.
Qed.

Lemma index_fold_adds i0 (ks : list MergeByUrls.key_url)
    (d : list (string * list nat)) x :
  x ∈ ks →
  ∃ idxs, (x.1.2, idxs) ∈ foldl (λ d (x : MergeByUrls.key_url),
                                   MergeByUrls.dict_append x.1.2 i0 d) d ks ∧
          i0 ∈ idxs.
Proof.
  revert d. induction ks as [|y ks IH]; intros d Hx; simpl.
  - by apply elem_of_nil in Hx.
  - apply elem_of_cons in Hx as [->|Hx]; [|by apply IH].
    destruct (dict_append_new y.1.2 i0 d) as (idxs & ? & ?).
    by eapply index_fold_keeps.
Qed.

Lemma index_urls_keeps orgs i0 (d : list (string * list nat)) k idxs (v : nat) :
  (k, idxs) ∈ d → v ∈ idxs →
  ∃ idxs', (k, idxs') ∈ MergeByUrls.index_urls host_ok i0 orgs d ∧ v ∈ idxs'.
Proof.
  revert i0 d idxs. induction orgs as [|o orgs IH]; intros i0 d idxs Hin Hv;
    simpl; [eauto|].
  destruct (index_fold_keeps i0 (MergeByUrls.extract_key_urls host_ok o) d k idxs v Hin Hv)
    as (idxs' & ? & ?).
  by eapply IH.
Qed.

Lemma index_urls_complete orgs i0 d j o x :
  orgs !! j = Some o → x ∈ MergeByUrls.extract_key_urls host_ok o →
  ∃ idxs, (x.1.2, idxs) ∈ MergeByUrls.index_urls host_ok i0 orgs d ∧
          (i0 + j) ∈ idxs.
Proof.
  revert i0 d j. induction orgs as [|o' orgs IH]; intros i0 d j Hj Hx; [done|].
  destruct j as [|j]; simpl in *.
  - injection Hj as ->. rewrite Nat.add_0_r.
    destruct (index_fold_adds i0 _ d x Hx) as (idxs & ? & ?).
    by eapply index_urls_keeps.
  - replace (i0 + S j) with (S i0 + j) by lia. by apply IH.
Qed.

Lemma index_urls_NoDup orgs i0 (d : list (string * list nat)) :
  NoDup d.*1 → NoDup (MergeByUrls.index_urls host_ok i0 orgs d).*1.
Proof.
  revert i0 d. induction orgs as [|o orgs IH]; intros i0 d Hd; simpl; [done|].
  apply IH. generalize (MergeByUrls.extract_key_urls host_ok o). intros ks.
  revert d Hd. induction ks as [|x ks IHks]; intros d Hd; simpl; [done|].
  by apply IHks, dict_append_NoDup.
Qed.

(** Two indices stand under a common key of the URL dictionary exactly
    when the two records carry a common key. *)
Lemma linked_shares_key orgs i j :
  linked (MergeByUrls.url_to_orgs host_ok orgs) i j ↔ shares_key host_ok orgs i j.
Proof.
  unfold MergeByUrls.url_to_orgs. split.
  - intros (k & idxs & Hin & Hi & Hj).
    pose proof (index_urls_sound orgs orgs 0 [] (λ j o H, H) (Forall_nil_2 _)) as Hs.
    rewrite list.Forall_forall in Hs. specialize (Hs _ Hin). simpl in Hs.
    rewrite list.Forall_forall in Hs. exists k. split; by apply Hs.
  - intros (k & (o1 & x1 & Ho1 & Hx1 & Hk1) & (o2 & x2 & Ho2 & Hx2 & Hk2)).
    destruct (index_urls_complete orgs 0 [] i o1 x1 Ho1 Hx1) as (idxs1 & Hin1 & Hi).
    destruct (index_urls_complete orgs 0 [] j o2 x2 Ho2 Hx2) as (idxs2 & Hin2 & Hj).
    rewrite Hk1 in Hin1. rewrite Hk2 in Hin2. simpl in Hi, Hj.
    pose proof (index_urls_NoDup orgs 0 [] (NoDup_nil_2)) as Hnd.
    rewrite (unique_entry _ _ _ _ Hnd Hin1 Hin2) in Hi.
    by exists k, idxs2.
Qed.
End KeyedRecords.

(** C4 (as stated, refuted): in the union-find grouping of
    merge_by_urls.py two records whose only common key is the shared host
    medium.com are put into one group; the normaliser of that script
    answers [web:medium.com] for both.  The normaliser of
    merge_with_api_names.py compares the whole network location with its
    denylist, so a denylisted host followed by a port keeps its key. *)
Lemma shared_medium_host_is_unioned :
  MergeByUrls.normalize_url any_host "https://medium.com/alpha" = Some "web:medium.com" ∧
  MergeByUrls.groups_of any_host
    [record "Alpha" (Some "https://medium.com/alpha") [2016];
     record "Beta" (Some "https://medium.com/beta") [2017]]
  = Some [(1%nat, [0%nat; 1%nat])] ∧
  MergeWithApiNames.normalize_url any_host "https://medium.com:443/x"
  = Some "web:medium.com:443".
Proof. by vm_compute. Qed.

(** C4 (amended): the normaliser of merge_with_api_names.py returns null
    for every URL whose domain, as it computes it (the network location
    of the cleaned URL, or the first path segment where there is none,
    without "www."), is one of its six denylisted hosts.  In
    merge_by_urls.py, where the union-find grouping lives, the normaliser
    has no denylist; the key extraction drops a website key on
    groups.google.com or plus.google.com, so no key of the URL dictionary,
    and hence no union, comes from these two hosts: in any collection, a
    record whose only URL is a website on one of them is alone in its
    group. *)
Theorem denylisted_host_gives_no_key (host_ok : string → bool) :
  (∀ url parsed,
     parsed_input host_ok url = Some parsed →
     domain_of parsed ∈ MergeWithApiNames.denylist →
     MergeWithApiNames.normalize_url host_ok url = None) ∧
  (∀ orgs key idxs,
     (key, idxs) ∈ MergeByUrls.url_to_orgs host_ok orgs →
     Py.startswith "web:groups.google.com" key = false ∧
     Py.startswith "web:plus.google.com" key = false) ∧
  (∀ orgs groups g i j o w parsed,
     MergeByUrls.groups_of host_ok orgs = Some groups →
     orgs !! i = Some o →
     truthy (website o) = Some w → no_social_urls o →
     parsed_input host_ok w = Some parsed →
     domain_of parsed ∈ ["groups.google.com"; "plus.google.com"] →
     g ∈ groups → i ∈ g.2 → j ∈ g.2 → j = i).
Proof.
  split; [|split].
  - intros url parsed Hparse Hd.
    destruct (denylist_plain _ Hd) as (Hg & Ht & Hx & _).
    rewrite normalize_url_api_unfold, Hparse; simpl.
    rewrite Hg, Ht, Hx; simpl.
    rewrite bool_decide_eq_false_2; [|by intros ?]. by rewrite andb_false_r.
  - intros orgs key idxs Hin.
    destruct (index_urls_keys _ _ _ _ _ _ Hin) as [Hk|(o & x & _ & Hx & <-)].
    + by apply elem_of_nil in Hk.
    + by eapply extract_key_urls_filtered.
  - intros orgs groups g i j o w parsed Hg Ho Hw Hsoc Hparse Hd Hin Hi Hj.
    pose proof (google_host_no_key host_ok o w parsed Hw Hsoc Hparse Hd) as Hnone.
    assert (Forall (λ kv : string * list nat, Forall (λ i, i < length orgs)%nat kv.2)
                   (MergeByUrls.url_to_orgs host_ok orgs)) as Hb.
    { apply index_urls_bounded; [simpl; lia|constructor]. }
    destruct (proj1 (group_indices_classes _ _ _ i j Hb Hg)) as (_ & _ & Hl); [eauto|].
    apply rtc_inv in Hl as [->|(c & Hic & _)]; [done|]. exfalso.
    assert (∃ k, has_key host_ok orgs i k) as (k & o' & x & Ho' & Hx & _).
    { destruct Hic as [Hl|Hl]; apply linked_shares_key in Hl as (k & ? & ?); eauto. }
    rewrite Ho in Ho'. injection Ho' as <-. rewrite Hnone in Hx.
    by apply elem_of_nil in Hx.
Qed.

Lemma denylisted_host_gives_no_key_witness :
  MergeWithApiNames.normalize_url any_host "https://medium.com/alpha" = None ∧
  (Py.startswith "web:groups.google.com" "web:kodi.tv" = false ∧
   Py.startswith "web:plus.google.com" "web:kodi.tv" = false) ∧
  MergeByUrls.groups_of any_host listed_records
  = Some [(2%nat, [0%nat; 2%nat]); (1%nat, [1%nat]); (3%nat, [3%nat])] ∧
  ∀ g j, g ∈ [(2%nat, [0%nat; 2%nat]); (1%nat, [1%nat]); (3%nat, [3%nat])] →
         1%nat ∈ g.2 → j ∈ g.2 → j = 1%nat.
Proof.
  split; [|split; [|split; [by vm_compute|]]].
  - exact (proj1 (denylisted_host_gives_no_key any_host)
             "https://medium.com/alpha"
             {| Url.scheme := "https"; Url.netloc := "medium.com";
                Url.path := "/alpha" |}
             eq_refl ltac:(vm_compute; set_solver)).
  - refine (proj1 (proj2 (denylisted_host_gives_no_key any_host))
              [record "Kodi" (Some "https://kodi.tv") [2016];
               record "Lists" (Some "https://groups.google.com/forum") [2016]]
              "web:kodi.tv" [0%nat] _).
    vm_compute. left.
  - intros g j.
    refine (proj2 (proj2 (denylisted_host_gives_no_key any_host))
              listed_records _ g 1%nat j _
              "https://groups.google.com/forum/kodi"
              {| Url.scheme := "https"; Url.netloc := "groups.google.com";
                 Url.path := "/forum/kodi" |} _ _ _ _ _ _).
    + by vm_compute.
    + reflexivity.
    + reflexivity.
    + exact I.
    + by vm_compute.
    + left.
Defined.

(** X1: records connected by a chain of shared normalized keys (website
    host, GitHub handle, Twitter handle) are put into the same group by
    the grouping of merge_by_urls.py. *)
Theorem shared_keys_grouped (host_ok : string → bool) (orgs : list org)
    (groups : list (nat * list nat)) (i j : nat) :
  MergeByUrls.groups_of host_ok orgs = Some groups →
  (i < length orgs)%nat →
  rtsc (shares_key host_ok orgs) i j →
  ∃ g, g ∈ groups ∧ i ∈ g.2 ∧ j ∈ g.2.
Proof.
  intros Hg Hi Hchain.
  assert (Forall (λ kv : string * list nat, Forall (λ i, i < length orgs)%nat kv.2)
                 (MergeByUrls.url_to_orgs host_ok orgs)) as Hb.
  { apply index_urls_bounded; [simpl; lia|constructor]. }
  apply (group_indices_classes _ _ _ i j Hb Hg).
  assert (rtsc (linked (MergeByUrls.url_to_orgs host_ok orgs)) i j) as Hl.
  { eapply rtsc_mono; [|done]. intros x y. by apply linked_shares_key. }
  split; [done|]. split; [|done].
  clear Hchain. revert Hi. induction Hl as [a|a c b Hac _ IH]; [done|].
  intros _. apply IH.
  assert (linked (MergeByUrls.url_to_orgs host_ok orgs) a c ∨
          linked (MergeByUrls.url_to_orgs host_ok orgs) c a) as Hl' by exact Hac.
  assert (∃ k idxs, (k, idxs) ∈ MergeByUrls.url_to_orgs host_ok orgs ∧ c ∈ idxs)
    as (k & idxs & Hin & Hc).
  { destruct Hl' as [(k & idxs & ? & ? & ?)|(k & idxs & ? & ? & ?)]; eauto. }
  rewrite list.Forall_forall in Hb. specialize (Hb _ Hin). simpl in Hb.
  rewrite list.Forall_forall in Hb. by apply Hb.
Qed.

(** X2: the grouping of merge_by_urls.py joins nothing else: two records
    of one group are connected by a chain of records in which
    neighbours carry a common normalized key. *)
Theorem grouped_only_by_keys (host_ok : string → bool) (orgs : list org)
    (groups : list (nat * list nat)) (g : nat * list nat) (i j : nat) :
  MergeByUrls.groups_of host_ok orgs = Some groups →
  g ∈ groups → i ∈ g.2 → j ∈ g.2 →
  rtsc (shares_key host_ok orgs) i j.
Proof.
  intros Hg Hin Hi Hj.
  assert (Forall (λ kv : string * list nat, Forall (λ i, i < length orgs)%nat kv.2)
                 (MergeByUrls.url_to_orgs host_ok orgs)) as Hb.
  { apply index_urls_bounded; [simpl; lia|constructor]. }
  destruct (proj1 (group_indices_classes _ _ _ i j Hb Hg)) as (_ & _ & Hl); [eauto|].
  eapply rtsc_mono; [|done]. intros x y. by apply linked_shares_key.
Qed.

Lemma shared_keys_grouped_witness :
  MergeByUrls.groups_of any_host chained_records = Some [(2%nat, [0; 1; 2]%nat)] ∧
  ∃ g, g ∈ [(2%nat, [0; 1; 2]%nat)] ∧ 0%nat ∈ g.2 ∧ 2%nat ∈ g.2.
Proof.
  split; [by vm_compute|].
  refine (shared_keys_grouped any_host chained_records _ 0 2 eq_refl _ _).
  - simpl. lia.
  - apply rtc_l with 1%nat; [left|apply rtc_once; left].
    + exists "web:kodi.tv". split.
      * eexists _, ("website", "web:kodi.tv", "http://kodi.tv").
        split; [reflexivity|]. split; [vm_compute; left|done].
      * eexists _, ("website", "web:kodi.tv", "https://www.kodi.tv/").
        split; [reflexivity|]. split; [vm_compute; left|done].
    + exists "github:xbmc". split.
      * eexists _, ("github", "github:xbmc", "https://github.com/xbmc").
        split; [reflexivity|]. split; [vm_compute; right; left|done].
      * eexists _, ("github", "github:xbmc", "github.com/XBMC/").
        split; [reflexivity|]. split; [vm_compute; left|done].
Defined.

Lemma grouped_only_by_keys_witness :
  rtsc (shares_key any_host chained_records) 0%nat 2%nat.
Proof.
  refine (grouped_only_by_keys any_host chained_records _ (2%nat, [0; 1; 2]%nat)
            0 2 eq_refl _ _ _).
  - left.
  - left.
  - right. right. left.
Defined.

Section AlignLoop.
Variable sm_ratio : string → string → Q.
Variable table : gmap string string.
Variable api_orgs : list api_org.

Lemma best_fold_member our_org_name st (l : list api_org) c r :
  foldl (AlignWithApi.best_step sm_ratio our_org_name) st l = (Some c, r) →
  st.1 = Some c ∨ c ∈ l.
Proof.
  revert st. induction l as [|x l IH]; intros st; simpl.
  - intros ->. by left.
  - intros [Hst|?]%IH; [|right; by right].
    unfold AlignWithApi.best_step in Hst.
    destruct (negb _); [by left|].
    destruct (AlignWithApi.Qlt_bool _ _); [|by left].
    injection Hst as ->. right. left.
Qed.

Lemma resolve_api_name our_name target :
  AlignWithApi.resolve sm_ratio table api_orgs our_name = Some target →
  target ∈ api_name <$> api_orgs.
Proof.
  unfold AlignWithApi.resolve, AlignWithApi.manual_target.
  destruct (table !! our_name) as [mapped|] eqn:Hm; simpl.
  - case_bool_decide as Hin.
    + intros [= <-]. by apply api_by_name_is_Some.
    + case_bool_decide as Hin'; [intros [= <-]; by apply api_by_name_is_Some|].
      unfold AlignWithApi.find_best_api_match.
      destruct (foldl _ _ api_orgs) as [b r] eqn:Hfold.
      destruct (Qle_bool _ _); simpl; [|done].
      destruct b as [c|]; [|done]. intros [= <-].
      apply best_fold_member in Hfold as [?|?]; [done|].
      apply list_elem_of_fmap. by exists c.
  - case_bool_decide as Hin'; [intros [= <-]; by apply api_by_name_is_Some|].
    unfold AlignWithApi.find_best_api_match.
    destruct (foldl _ _ api_orgs) as [b r] eqn:Hfold.
    destruct (Qle_bool _ _); simpl; [|done].
    destruct b as [c|]; [|done]. intros [= <-].
    apply best_fold_member in Hfold as [?|?]; [done|].
    apply list_elem_of_fmap. by exists c.
Qed.

(** What the matching loop keeps: the records seen so far are the
    grouped ones plus the unmatched ones, the counter counts the grouped
    ones, the group names are distinct API names and no group is empty. *)
Lemma dict_append_named {V} (P : string → Prop) (k : string) (v : V) d :
  P k → Forall (λ g, P g.1 ∧ g.2 ≠ []) d →
  Forall (λ g, P g.1 ∧ g.2 ≠ []) (MergeByUrls.dict_append k v d).
Proof.
  intros Hk. induction 1 as [|[k' vs] d [Hk' Hvs] Hd IH]; simpl.
  - by repeat constructor.
  - case_decide; subst; constructor; simpl; try done.
    split; [done|]. by destruct vs.
Qed.

Lemma align_step_state seen st o :
  aligned_state sm_ratio table api_orgs seen st →
  aligned_state sm_ratio table api_orgs (seen ++ [o]) (AlignWithApi.align_step sm_ratio table api_orgs st o).
Proof.
  intros (Hperm & Hcount & Hnd & Hnames & Hun & Hres).
  unfold AlignWithApi.align_step.
  destruct (AlignWithApi.resolve _ _ _ (name o)) as [target|] eqn:Hr; simpl.
  - repeat split; simpl.
    + rewrite dict_append_concat, <-Hperm.
      rewrite <-!(assoc_L (++)). f_equiv. apply Permutation_app_comm.
    + rewrite dict_append_concat, length_app, Hcount. simpl. lia.
    + by apply dict_append_NoDup.
    + apply (dict_append_named (λ k, k ∈ api_name <$> api_orgs)); [|done].
      by eapply resolve_api_name.
    + done.
    + by apply (dict_append_rel
                  (λ k v, AlignWithApi.resolve sm_ratio table api_orgs (name v) = Some k)).
  - repeat split; simpl; try done.
    + by rewrite (assoc_L (++)), Hperm.
    + apply Forall_app. split; [done|]. by constructor.
Qed.

Lemma align_state our_orgs :
  aligned_state sm_ratio table api_orgs our_orgs (AlignWithApi.align sm_ratio table api_orgs our_orgs).
Proof.
  unfold AlignWithApi.align.
  assert (∀ seen st rest, aligned_state sm_ratio table api_orgs seen st →
            aligned_state sm_ratio table api_orgs (seen ++ rest)
              (foldl (AlignWithApi.align_step sm_ratio table api_orgs) st rest)) as Hfold.
  { intros seen st rest. revert seen st.
    induction rest as [|o rest IH]; intros seen st Hst; simpl.
    - by rewrite app_nil_r.
    - rewrite (assoc_L (++) seen [o] rest : seen ++ o :: rest = (seen ++ [o]) ++ rest).
      by apply IH, align_step_state. }
  apply (Hfold [] _ our_orgs). repeat split; simpl; constructor.
Qed.
End AlignLoop.

Lemma insert_by_name_perm x l : AlignMain.insert_by_name x l ≡ₚ x :: l.
Proof.
  induction l as [|y l IH]; simpl; [done|].
  destruct (String.leb _ _); [done|]. rewrite IH. apply perm_swap.
Qed.

Lemma sort_by_name_perm l : AlignMain.sort_by_name l ≡ₚ l.
Proof.
  induction l as [|x l IH]; simpl; [done|].
  by rewrite insert_by_name_perm, IH.
Qed.

Section AlignedList.
Variable sm_ratio : string → string → Q.
Variable table : gmap string string.

Lemma dict_get_entry {V} (d : list (string * list V)) k vs :
  NoDup d.*1 → (k, vs) ∈ d → AlignMain.dict_get k d = vs.
Proof.
  induction d as [|[k' vs'] d IH]; simpl; intros Hnd Hin.
  - by apply elem_of_nil in Hin.
  - pose proof (NoDup_cons_1_1 _ _ Hnd) as Hk. pose proof (NoDup_cons_1_2 _ _ Hnd).
    apply elem_of_cons in Hin as [[= -> ->]|Hin].
    + by rewrite decide_True.
    + rewrite decide_False; [by apply IH|].
      intros ->. apply Hk. apply list_elem_of_fmap. by exists (k', vs).
Qed.

Lemma dict_get_found {V} (d : list (string * list V)) k :
  AlignMain.dict_get k d ≠ [] → (k, AlignMain.dict_get k d) ∈ d.
Proof.
  induction d as [|[k' vs'] d IH]; simpl; [done|].
  case_decide; subst; [left|]. intros ?. right. by apply IH.
Qed.

Lemma build_aligned_spec (groups : list (string * list org)) (api_orgs : list api_org)
    (merged : list org) :
  AlignMain.build_aligned groups api_orgs = Some merged →
    (∀ a, a ∈ api_orgs → AlignMain.dict_get (api_name a) groups ≠ [] →
          ∃ m, m ∈ merged ∧
               AlignWithApi.merge_orgs_for_api_match a
                 (AlignMain.dict_get (api_name a) groups) = Some m) ∧
    (∀ m, m ∈ merged →
          ∃ a, a ∈ api_orgs ∧ AlignMain.dict_get (api_name a) groups ≠ [] ∧
               AlignWithApi.merge_orgs_for_api_match a
                 (AlignMain.dict_get (api_name a) groups) = Some m) ∧
    (length merged ≤ length api_orgs)%nat.
Proof.
  revert merged. induction api_orgs as [|a rest IH]; intros merged; simpl.
  - intros [= <-]. repeat split; [| |done].
    + intros a Ha. by apply elem_of_nil in Ha.
    + intros m Hm. by apply elem_of_nil in Hm.
  - destruct (AlignMain.dict_get (api_name a) groups) as [|o l] eqn:Hg.
    + intros (Hin & Hout & Hlen)%IH. split; [|split].
      * intros a' [->|Ha']%elem_of_cons Hne; [by rewrite Hg in Hne|by apply Hin].
      * intros m (a' & ? & ? & ?)%Hout. exists a'. split; [by right|done].
      * simpl. lia.
    + destruct (AlignWithApi.merge_orgs_for_api_match a (o :: l)) as [m0|] eqn:Hm0;
        [|done]. cbn [mbind option_bind].
      destruct (AlignMain.build_aligned groups rest) as [merged'|]; [|done].
      destruct (IH merged' eq_refl) as (Hin & Hout & Hlen).
      cbn [mbind option_bind]. intros [= <-]. split; [|split].
      * intros a' [->|Ha']%elem_of_cons Hne.
        -- rewrite Hg. exists m0. split; [left|done].
        -- destruct (Hin a' Ha' Hne) as (m & ? & ?). exists m. split; [by right|done].
      * intros m [->|Hm]%elem_of_cons.
        -- exists a. rewrite Hg. split; [left|]. split; done.
        -- destruct (Hout m Hm) as (a' & ? & ? & ?). exists a'. split; [by right|done].
      * simpl. lia.
Qed.

(** The list is built when every group can be merged. *)
Lemma build_aligned_total (groups : list (string * list org)) (api_orgs : list api_org) :
  Forall (λ g, mergeable_for_api g.2) groups →
  is_Some (AlignMain.build_aligned groups api_orgs).
Proof.
  intros Hok. induction api_orgs as [|a rest [merged IH]]; simpl; [by eexists|].
  destruct (AlignMain.dict_get (api_name a) groups) as [|o l] eqn:Hg; [by eexists|].
  assert (mergeable_for_api (o :: l)) as Hol.
  { rewrite list.Forall_forall in Hok.
    apply (Hok (api_name a, o :: l)). rewrite <-Hg. apply dict_get_found.
    by rewrite Hg. }
  destruct (merge_for_api_spec a o l Hol) as (desc & short & -> & _).
  rewrite IH. by eexists.
Qed.
End AlignedList.

(** X3: whichever way a record's name is resolved by the matching loop of
    align_with_api.py (alias table, exact name or fuzzy match), the name
    it is filed under is the name of an entry of the authoritative list;
    an alias whose target is not in that list is never used. *)
Theorem resolved_name_is_authoritative (sm_ratio : string → string → Q)
    (table : gmap string string) (api_orgs : list api_org)
    (our_name target : string) :
  AlignWithApi.resolve sm_ratio table api_orgs our_name = Some target →
  target ∈ api_name <$> api_orgs.
Proof. apply resolve_api_name. Qed.

(** X4: the matching loop of align_with_api.py loses and duplicates no
    record: the grouped records together with the unmatched ones are a
    permutation of the input, [match_count] plus the number of unmatched
    records is the number of input records, and the groups are non-empty
    and filed under distinct authoritative names. *)
Theorem alignment_conserves_records (sm_ratio : string → string → Q)
    (table : gmap string string) (api_orgs : list api_org) (our_orgs : list org) :
  concat (AlignWithApi.api_groups (AlignWithApi.align sm_ratio table api_orgs our_orgs)).*2
    ++ AlignWithApi.unmatched_orgs (AlignWithApi.align sm_ratio table api_orgs our_orgs)
    ≡ₚ our_orgs ∧
  (AlignWithApi.match_count (AlignWithApi.align sm_ratio table api_orgs our_orgs)
   + length (AlignWithApi.unmatched_orgs
               (AlignWithApi.align sm_ratio table api_orgs our_orgs))
   = length our_orgs)%nat ∧
  NoDup (AlignWithApi.api_groups (AlignWithApi.align sm_ratio table api_orgs our_orgs)).*1 ∧
  Forall (λ g, g.1 ∈ api_name <$> api_orgs ∧ g.2 ≠ [])
         (AlignWithApi.api_groups (AlignWithApi.align sm_ratio table api_orgs our_orgs)).
Proof.
  destruct (align_state sm_ratio table api_orgs our_orgs)
    as (Hperm & Hcount & Hnd & Hnames & _).
  split; [done|]. split; [|done].
  rewrite Hcount, <-length_app. by rewrite Hperm.
Qed.

(** X5: align_with_api.py produces its output list when the first ten
    unmatched records have the key ['years_appeared'] and every group of
    records filed under one name can be merged (its first record holds
    null under a text key only if no later one holds a text there), and
    every year of every input record then appears in some record of that
    list. *)
Theorem alignment_keeps_years (sm_ratio : string → string → Q)
    (table : gmap string string) (api_orgs : list api_org) (our_orgs : list org) :
  Forall (λ o, years_appeared_key o ≠ Absent)
         (take 10 (AlignWithApi.unmatched_orgs
                     (AlignWithApi.align sm_ratio table api_orgs our_orgs))) →
  Forall (λ g, mergeable_for_api g.2)
         (AlignWithApi.api_groups (AlignWithApi.align sm_ratio table api_orgs our_orgs)) →
  ∃ aligned,
    AlignMain.aligned_orgs sm_ratio table api_orgs our_orgs = Some aligned ∧
    Forall (λ o, Forall (λ y, ∃ m, m ∈ aligned ∧ y ∈ years_of m) (years_of o)) our_orgs.
Proof.
  unfold AlignMain.aligned_orgs.
  destruct (align_state sm_ratio table api_orgs our_orgs)
    as (Hperm & _ & Hnd & Hnames & _).
  set (st := AlignWithApi.align sm_ratio table api_orgs our_orgs) in *.
  intros Hyears Hok.
  destruct (mapM (λ o, index_key (years_appeared_key o))
                 (take 10 (AlignWithApi.unmatched_orgs st)))
    as [shown|] eqn:Hshown.
  2:{ apply mapM_None, list.Exists_exists in Hshown as (u & Hu & Hnone).
      rewrite list.Forall_forall in Hyears. specialize (Hyears u Hu).
      by destruct (years_appeared_key u). }
  cbn [mbind option_bind].
  destruct (build_aligned_total (AlignWithApi.api_groups st) api_orgs Hok)
    as [merged Hmerged].
  rewrite Hmerged. cbn [mbind option_bind].
  apply build_aligned_spec in Hmerged as (Hin & _).
  eexists. split; [done|].
  apply list.Forall_forall. intros o Ho. apply list.Forall_forall. intros y Hy.
  setoid_rewrite sort_by_name_perm.
  rewrite <-Hperm in Ho. apply elem_of_app in Ho as [Ho|Ho].
  - apply elem_of_concat in Ho as (vs & Ho & Hvs).
    apply list_elem_of_fmap in Hvs as ([k vs'] & -> & Hg). simpl in Ho.
    rewrite list.Forall_forall in Hnames. destruct (Hnames _ Hg) as [Hk Hne].
    simpl in Hk, Hne.
    apply list_elem_of_fmap in Hk as (a & -> & Ha).
    pose proof (dict_get_entry _ _ _ Hnd Hg) as Hget.
    destruct (Hin a Ha) as (m & Hm & Hmerge); [by rewrite Hget|].
    rewrite Hget in Hmerge. exists m. split; [apply elem_of_app; by left|].
    apply merge_for_api_years in Hmerge as (_ & Hys & _).
    unfold years_of at 1. rewrite Hys. simpl.
    apply elem_of_sorted_years, elem_of_collected_years. eauto.
  - exists o. split; [apply elem_of_app; by right|done].
Qed.

Lemma alignment_keeps_years_witness :
  ∃ aligned,
    AlignMain.aligned_orgs Difflib.ratio AlignWithApi.manual_mappings
      aboutcode_api (aboutcode_record :: example_group) = Some aligned ∧
    Forall (λ o, Forall (λ y, ∃ m, m ∈ aligned ∧ y ∈ years_of m) (years_of o))
           (aboutcode_record :: example_group).
Proof.
  apply (alignment_keeps_years Difflib.ratio AlignWithApi.manual_mappings
           aboutcode_api (aboutcode_record :: example_group)).
  - vm_compute. repeat constructor; discriminate.
  - vm_compute. repeat constructor; discriminate.
Defined.



Lemma resolved_name_is_authoritative_witness :
  AlignWithApi.resolve Difflib.ratio AlignWithApi.manual_mappings aboutcode_api
    (name aboutcode_record) = Some "AboutCode" ∧
  "AboutCode" ∈ api_name <$> aboutcode_api.
Proof.
  split; [by vm_compute|].
  apply (resolved_name_is_authoritative Difflib.ratio AlignWithApi.manual_mappings
           aboutcode_api (name aboutcode_record)).
  by vm_compute.
Defined.

Section ComparisonFacts.
Implicit Types (A B : gset Z) (l : list Z).

Lemma inter_lt_union A B : A ≠ B → (size (A ∩ B) < size (A ∪ B))%nat.
Proof.
  intros Hne.
  apply subset_size. split.
  - intros y. rewrite elem_of_intersection, elem_of_union. tauto.
  - intros Hsup. apply Hne, set_eq. intros y.
    specialize (Hsup y). rewrite elem_of_intersection, !elem_of_union in Hsup. tauto.
Qed.

Lemma differ_somewhere A B : A ≠ B → A ∖ B ≠ ∅ ∨ B ∖ A ≠ ∅.
Proof.
  intros Hne. destruct (decide (A ∖ B = ∅)) as [HAB|]; [|by left].
  destruct (decide (B ∖ A = ∅)) as [HBA|]; [|by right].
  destruct Hne. apply set_eq. intros y. split; intros Hy.
  - destruct (decide (y ∈ B)); [done|]. set_solver.
  - destruct (decide (y ∈ A)); [done|]. set_solver.
Qed.

Lemma sorted_years_nil A : sorted_years A = [] ↔ A = ∅.
Proof.
  split.
  - intros Hnil. apply set_eq. intros y. rewrite <-elem_of_sorted_years, Hnil.
    set_solver.
  - intros ->. apply length_zero_iff_nil. by rewrite length_sorted_years.
Qed.

(** What a year mismatch holds, for either divisor. *)
Lemma compare_years_difference (denominator : nat → Z) n api_years our_years m :
  (∀ u, (0 < u)%nat → denominator u = Z.of_nat u) →
  FinalComparison.compare_years denominator n api_years our_years
    = Some (FinalComparison.YearMismatch m) →
  0 ≤ FinalComparison.match_pct m < 100 ∧
  (∀ y, y ∈ FinalComparison.missing m ↔ y ∈ api_years ∧ y ∉ our_years) ∧
  (∀ y, y ∈ FinalComparison.extra m ↔ y ∈ our_years ∧ y ∉ api_years) ∧
  (FinalComparison.missing m ≠ [] ∨ FinalComparison.extra m ≠ []) ∧
  StronglySorted Z.lt (FinalComparison.missing m) ∧
  StronglySorted Z.lt (FinalComparison.extra m).
Proof.
  intros Hden Hcmp.
  destruct (compare_years_mismatch _ _ _ _ _ Hden Hcmp) as (_ & _ & Hne & Hpct).
  pose proof (inter_lt_union _ _ Hne) as Hlt.
  unfold FinalComparison.compare_years in Hcmp.
  rewrite decide_False in Hcmp by done.
  destruct (FinalComparison.floordiv _ _) as [pct|]; [|done].
  simpl in Hcmp. injection Hcmp as <-. simpl in *.
  split.
  { rewrite Hpct. split.
    - apply Z.div_pos; lia.
    - apply Z.div_lt_upper_bound; lia. }
  unfold FinalComparison.year_set in *.
  split; [intros y; rewrite elem_of_sorted_years; set_solver|].
  split; [intros y; rewrite elem_of_sorted_years; set_solver|].
  split; [|split; apply sorted_years_ascending].
  rewrite !sorted_years_nil. by apply differ_somewhere.
Qed.

Lemma compare_years_guard n api_years our_years :
  FinalComparison.compare_years (λ u, Z.max (Z.of_nat u) 1) n api_years our_years
  = FinalComparison.compare_years Z.of_nat n api_years our_years.
Proof.
  unfold FinalComparison.compare_years. case_decide as Hne; [done|].
  pose proof (union_size_pos _ _ Hne). by rewrite Z.max_l by lia.
Qed.

Lemma compare_years_total n api_years our_years :
  is_Some (FinalComparison.compare_years Z.of_nat n api_years our_years).
Proof.
  unfold FinalComparison.compare_years. case_decide as Hne; [done|].
  pose proof (union_size_pos _ _ Hne). unfold FinalComparison.floordiv.
  by rewrite decide_False by lia.
Qed.
End ComparisonFacts.

(** X7: a year mismatch reported by either comparison script always shows
    a real difference: its percentage lies between 0 and 99, [missing]
    holds exactly the authoritative years that our record lacks and
    [extra] exactly the years of our record that the authoritative entry
    lacks, both in strictly ascending order, and at least one of the two
    lists is not empty. *)
Theorem mismatch_reports_a_difference (our_orgs : list org) (authoritative : api_org)
    (m : FinalComparison.mismatch) :
  FinalComparison.classify our_orgs authoritative
    = Some (FinalComparison.YearMismatch m) ∨
  FinalComparison.classify_report our_orgs authoritative
    = Some (FinalComparison.YearMismatch m) →
  ∃ ours,
    FinalComparison.by_name our_orgs !! api_name authoritative = Some ours ∧
    0 ≤ FinalComparison.match_pct m < 100 ∧
    (∀ y, y ∈ FinalComparison.missing m ↔
          y ∈ api_years authoritative ∧ y ∉ years_of ours) ∧
    (∀ y, y ∈ FinalComparison.extra m ↔
          y ∈ years_of ours ∧ y ∉ api_years authoritative) ∧
    (FinalComparison.missing m ≠ [] ∨ FinalComparison.extra m ≠ []) ∧
    StronglySorted Z.lt (FinalComparison.missing m) ∧
    StronglySorted Z.lt (FinalComparison.extra m).
Proof.
  intros Hclass.
  assert (∃ ours denominator,
            FinalComparison.by_name our_orgs !! api_name authoritative = Some ours ∧
            (∀ u, (0 < u)%nat → denominator u = Z.of_nat u) ∧
            FinalComparison.compare_years denominator (api_name authoritative)
              (FinalComparison.sorted_list (api_years authoritative))
              (FinalComparison.sorted_list (years_of ours))
            = Some (FinalComparison.YearMismatch m))
    as (ours & den & Hours & Hden & Hcmp).
  { destruct Hclass as [H|H].
    - unfold FinalComparison.classify in H.
      destruct (FinalComparison.by_name our_orgs !! api_name authoritative)
        as [ours|] eqn:Hours; [|done].
      destruct (years_appeared ours) as [ys|] eqn:Hys; [|done]. simpl in H.
      unfold years_of.
      exists ours, (λ u, Z.max (Z.of_nat u) 1).
      split; [done|]. split; [intros; lia|]. by rewrite Hys.
    - unfold FinalComparison.classify_report in H.
      destruct (FinalComparison.by_name our_orgs !! api_name authoritative)
        as [ours|] eqn:Hours; [|done].
      exists ours, Z.of_nat. split; [done|]. split; [done|exact H]. }
  exists ours. split; [done|].
  destruct (compare_years_difference _ _ _ _ _ Hden Hcmp)
    as (Hpct & Hmiss & Hextra & Hsome & Hs1 & Hs2).
  unfold FinalComparison.sorted_list in Hmiss, Hextra.
  setoid_rewrite merge_sort_Permutation in Hmiss.
  setoid_rewrite merge_sort_Permutation in Hextra.
  done.
Qed.

Lemma mismatch_reports_a_difference_witness :
  ∃ m ours,
    FinalComparison.classify mismatch_ours mismatch_api
      = Some (FinalComparison.YearMismatch m) ∧
    FinalComparison.by_name mismatch_ours !! api_name mismatch_api = Some ours ∧
    0 ≤ FinalComparison.match_pct m < 100 ∧
    (FinalComparison.missing m ≠ [] ∨ FinalComparison.extra m ≠ []).
Proof.
  eexists.
  destruct (mismatch_reports_a_difference mismatch_ours mismatch_api _
              (or_introl eq_refl))
    as (ours & Hours & Hpct & _ & _ & Hsome & _).
  exists ours. split; [reflexivity|]. split; [exact Hours|]. split; [exact Hpct|exact Hsome].
Defined.

(** X8: final_comparison_report.py divides by the size of the union of
    the two year sets without a guard, and yet classifies every
    authoritative entry: the division is only reached when the sets
    differ, and the union is then not empty. *)
Theorem report_never_divides_by_zero (our_orgs : list org) (authoritative : api_org) :
  is_Some (FinalComparison.classify_report our_orgs authoritative).
Proof.
  unfold FinalComparison.classify_report.
  destruct (FinalComparison.by_name our_orgs !! api_name authoritative); [|done].
  apply compare_years_total.
Qed.

(** X9: when the record found under an authoritative name has a
    [years_appeared] list, final_comparison.py and
    final_comparison_report.py classify the entry identically and
    without error; the guard [max(..., 1)] of the former changes
    nothing. *)
Theorem comparison_scripts_agree (our_orgs : list org) (authoritative : api_org) :
  (∀ ours, FinalComparison.by_name our_orgs !! api_name authoritative = Some ours →
           is_Some (years_appeared ours)) →
  FinalComparison.classify our_orgs authoritative
  = FinalComparison.classify_report our_orgs authoritative ∧
  is_Some (FinalComparison.classify our_orgs authoritative).
Proof.
  intros Hyears.
  assert (FinalComparison.classify our_orgs authoritative
          = FinalComparison.classify_report our_orgs authoritative) as Heq.
  { unfold FinalComparison.classify, FinalComparison.classify_report.
    destruct (FinalComparison.by_name our_orgs !! api_name authoritative)
      as [ours|] eqn:Hours; [|done].
    destruct (Hyears ours eq_refl) as [ys Hys]. unfold years_of. rewrite Hys. simpl.
    apply compare_years_guard. }
  split; [done|]. rewrite Heq.
  unfold FinalComparison.classify_report.
  destruct (FinalComparison.by_name our_orgs !! api_name authoritative); [|done].
  apply compare_years_total.
Qed.

Lemma comparison_scripts_agree_witness :
  FinalComparison.classify mismatch_ours mismatch_api
  = FinalComparison.classify_report mismatch_ours mismatch_api ∧
  is_Some (FinalComparison.classify mismatch_ours mismatch_api).
Proof.
  apply (comparison_scripts_agree mismatch_ours mismatch_api).
  intros ours. vm_compute. intros [= <-]. by eexists.
Defined.

Section Tally.
Variable final_orgs : list org.

Lemma classify_name a e :
  FinalComparison.classify final_orgs a = Some e →
  ComparisonMain.tallied_names
    (ComparisonMain.record_entry
       {| ComparisonMain.perfect_matches := [];
          ComparisonMain.year_mismatches := [];
          ComparisonMain.missing_from_ours := [] |} e) = [api_name a].
Proof.
  unfold FinalComparison.classify.
  destruct (FinalComparison.by_name final_orgs !! api_name a) as [ours|].
  - destruct (years_appeared ours) as [ys|]; [|done]. simpl.
    unfold FinalComparison.compare_years. case_decide; [by intros [= <-]|].
    destruct (FinalComparison.floordiv _ _); [|done]. simpl. by intros [= <-].
  - by intros [= <-].
Qed.

Lemma record_entry_names t e :
  ComparisonMain.tallied_names (ComparisonMain.record_entry t e)
  ≡ₚ ComparisonMain.tallied_names t ++
     ComparisonMain.tallied_names
       (ComparisonMain.record_entry
          {| ComparisonMain.perfect_matches := [];
             ComparisonMain.year_mismatches := [];
             ComparisonMain.missing_from_ours := [] |} e).
Proof.
  destruct e; unfold ComparisonMain.tallied_names; simpl;
    rewrite ?fmap_app; simpl; rewrite ?app_nil_r.
  - rewrite <-!(assoc_L (++)). f_equiv. simpl.
    rewrite (assoc_L (++)). apply Permutation_cons_append.
  - rewrite <-!(assoc_L (++)). f_equiv. f_equiv. apply Permutation_cons_append.
  - by rewrite <-!(assoc_L (++)).
Qed.

Lemma tally_fold (api_orgs : list api_org) acc t :
  foldl (λ acc a,
           t ← acc;
           e ← FinalComparison.classify final_orgs a;
           Some (ComparisonMain.record_entry t e)) acc api_orgs = Some t →
  ∃ t0, acc = Some t0 ∧
        ComparisonMain.tallied_names t
        ≡ₚ ComparisonMain.tallied_names t0 ++ (api_name <$> api_orgs).
Proof.
  revert acc. induction api_orgs as [|a rest IH]; intros acc; simpl.
  - intros ->. exists t. by rewrite app_nil_r.
  - intros (t1 & Ht1 & Hn)%IH.
    destruct acc as [t0|]; [|done]. simpl in Ht1.
    destruct (FinalComparison.classify final_orgs a) as [e|] eqn:He; [|done].
    simpl in Ht1. injection Ht1 as <-.
    exists t0. split; [done|].
    rewrite Hn, record_entry_names, (classify_name _ _ He).
    by rewrite <-(assoc_L (++)).
Qed.

Lemma tally_count (api_orgs : list api_org) t :
  ComparisonMain.tally_orgs final_orgs api_orgs = Some t →
  (length (ComparisonMain.perfect_matches t)
   + length (ComparisonMain.year_mismatches t)
   + length (ComparisonMain.missing_from_ours t))%nat = length api_orgs.
Proof.
  intros (t0 & [= <-] & Hn)%tally_fold. apply Permutation_length in Hn.
  unfold ComparisonMain.tallied_names in Hn. simpl in Hn.
  rewrite !length_app, !length_fmap in Hn. lia.
Qed.
End Tally.

(** X10: final_comparison.py puts every entry of the authoritative list in
    exactly one of its three lists: the names of the perfect matches,
    of the year mismatches and of the entries missing from our data are
    together a permutation of the authoritative names, so the three
    counts add up to the number of authoritative entries. *)
Theorem every_entry_tallied_once (final_orgs : list org) (api_orgs : list api_org)
    (t : ComparisonMain.tally) :
  ComparisonMain.tally_orgs final_orgs api_orgs = Some t →
  ComparisonMain.tallied_names t ≡ₚ api_name <$> api_orgs ∧
  (length (ComparisonMain.perfect_matches t)
   + length (ComparisonMain.year_mismatches t)
   + length (ComparisonMain.missing_from_ours t))%nat = length api_orgs.
Proof.
  intros Ht. split; [|by eapply tally_count].
  apply tally_fold in Ht as (t0 & [= <-] & Hn). exact Hn.
Qed.

Lemma every_entry_tallied_once_witness :
  ∃ t, ComparisonMain.tally_orgs mismatch_ours (mismatch_api :: aboutcode_api) = Some t ∧
       ComparisonMain.tallied_names t ≡ₚ api_name <$> (mismatch_api :: aboutcode_api) ∧
       (length (ComparisonMain.perfect_matches t)
        + length (ComparisonMain.year_mismatches t)
        + length (ComparisonMain.missing_from_ours t))%nat = 3%nat.
Proof.
  eexists. split; [vm_compute; reflexivity|].
  apply (every_entry_tallied_once mismatch_ours (mismatch_api :: aboutcode_api)).
  vm_compute. reflexivity.
Defined.

(** X11: the three percentages of the summary of final_comparison.py are
    computed exactly when the authoritative list is not empty (an empty
    list makes the division fail); they are then non-negative and, each
    being rounded down, add up to 98, 99 or 100. *)
Theorem summary_percentages (final_orgs : list org) (api_orgs : list api_org)
    (t : ComparisonMain.tally) :
  ComparisonMain.tally_orgs final_orgs api_orgs = Some t →
  match ComparisonMain.summary t api_orgs with
  | Some (p, y, m) =>
      api_orgs ≠ [] ∧ 0 ≤ p ∧ 0 ≤ y ∧ 0 ≤ m ∧ 98 ≤ p + y + m ≤ 100
  | None => api_orgs = []
  end.
Proof.
  intros Hn%tally_count.
  unfold ComparisonMain.summary, FinalComparison.floordiv.
  destruct api_orgs as [|a rest]; [done|].
  rewrite !decide_False by (simpl; lia). simpl option_bind.
  set (n := Z.of_nat (length (a :: rest))).
  set (P := Z.of_nat (length (ComparisonMain.perfect_matches t))).
  set (Y := Z.of_nat (length (ComparisonMain.year_mismatches t))).
  set (M := Z.of_nat (length (ComparisonMain.missing_from_ours t))).
  assert (0 < n) by (unfold n; simpl; lia).
  assert (P + Y + M = n) by (unfold P, Y, M, n; lia).
  assert (0 ≤ P ∧ 0 ≤ Y ∧ 0 ≤ M) as (? & ? & ?) by (unfold P, Y, M; lia).
  pose proof (Z.div_mod (P * 100) n ltac:(lia)).
  pose proof (Z.mod_pos_bound (P * 100) n ltac:(lia)).
  pose proof (Z.div_mod (Y * 100) n ltac:(lia)).
  pose proof (Z.mod_pos_bound (Y * 100) n ltac:(lia)).
  pose proof (Z.div_mod (M * 100) n ltac:(lia)).
  pose proof (Z.mod_pos_bound (M * 100) n ltac:(lia)).
  split; [done|].
  split; [apply Z.div_pos; lia|]. split; [apply Z.div_pos; lia|].
  split; [apply Z.div_pos; lia|]. nia.
Qed.

Lemma summary_percentages_witness :
  ∃ t, ComparisonMain.tally_orgs mismatch_ours (mismatch_api :: aboutcode_api) = Some t ∧
       ComparisonMain.summary t (mismatch_api :: aboutcode_api) = Some (0, 33, 66) ∧
       match ComparisonMain.summary t (mismatch_api :: aboutcode_api) with
       | Some (p, y, m) =>
           mismatch_api :: aboutcode_api ≠ [] ∧ 0 ≤ p ∧ 0 ≤ y ∧ 0 ≤ m ∧
           98 ≤ p + y + m ≤ 100
       | None => mismatch_api :: aboutcode_api = []
       end.
Proof.
  eexists. split; [vm_compute; reflexivity|]. split; [vm_compute; reflexivity|].
  apply (summary_percentages mismatch_ours (mismatch_api :: aboutcode_api)).
  vm_compute. reflexivity.
Defined.

Section MergedFields.
Local Open Scope nat_scope.
Implicit Types (orgs : list org) (o m : org).

Lemma merge_years_iff orgs m y :
  MergeByUrls.merge_organizations orgs = Some m →
  y ∈ years_of m ↔ ∃ o, o ∈ orgs ∧ y ∈ years_of o.
Proof. intros Hm. by apply merge_by_urls_years. Qed.

Lemma merge_total orgs :
  orgs ≠ [] → Forall years_not_null orgs →
  is_Some (MergeByUrls.merge_organizations orgs).
Proof.
  destruct orgs as [|o1 [|o2 orgs]]; [done|by eexists|]. intros _ Hyears.
  destruct (merge_organizations_multi o1 o2 orgs Hyears) as (m & _ & _ & -> & _).
  by eexists.
Qed.

(** The years printed for a group of two or more. *)
Lemma printed_years_total orgs :
  Forall years_not_null orgs →
  is_Some (mapM (λ o, get (get_or [] (years_appeared_key o))) orgs).
Proof.
  intros Hyears.
  destruct (mapM (λ o, get (get_or [] (years_appeared_key o))) orgs) eqn:Hm;
    [by eexists|].
  apply mapM_None in Hm as (o & Ho & Hnone)%list.Exists_exists.
  rewrite list.Forall_forall in Hyears. specialize (Hyears o Ho).
  unfold years_not_null in Hyears. by destruct (years_appeared_key o).
Qed.

Lemma length_concat_nonempty {A} (ls : list (list A)) :
  Forall (λ l, l ≠ []) ls → length ls ≤ length (concat ls).
Proof.
  induction 1 as [|l ls Hl _ IH]; simpl; [done|].
  rewrite length_app. destruct l; [done|]. simpl. lia.
Qed.

Lemma groups_of_partition host_ok orgs :
  ∃ groups, MergeByUrls.groups_of host_ok orgs = Some groups ∧
    concat groups.*2 ≡ₚ seq 0 (length orgs) ∧
    Forall (λ g, g.2 ≠ []) groups.
Proof.
  destruct (group_indices_partition (length orgs)
              (MergeByUrls.url_to_orgs host_ok orgs))
    as (groups & Hg & Hperm & Hnd & Hne).
  { apply index_urls_bounded; [simpl; lia|constructor]. }
  by exists groups.
Qed.

Lemma Forall2_elem_r {A B} (P : A → B → Prop) l k y :
  Forall2 P l k → y ∈ k → ∃ x, x ∈ l ∧ P x y.
Proof.
  induction 1 as [|x y' l k Hxy _ IH]; [by intros ?%elem_of_nil|].
  intros [->|Hy]%elem_of_cons.
  - exists x. split; [left|done].
  - destruct (IH Hy) as (x' & ? & ?). exists x'. split; [by right|done].
Qed.

Lemma Forall2_elem_l {A B} (P : A → B → Prop) l k x :
  Forall2 P l k → x ∈ l → ∃ y, y ∈ k ∧ P x y.
Proof.
  induction 1 as [|x' y l k Hxy _ IH]; [by intros ?%elem_of_nil|].
  intros [->|Hx]%elem_of_cons.
  - exists y. split; [left|done].
  - destruct (IH Hx) as (y' & ? & ?). exists y'. split; [by right|done].
Qed.

Lemma members_lookup orgs (idxs : list nat) :
  Forall (λ i, i < length orgs) idxs →
  ∃ members, mapM (λ i, orgs !! i) idxs = Some members ∧
             Forall2 (λ i o, orgs !! i = Some o) idxs members.
Proof.
  intros Hidx.
  destruct (mapM (λ i, orgs !! i) idxs) as [members|] eqn:Hm.
  - exists members. split; [done|]. by apply mapM_Some.
  - apply mapM_None in Hm as (i & Hi & Hnone)%list.Exists_exists.
    rewrite list.Forall_forall in Hidx. apply Hidx in Hi.
    apply lookup_lt_is_Some in Hi as [o Ho]. congruence.
Qed.
End MergedFields.

(** X12: a list [merged_orgs] that merge_by_urls.py builds has at most as
    many records as the input, and the years that appear in its records
    are exactly the years that appear in the input records: no year is
    lost and none is invented.  The list is built whenever no input
    record holds null under ['years_appeared']. *)
Theorem merge_by_urls_keeps_years (host_ok : string → bool) (orgs : list org) :
  (∀ merged,
     MergeByUrls.merged_orgs host_ok orgs = Some merged →
     (length merged ≤ length orgs)%nat ∧
     ∀ y, (∃ m, m ∈ merged ∧ y ∈ years_of m) ↔ (∃ o, o ∈ orgs ∧ y ∈ years_of o)) ∧
  (Forall years_not_null orgs → is_Some (MergeByUrls.merged_orgs host_ok orgs)).
Proof.
  destruct (groups_of_partition host_ok orgs) as (groups & Hg & Hperm & Hne).
  unfold MergeByUrls.merged_orgs. rewrite Hg. cbn [mbind option_bind].
  set (f := λ g : nat * list nat,
              members ← mapM (λ i, orgs !! i) g.2;
              _ ← (if (1 <? length members)%nat
                   then mapM (λ o, get (get_or [] (years_appeared_key o))) members
                   else Some []);
              MergeByUrls.merge_organizations members).
  assert (∀ g, g ∈ groups →
            ∃ members, mapM (λ i, orgs !! i) g.2 = Some members ∧
                       Forall2 (λ i o, orgs !! i = Some o) g.2 members ∧
                       members ≠ []) as Hmem.
  { intros g Hgin.
    destruct (members_lookup orgs g.2) as (members & Hm & Hall).
    { apply list.Forall_forall. intros i Hi.
      assert (i ∈ seq 0 (length orgs)) as Hseq.
      { rewrite <-Hperm. apply elem_of_concat. exists g.2. split; [done|].
        apply list_elem_of_fmap. by exists g. }
      apply elem_of_seq in Hseq. lia. }
    exists members. split; [done|]. split; [done|].
    rewrite list.Forall_forall in Hne. specialize (Hne g Hgin).
    intros ->. by apply Forall2_nil_inv_r in Hall. }
  split.
  - intros merged Hmap. apply mapM_Some in Hmap.
    assert (∀ g m, g ∈ groups → f g = Some m →
              ∃ members, Forall2 (λ i o, orgs !! i = Some o) g.2 members ∧
                         MergeByUrls.merge_organizations members = Some m) as Hf.
    { intros g m Hgin Hfg. destruct (Hmem g Hgin) as (members & Hm & Hall & _).
      exists members. split; [done|]. unfold f in Hfg. rewrite Hm in Hfg.
      cbn [mbind option_bind] in Hfg.
      by destruct (if (1 <? length members)%nat
                   then mapM (λ o, get (get_or [] (years_appeared_key o))) members
                   else Some []). }
    split.
    { rewrite <-(list.Forall2_length _ _ _ Hmap).
      rewrite <-(length_seq (length orgs) 0), <-Hperm, <-(length_fmap snd groups).
      apply length_concat_nonempty, Forall_fmap.
      by eapply list.Forall_impl. }
    intros y. split.
    + intros (m & Hm & Hy).
      destruct (Forall2_elem_r _ _ _ _ Hmap Hm) as (g & Hgin & Hfg).
      destruct (Hf g m Hgin Hfg) as (members & Hall & Hmerge).
      apply (merge_years_iff _ _ y Hmerge) in Hy as (o & Ho & Hy).
      destruct (Forall2_elem_r _ _ _ _ Hall Ho) as (i & _ & Hi).
      exists o. split; [by eapply list_elem_of_lookup_2|done].
    + intros (o & Ho & Hy).
      apply list_elem_of_lookup_1 in Ho as [i Hi].
      assert (i ∈ concat groups.*2) as Hin.
      { rewrite Hperm. apply elem_of_seq. apply lookup_lt_Some in Hi. lia. }
      apply elem_of_concat in Hin as (idxs & Hii & Hidxs).
      apply list_elem_of_fmap in Hidxs as (g & -> & Hgin).
      destruct (Forall2_elem_l _ _ _ _ Hmap Hgin) as (m & Hm & Hfg).
      destruct (Hf g m Hgin Hfg) as (members & Hall & Hmerge).
      exists m. split; [done|]. apply (merge_years_iff _ _ y Hmerge).
      destruct (Forall2_elem_l _ _ _ _ Hall Hii) as (o' & Ho' & Hlook).
      assert (o' = o) as -> by congruence. eauto.
  - intros Hyears. destruct (mapM f groups) as [merged|] eqn:Hmap; [by eexists|].
    apply mapM_None in Hmap as (g & Hgin & Hnone)%list.Exists_exists.
    destruct (Hmem g Hgin) as (members & Hm & Hall & Hnil).
    assert (Forall years_not_null members) as Hmy.
    { apply list.Forall_forall. intros o Ho.
      destruct (Forall2_elem_r _ _ _ _ Hall Ho) as (i & _ & Hi).
      rewrite list.Forall_forall in Hyears.
      by eapply Hyears, list_elem_of_lookup_2. }
    unfold f in Hnone. rewrite Hm in Hnone. cbn [mbind option_bind] in Hnone.
    destruct (printed_years_total members Hmy) as [shown Hshown].
    destruct (merge_total members Hnil Hmy) as [m Hmerge].
    rewrite Hmerge in Hnone.
    destruct (1 <? length members)%nat; [by rewrite Hshown in Hnone|done].
Qed.

Lemma merge_by_urls_keeps_years_witness :
  ∃ merged,
    MergeByUrls.merged_orgs (λ _, true) example_group = Some merged ∧
    (length merged ≤ length example_group)%nat ∧
    ∀ y, (∃ m, m ∈ merged ∧ y ∈ years_of m) ↔
         (∃ o, o ∈ example_group ∧ y ∈ years_of o).
Proof.
  destruct (merge_by_urls_keeps_years (λ _, true) example_group) as [Hkeeps Hbuilt].
  destruct Hbuilt as [merged Hmerged]; [repeat constructor; discriminate|].
  exists merged. split; [done|]. by apply Hkeeps.
Defined.

Section FieldRules.
Local Open Scope nat_scope.
Implicit Types (orgs : list org) (o m : org) (n b : string).

(** [n] does not come before [b] in the order of the name choice. *)
Lemma key_lt_false n b :
  MergeByUrls.key_lt (MergeByUrls.name_key n) (MergeByUrls.name_key b) = false ↔
  (marked b = true → marked n = true) ∧
  (marked n = marked b → Py.len n ≤ Py.len b).
Proof.
  unfold MergeByUrls.key_lt, MergeByUrls.name_key, marked. simpl.
  destruct (Py.contains "Foundation" n || Py.contains "Project" n),
    (Py.contains "Foundation" b || Py.contains "Project" b);
    rewrite ?Z.ltb_ge; split; try done; try (intros [? ?]); try split;
    try done; try lia; auto.
  all: intros; lia.
Qed.

Lemma key_lt_trans (a b c : bool * Z) :
  MergeByUrls.key_lt a b = false → MergeByUrls.key_lt b c = false →
  MergeByUrls.key_lt a c = false.
Proof.
  destruct a as [[] a], b as [[] b], c as [[] c]; unfold MergeByUrls.key_lt; simpl;
    rewrite ?Z.ltb_ge; try done; lia.
Qed.

Lemma key_lt_asym (a b : bool * Z) :
  MergeByUrls.key_lt a b = true → MergeByUrls.key_lt b a = false.
Proof.
  destruct a as [[] a], b as [[] b]; unfold MergeByUrls.key_lt; simpl;
    rewrite ?Z.ltb_ge, ?Z.ltb_lt; try done; lia.
Qed.

Lemma best_fold_least b names r :
  foldl (λ acc n,
           match acc with
           | None => Some n
           | Some b => if MergeByUrls.key_lt (MergeByUrls.name_key n)
                            (MergeByUrls.name_key b)
                       then Some n else Some b
           end) (Some b) names = Some r →
  r ∈ b :: names ∧
  ∀ n, n ∈ b :: names →
       MergeByUrls.key_lt (MergeByUrls.name_key n) (MergeByUrls.name_key r) = false.
Proof.
  revert b. induction names as [|x names IH]; intros b; simpl.
  - intros [= <-]. split; [left|]. intros n ->%list_elem_of_singleton.
    apply key_lt_false. split; [done|lia].
  - destruct (MergeByUrls.key_lt (MergeByUrls.name_key x) (MergeByUrls.name_key b))
      eqn:Hlt; intros [Hr Hmin]%IH.
    + split; [by right|]. intros n [->|Hn]%elem_of_cons; [|by apply Hmin].
      eapply key_lt_trans; [by apply key_lt_asym|]. apply Hmin. left.
    + split.
      { apply elem_of_cons in Hr as [->|Hr]; [left|by right; right]. }
      intros n [->|[->|Hn]%elem_of_cons]%elem_of_cons.
      * apply Hmin. left.
      * eapply key_lt_trans; [exact Hlt|]. apply Hmin. left.
      * apply Hmin. by right.
Qed.

Lemma longest_from (f : org → option string) orgs best :
  let r := foldl (λ best o,
                    match truthy (f o) with
                    | Some d => if (Py.len best <? Py.len d)%nat then d else best
                    | None => best
                    end) best orgs in
  (r = best ∨ ∃ o, o ∈ orgs ∧ f o = Some r) ∧
  Py.len best ≤ Py.len r ∧
  ∀ o d, o ∈ orgs → f o = Some d → Py.len d ≤ Py.len r.
Proof.
  revert best. induction orgs as [|o orgs IH]; intros best; simpl.
  - split; [by left|]. split; [done|]. by intros o d ?%elem_of_nil.
  - set (best' := match truthy (f o) with
                  | Some d => if (Py.len best <? Py.len d)%nat then d else best
                  | None => best
                  end).
    destruct (IH best') as (Hfrom & Hlen & Hall).
    assert (Py.len best ≤ Py.len best' ∧
            (best' = best ∨ f o = Some best') ∧
            ∀ d, f o = Some d → Py.len d ≤ Py.len best') as (Hb1 & Hb2 & Hb3).
    { unfold best', truthy. destruct (f o) as [d|]; [|split; [done|]; split; [by left|done]].
      destruct (Py.is_empty d) eqn:Hd.
      - split; [done|]. split; [by left|]. intros ? [= <-].
        destruct d; [simpl; lia|done].
      - destruct (Nat.ltb_spec (Py.len best) (Py.len d)).
        + split; [lia|]. split; [by right|]. by intros ? [= <-].
        + split; [done|]. split; [by left|]. by intros ? [= <-]. }
    split; [|split].
    + destruct Hfrom as [->|(o' & ? & ?)].
      * destruct Hb2 as [->|?]; [by left|]. right. exists o. split; [left|done].
      * right. exists o'. split; [by right|done].
    + lia.
    + intros o' d [->|Ho']%elem_of_cons Hd; [|by eapply Hall].
      specialize (Hb3 d Hd). lia.
Qed.

Lemma startswith_truthy p w :
  Py.is_empty p = false → Py.startswith p w = true → truthy (Some w) = Some w.
Proof. destruct p; [done|]. destruct w; [done|]. done. Qed.

Lemma merged_website_spec orgs :
  (∀ w, MergeByUrls.merged_website orgs = Some w →
        Py.is_empty w = false ∧ ∃ o, o ∈ orgs ∧ website o = Some w) ∧
  (∀ o w, o ∈ orgs → website o = Some w → Py.startswith "https://" w = true →
          ∃ w', MergeByUrls.merged_website orgs = Some w' ∧
                Py.startswith "https://" w' = true) ∧
  (MergeByUrls.merged_website orgs = None →
   ∀ o, o ∈ orgs → truthy (website o) = None).
Proof.
  unfold MergeByUrls.merged_website.
  set (websites := omap (λ o, truthy (website o)) orgs).
  assert (∀ w, w ∈ websites ↔ ∃ o, o ∈ orgs ∧ truthy (website o) = Some w) as Hw.
  { intros w. unfold websites. by rewrite list_elem_of_omap. }
  assert (∀ o w, truthy (website o) = Some w →
                 website o = Some w ∧ Py.is_empty w = false) as Htr.
  { intros o w. unfold truthy. destruct (website o) as [v|]; [|done].
    destruct (Py.is_empty v) eqn:Hv; [done|]. by intros [= <-]. }
  destruct (filter _ websites) as [|h https] eqn:Hf.
  - split; [|split].
    + intros w Hh. apply head_Some_elem_of, Hw in Hh as (o & Ho & Ht).
      apply Htr in Ht as [? ?]. eauto.
    + intros o w Ho Hweb Hs.
      assert (w ∈ filter (λ w, Is_true (Py.startswith "https://" w)) websites) as Hin.
      { apply list_elem_of_filter. split; [by rewrite Hs|].
        apply Hw. exists o. split; [done|]. rewrite Hweb.
        by apply (startswith_truthy "https://"). }
      rewrite Hf in Hin. by apply elem_of_nil in Hin.
    + intros Hnone o Ho. destruct (truthy (website o)) as [w|] eqn:Ht; [|done].
      assert (w ∈ websites) as Hin by (apply Hw; eauto).
      apply head_None in Hnone. rewrite Hnone in Hin. by apply elem_of_nil in Hin.
  - assert (h ∈ filter (λ w, Is_true (Py.startswith "https://" w)) websites) as Hin
      by (rewrite Hf; left).
    apply list_elem_of_filter in Hin as [Hs Hin]. apply Is_true_true in Hs.
    apply Hw in Hin as (o & Ho & Ht). apply Htr in Ht as [? ?].
    split; [|split]; [|by eauto|done].
    intros w [= <-]. eauto.
Qed.
End FieldRules.

(** X13: the name of a merged record of merge_by_urls.py is the name of a
    member that does not carry a Foundation/Project marker whenever some
    member has such a name, and no member's name of the same kind is
    longer. *)
Theorem merged_name_rule (orgs : list org) (m : org) :
  MergeByUrls.merge_organizations orgs = Some m →
  name m ∈ name <$> orgs ∧
  ∀ o, o ∈ orgs →
       (marked (name m) = true → marked (name o) = true) ∧
       (marked (name o) = marked (name m) →
        (Py.len (name o) ≤ Py.len (name m))%nat).
Proof.
  destruct orgs as [|o1 [|o2 orgs]]; [done| |].
  - simpl. intros [= <-]. split; [left|].
    intros o ->%list_elem_of_singleton. split; [done|lia].
  - intros (r & s & Hbest & _ & ->)%merge_organizations_inv. cbn [name].
    unfold MergeByUrls.best_of in Hbest. simpl in Hbest.
    apply (best_fold_least (name o1) (name o2 :: (name <$> orgs))) in Hbest
      as [Hr Hmin].
    split; [done|]. intros o Ho. apply key_lt_false, Hmin.
    apply (list_elem_of_fmap_2 name) in Ho. exact Ho.
Qed.

Lemma merged_name_rule_witness :
  ∃ m, MergeByUrls.merge_organizations site_group = Some m ∧
       name m = "Kodi" ∧
       name m ∈ name <$> site_group ∧
       ∀ o, o ∈ site_group →
            (marked (name m) = true → marked (name o) = true) ∧
            (marked (name o) = marked (name m) →
             (Py.len (name o) ≤ Py.len (name m))%nat).
Proof.
  eexists. split; [vm_compute; reflexivity|]. split; [reflexivity|].
  apply (merged_name_rule site_group). vm_compute. reflexivity.
Defined.

(** X14: when merge_by_urls.py merges two or more records, the website of
    the merged record is a non-empty website of a member; it is an
    https:// one whenever some member has an https:// website; and it is
    absent only when no member has a non-empty website. *)
Theorem merged_website_rule (orgs : list org) (m : org) :
  (2 ≤ length orgs)%nat →
  MergeByUrls.merge_organizations orgs = Some m →
  (∀ w, website m = Some w →
        Py.is_empty w = false ∧ ∃ o, o ∈ orgs ∧ website o = Some w) ∧
  (∀ o w, o ∈ orgs → website o = Some w → Py.startswith "https://" w = true →
          ∃ w', website m = Some w' ∧ Py.startswith "https://" w' = true) ∧
  (website m = None → ∀ o, o ∈ orgs → truthy (website o) = None).
Proof.
  destruct orgs as [|o1 [|o2 orgs]]; [simpl; lia|simpl; lia|]. intros _.
  intros (r & s & _ & _ & ->)%merge_organizations_inv. cbn [website].
  apply merged_website_spec.
Qed.

Lemma merged_website_rule_witness :
  ∃ m, MergeByUrls.merge_organizations site_group = Some m ∧
       website m = Some "https://kodi.tv" ∧
       (∀ w, website m = Some w →
             Py.is_empty w = false ∧ ∃ o, o ∈ site_group ∧ website o = Some w) ∧
       (∀ o w, o ∈ site_group → website o = Some w →
               Py.startswith "https://" w = true →
               ∃ w', website m = Some w' ∧ Py.startswith "https://" w' = true) ∧
       (website m = None → ∀ o, o ∈ site_group → truthy (website o) = None).
Proof.
  eexists. split; [vm_compute; reflexivity|]. split; [reflexivity|].
  apply (merged_website_rule site_group); [simpl; lia|]. vm_compute. reflexivity.
Defined.

(** X15: when merge_by_urls.py merges two or more records, the merged
    description is either empty or the description of a member, and no
    member has a longer description. *)
Theorem merged_description_rule (orgs : list org) (m : org) :
  (2 ≤ length orgs)%nat →
  MergeByUrls.merge_organizations orgs = Some m →
  ∃ d, description_html m = Some d ∧
       (d = EmptyString ∨ ∃ o, o ∈ orgs ∧ description_html o = Some d) ∧
       ∀ o d', o ∈ orgs → description_html o = Some d' →
               (Py.len d' ≤ Py.len d)%nat.
Proof.
  destruct orgs as [|o1 [|o2 orgs]]; [simpl; lia|simpl; lia|]. intros _.
  intros (r & s & _ & _ & ->)%merge_organizations_inv.
  unfold description_html at 1. cbn [description_html_key get].
  eexists. split; [done|].
  destruct (longest_from description_html (o1 :: o2 :: orgs) EmptyString)
    as (Hfrom & _ & Hall).
  split; [exact Hfrom|exact Hall].
Qed.

Lemma merged_description_rule_witness :
  ∃ m d, MergeByUrls.merge_organizations site_group = Some m ∧
         description_html m = Some d ∧
         (d = EmptyString ∨ ∃ o, o ∈ site_group ∧ description_html o = Some d) ∧
         ∀ o d', o ∈ site_group → description_html o = Some d' →
                 (Py.len d' ≤ Py.len d)%nat.
Proof.
  eexists.
  destruct (merged_description_rule site_group _ ltac:(simpl; lia) eq_refl)
    as (d & Hd & Hrest).
  exists d. split; [reflexivity|]. split; [exact Hd|exact Hrest].
Defined.

Section CaseAndBlanks.
Implicit Types (P : ascii → bool) (s u : string) (c : ascii).

Lemma lower_char_idem c : Py.lower_char (Py.lower_char c) = Py.lower_char c.
Proof. destruct c as [[] [] [] [] [] [] [] []]; reflexivity. Qed.

Lemma is_space_lower c : Py.is_space (Py.lower_char c) = Py.is_space c.
Proof. destruct c as [[] [] [] [] [] [] [] []]; reflexivity. Qed.

Lemma lower_idem s : Py.lower (Py.lower s) = Py.lower s.
Proof. induction s as [|a s IH]; simpl; [done|]. by rewrite lower_char_idem, IH. Qed.

Lemma lstrip_lower s :
  Py.lstrip Py.is_space (Py.lower s) = Py.lower (Py.lstrip Py.is_space s).
Proof.
  induction s as [|a s IH]; simpl; [done|].
  rewrite is_space_lower. by destruct (Py.is_space a).
Qed.

Lemma rstrip_lower s :
  Py.rstrip Py.is_space (Py.lower s) = Py.lower (Py.rstrip Py.is_space s).
Proof.
  induction s as [|a s IH]; simpl; [done|].
  rewrite IH, is_empty_lower, is_space_lower.
  by destruct (Py.is_empty _ && Py.is_space a).
Qed.

Lemma strip_lower s : Py.strip (Py.lower s) = Py.lower (Py.strip s).
Proof. unfold Py.strip. by rewrite lstrip_lower, rstrip_lower. Qed.

Lemma rstrip_idem P s : Py.rstrip P (Py.rstrip P s) = Py.rstrip P s.
Proof.
  induction s as [|a s IH]; simpl; [done|].
  destruct (Py.is_empty (Py.rstrip P s) && P a) eqn:Hc; [done|].
  simpl. by rewrite IH, Hc.
Qed.

Lemma lstrip_head P s :
  Py.lstrip P s = EmptyString ∨
  ∃ a t, Py.lstrip P s = String a t ∧ P a = false.
Proof.
  induction s as [|a s IH]; simpl; [by left|].
  destruct (P a) eqn:Ha; [done|]. right. by exists a, s.
Qed.

Lemma lstrip_rstrip_head P a t :
  P a = false →
  Py.lstrip P (Py.rstrip P (String a t)) = Py.rstrip P (String a t).
Proof. intros Ha. simpl. rewrite Ha, andb_false_r. simpl. by rewrite Ha. Qed.

Lemma strip_idem s : Py.strip (Py.strip s) = Py.strip s.
Proof.
  unfold Py.strip.
  destruct (lstrip_head Py.is_space s) as [->|(a & t & -> & Ha)]; [done|].
  by rewrite (lstrip_rstrip_head _ a t Ha), rstrip_idem.
Qed.

Lemma clean_url_lower u : clean_url (Py.lower u) = clean_url u.
Proof. unfold clean_url. by rewrite strip_lower, lower_idem. Qed.

Lemma clean_url_strip u : clean_url (Py.strip u) = clean_url u.
Proof. unfold clean_url. by rewrite strip_idem. Qed.

Lemma clean_url_blank u : Py.is_empty (Py.strip u) = true → clean_url u = EmptyString.
Proof. unfold clean_url. by destruct (Py.strip u). Qed.
End CaseAndBlanks.

(** X16: the normalized key of a URL does not depend on the case of its
    letters nor on blanks around it, in merge_by_urls.py and in
    merge_with_api_names.py alike. *)
Theorem url_keys_ignore_case_and_blanks (host_ok : string → bool) (u : string) :
  MergeByUrls.normalize_url host_ok (Py.lower u)
  = MergeByUrls.normalize_url host_ok u ∧
  MergeByUrls.normalize_url host_ok (Py.strip u)
  = MergeByUrls.normalize_url host_ok u ∧
  MergeWithApiNames.normalize_url host_ok (Py.lower u)
  = MergeWithApiNames.normalize_url host_ok u ∧
  MergeWithApiNames.normalize_url host_ok (Py.strip u)
  = MergeWithApiNames.normalize_url host_ok u.
Proof.
  unfold MergeByUrls.normalize_url, MergeWithApiNames.normalize_url.
  rewrite is_empty_lower, clean_url_lower, clean_url_strip.
  split; [done|]. 
  destruct (Py.is_empty (Py.strip u)) eqn:Hs.
  - rewrite (clean_url_blank u Hs). simpl. by destruct (Py.is_empty u).
  - assert (Py.is_empty u = false) as -> by (by destruct u). done.
Qed.

(** X17: in merge_by_urls.py the key of a website is not confined to the
    [web:] kind.  A website whose host contains twitter.com or x.com as
    a substring (and not github.com) and whose path has
    a first segment is entered under the [twitter:] key of that segment,
    the key a record with that Twitter handle has. *)
Theorem website_can_carry_twitter_key (host_ok : string → bool) (o : org)
    (w h : string) (parsed : Url.parsed) :
  website o = Some w →
  parsed_input host_ok w = Some parsed →
  Py.contains "github.com" (domain_of parsed) = false →
  Py.contains "twitter.com" (domain_of parsed) = true ∨
  Py.contains "x.com" (domain_of parsed) = true →
  path_handle (Url.path parsed) = Some h →
  MergeByUrls.normalize_url host_ok w = Some ("twitter:" +:+ h) ∧
  ("website", "twitter:" +:+ h, w) ∈ MergeByUrls.extract_key_urls host_ok o.
Proof.
  intros Hw Hparsed Hgit Htw Hh.
  assert (MergeByUrls.normalize_url host_ok w = Some ("twitter:" +:+ h)) as Hkey.
  { rewrite normalize_url_unfold, Hparsed. simpl. rewrite Hgit.
    assert (Py.contains "twitter.com" (domain_of parsed)
            || Py.contains "x.com" (domain_of parsed) = true) as ->.
    { destruct Htw as [->| ->]; [done|by rewrite orb_true_r]. }
    by rewrite Hh. }
  split; [done|].
  unfold MergeByUrls.extract_key_urls, MergeByUrls.website_key.
  assert (truthy (website o) = Some w) as ->.
  { rewrite Hw. unfold truthy, parsed_input in *. by destruct (Py.is_empty w). }
  rewrite Hkey. apply elem_of_app. left. simpl. left.
Qed.

Lemma website_can_carry_twitter_key_witness :
  MergeByUrls.normalize_url any_host "https://www.linux.com/news"
  = Some "twitter:news" ∧
  ("website", "twitter:news", "https://www.linux.com/news")
  ∈ MergeByUrls.extract_key_urls any_host linux_record.
Proof.
  apply (website_can_carry_twitter_key any_host linux_record
           "https://www.linux.com/news" "news"
           {| Url.scheme := "https"; Url.netloc := "www.linux.com";
              Url.path := "/news" |}).
  - reflexivity.
  - vm_compute. reflexivity.
  - vm_compute. reflexivity.
  - right. vm_compute. reflexivity.
  - vm_compute. reflexivity.
Defined.

Section UnionLists.
Context {A : Type} `{EqDecision A}.
Implicit Types (out l : list A) (lists : list (list A)).

Lemma add_new out l :
  NoDup out →
  NoDup (foldl (λ out x, if decide (x ∈ out) then out else out ++ [x]) out l) ∧
  ∀ x, x ∈ foldl (λ out x, if decide (x ∈ out) then out else out ++ [x]) out l
       ↔ x ∈ out ∨ x ∈ l.
Proof.
  revert out. induction l as [|y l IH]; intros out Hnd; simpl.
  - split; [done|]. intros x. rewrite elem_of_nil. tauto.
  - case_decide as Hy.
    + destruct (IH out Hnd) as [? Hiff]. split; [done|].
      intros x. rewrite Hiff, elem_of_cons.
      split; [tauto|]. intros [?|[->|?]]; auto.
    + destruct (IH (out ++ [y])) as [? Hiff].
      { apply list.NoDup_app. split; [done|]. split; [|apply NoDup_singleton].
        intros x Hx ->%list_elem_of_singleton. done. }
      split; [done|]. intros x.
      rewrite Hiff, elem_of_app, list_elem_of_singleton, elem_of_cons. tauto.
Qed.

Lemma union_from lists out :
  NoDup out →
  NoDup (foldl (λ out l,
                  foldl (λ out x, if decide (x ∈ out) then out else out ++ [x]) out l)
               out lists) ∧
  ∀ x, x ∈ foldl (λ out l,
                    foldl (λ out x, if decide (x ∈ out) then out else out ++ [x]) out l)
                 out lists
       ↔ x ∈ out ∨ ∃ l, l ∈ lists ∧ x ∈ l.
Proof.
  revert out. induction lists as [|l lists IH]; intros out Hnd; simpl.
  - split; [done|]. intros x. split; [by left|].
    intros [?|(l & ?%elem_of_nil & _)]; done.
  - destruct (add_new out l Hnd) as [Hnd' Hl].
    destruct (IH _ Hnd') as [? Hiff]. split; [done|].
    intros x. rewrite Hiff, Hl. split.
    + intros [[?|?]|(l' & ? & ?)]; [by left| |].
      * right. exists l. split; [left|done].
      * right. exists l'. split; [by right|done].
    + intros [?|(l' & [->|?]%elem_of_cons & ?)]; [by left; left|by left; right|].
      right. by exists l'.
Qed.
End UnionLists.

(** X18: [union_lists] returns a list without repetitions that holds
    exactly the elements of its argument lists. *)
Theorem union_lists_spec {A} `{EqDecision A} (lists : list (list A)) :
  NoDup (DomainGroups.union_lists lists) ∧
  ∀ x, x ∈ DomainGroups.union_lists lists ↔ ∃ l, l ∈ lists ∧ x ∈ l.
Proof.
  destruct (union_from lists [] (NoDup_nil_2)) as [Hnd Hiff].
  split; [done|]. intros x. unfold DomainGroups.union_lists. rewrite Hiff.
  rewrite elem_of_nil. tauto.
Qed.

Section DomainPartition.
Variable host_ok : string → bool.

Lemma find_domain_groups_fold (docs seen : list org) by_domain no_domain :
  concat by_domain.*2 ++ no_domain ≡ₚ seen →
  NoDup by_domain.*1 →
  Forall (λ g, Py.is_empty g.1 = false ∧ g.2 ≠ []) by_domain →
  Forall (λ g, Forall (λ d, DomainGroups.domain_from_url host_ok (website d)
                            = Some g.1) g.2) by_domain →
  Forall (λ d, truthy (DomainGroups.domain_from_url host_ok (website d)) = None)
         no_domain →
  let r := foldl (λ '(by_domain, no_domain) d,
                    match truthy (DomainGroups.domain_from_url host_ok (website d)) with
                    | Some domain =>
                        (MergeByUrls.dict_append domain d by_domain, no_domain)
                    | None => (by_domain, no_domain ++ [d])
                    end) (by_domain, no_domain) docs in
  concat r.1.*2 ++ r.2 ≡ₚ seen ++ docs ∧
  NoDup r.1.*1 ∧
  Forall (λ g, Py.is_empty g.1 = false ∧ g.2 ≠ []) r.1 ∧
  Forall (λ g, Forall (λ d, DomainGroups.domain_from_url host_ok (website d)
                            = Some g.1) g.2) r.1 ∧
  Forall (λ d, truthy (DomainGroups.domain_from_url host_ok (website d)) = None) r.2.
Proof.
  revert seen by_domain no_domain.
  induction docs as [|d docs IH]; intros seen by_domain no_domain
    Hperm Hnd Hkeys Hdom Hno; simpl.
  - by rewrite app_nil_r.
  - rewrite (assoc_L (++) seen [d] docs : seen ++ d :: docs = (seen ++ [d]) ++ docs).
    destruct (truthy (DomainGroups.domain_from_url host_ok (website d)))
      as [domain|] eqn:Hd.
    + assert (DomainGroups.domain_from_url host_ok (website d) = Some domain ∧
              Py.is_empty domain = false) as [Hsome Hne].
      { unfold truthy in Hd.
        destruct (DomainGroups.domain_from_url host_ok (website d)) as [v|]; [|done].
        destruct (Py.is_empty v) eqn:Hv; [done|]. by injection Hd as ->. }
      apply IH.
      * rewrite dict_append_concat, <-Hperm, <-!(assoc_L (++)).
        f_equiv. apply Permutation_app_comm.
      * by apply dict_append_NoDup.
      * by apply (dict_append_named (λ k, Py.is_empty k = false)).
      * by apply (dict_append_rel
                    (λ k v, DomainGroups.domain_from_url host_ok (website v) = Some k)).
      * done.
    + apply IH; try done.
      * by rewrite (assoc_L (++)), Hperm.
      * apply Forall_app. split; [done|]. by constructor.
Qed.
End DomainPartition.

(** X19: [find_domain_groups] files every document exactly once: the
    domain groups together with [no_domain] are a permutation of the
    documents; the groups have distinct, non-empty keys, are not empty
    and hold only documents whose website has the key as its domain;
    [no_domain] holds the documents without a usable domain, among them
    every document whose website is missing or empty. *)
Theorem domain_groups_partition (host_ok : string → bool) (docs : list org) :
  concat (DomainGroups.find_domain_groups host_ok docs).1.*2
    ++ (DomainGroups.find_domain_groups host_ok docs).2 ≡ₚ docs ∧
  NoDup (DomainGroups.find_domain_groups host_ok docs).1.*1 ∧
  Forall (λ g, Py.is_empty g.1 = false ∧ g.2 ≠ [] ∧
               Forall (λ d, DomainGroups.domain_from_url host_ok (website d)
                            = Some g.1) g.2)
         (DomainGroups.find_domain_groups host_ok docs).1 ∧
  Forall (λ d, truthy (DomainGroups.domain_from_url host_ok (website d)) = None)
         (DomainGroups.find_domain_groups host_ok docs).2 ∧
  Forall (λ d, truthy (website d) = None →
               d ∈ (DomainGroups.find_domain_groups host_ok docs).2) docs.
Proof.
  destruct (find_domain_groups_fold host_ok docs [] [] [])
    as (Hperm & Hnd & Hkeys & Hdom & Hno); try done; try by constructor.
  rewrite list.Forall_forall in Hkeys. rewrite list.Forall_forall in Hdom.
  split; [done|]. split; [done|]. split; [|split; [done|]].
  - apply list.Forall_forall. intros g Hg.
    destruct (Hkeys g Hg). split; [done|]. split; [done|]. by apply Hdom.
  - apply list.Forall_forall. intros d Hd Hweb.
    simpl in Hperm. rewrite <-Hperm in Hd.
    apply elem_of_app in Hd as [Hd|Hd]; [|done].
    apply elem_of_concat in Hd as (members & Hd & Hm).
    apply list_elem_of_fmap in Hm as (g & -> & Hg).
    specialize (Hdom g Hg). rewrite list.Forall_forall in Hdom.
    specialize (Hdom d Hd). unfold DomainGroups.domain_from_url in Hdom.
    by rewrite Hweb in Hdom.
Qed.

Section FuzzyPartition.
Variable token_set_ratio : string → string → Q.
Variable thresh : Q.
Implicit Types (docs later group : list org) (used : gset string) (d e : org).

Lemma filter_iff_elem {A} (P Q : A → Prop) `{∀ x, Decision (P x)}
    `{∀ x, Decision (Q x)} (l : list A) :
  (∀ x, x ∈ l → P x ↔ Q x) → filter P l = filter Q l.
Proof.
  induction l as [|x l IH]; intros HPQ; [done|].
  rewrite !filter_cons.
  rewrite IH by (intros y Hy; apply HPQ; by right).
  destruct (decide (P x)) as [HP|HP], (decide (Q x)) as [HQ|HQ]; try done.
  - destruct HQ. apply HPQ; [left|done].
  - destruct HP. apply HPQ; [left|done].
Qed.

Lemma filter_iff_perm {A} (P Q : A → Prop) `{∀ x, Decision (P x)}
    `{∀ x, Decision (Q x)} (l : list A) :
  (∀ x, x ∈ l → P x ↔ Q x) → filter P l ≡ₚ filter Q l.
Proof. intros HPQ. by rewrite (filter_iff_elem P Q l HPQ). Qed.

Lemma filter_split {A} (P S : A → Prop) `{∀ x, Decision (P x)}
    `{∀ x, Decision (S x)} (l : list A) :
  filter (λ x, P x ∧ S x) l ++ filter (λ x, P x ∧ ¬ S x) l ≡ₚ filter P l.
Proof.
  induction l as [|x l IH]; [done|].
  rewrite !filter_cons.
  destruct (decide (P x)) as [HP|HP], (decide (S x)) as [HS|HS].
  - rewrite decide_True, decide_False by tauto. simpl. by rewrite IH.
  - rewrite decide_False, decide_True by tauto.
    rewrite <-Permutation_middle. by rewrite IH.
  - rewrite !decide_False by tauto. done.
  - rewrite !decide_False by tauto. done.
Qed.

Lemma absorb_spec name_i later used :
  NoDup (oid <$> later) →
  (DomainGroups.absorb token_set_ratio thresh name_i later used).1
  = filter (λ e, (oid e ∉ used) ∧ Is_true (Qle_bool thresh (token_set_ratio name_i (Py.lower (name e))))) later ∧
  (DomainGroups.absorb token_set_ratio thresh name_i later used).2
  = used ∪ list_to_set
             (oid <$> (DomainGroups.absorb token_set_ratio thresh name_i later used).1).
Proof.
  revert used. induction later as [|e later IH]; intros used Hnd; simpl.
  - split; [done|]. symmetry. apply (right_id_L ∅ (∪)).
  - rewrite fmap_cons in Hnd.
    pose proof (NoDup_cons_1_1 _ _ Hnd) as He. pose proof (NoDup_cons_1_2 _ _ Hnd) as Hnd'.
    rewrite filter_cons. case_decide as Hused.
    + rewrite decide_False by tauto. by apply IH.
    + destruct (Qle_bool thresh (token_set_ratio name_i (Py.lower (name e)))) eqn:Hs.
      * rewrite decide_True by (split; [done|exact I]).
        destruct (IH (used ∪ {[oid e]}) Hnd') as [Hg Hu].
        destruct (DomainGroups.absorb token_set_ratio thresh name_i later
                    (used ∪ {[oid e]})) as [group used'].
        simpl in *. split.
        -- f_equal. rewrite Hg. apply filter_iff_elem. intros x Hx.
           assert (oid x ≠ oid e) as Hxe.
           { intros Heq. apply He. rewrite <-Heq. by apply list_elem_of_fmap_2. }
           rewrite not_elem_of_union, not_elem_of_singleton. tauto.
        -- rewrite Hu. by rewrite (assoc_L (∪)).
      * rewrite decide_False by (simpl; tauto). by apply IH.
Qed.

Lemma fuzzy_group_from_perm docs used :
  NoDup (oid <$> docs) →
  concat (DomainGroups.fuzzy_group_from token_set_ratio thresh docs used)
  ≡ₚ filter (λ d, oid d ∉ used) docs.
Proof.
  revert used. induction docs as [|d later IH]; intros used Hnd; simpl; [done|].
  rewrite fmap_cons in Hnd.
  pose proof (NoDup_cons_1_1 _ _ Hnd) as Hd. pose proof (NoDup_cons_1_2 _ _ Hnd) as Hnd'.
  rewrite filter_cons. case_decide as Hused.
  - rewrite decide_False by tauto. by apply IH.
  - rewrite decide_True by done.
    destruct (absorb_spec (Py.lower (name d)) later (used ∪ {[oid d]}) Hnd')
      as [Hg Hu].
    destruct (DomainGroups.absorb token_set_ratio thresh (Py.lower (name d)) later
                (used ∪ {[oid d]})) as [group used'].
    simpl in *. rewrite IH by done. f_equiv.
    rewrite <-(filter_split (λ e, oid e ∉ used)
                 (λ e, Is_true (Qle_bool thresh (token_set_ratio (Py.lower (name d)) (Py.lower (name e))))) later).
    f_equiv.
    + rewrite Hg. apply filter_iff_perm. intros x Hx.
      assert (oid x ≠ oid d) as Hxd.
      { intros Heq. apply Hd. rewrite <-Heq. by apply list_elem_of_fmap_2. }
      rewrite not_elem_of_union, not_elem_of_singleton. tauto.
    + apply filter_iff_perm. intros x Hx.
      assert (oid x ≠ oid d) as Hxd.
      { intros Heq. apply Hd. rewrite <-Heq. by apply list_elem_of_fmap_2. }
      assert (oid x ∈ (list_to_set (oid <$> group) : gset string) ↔
              (oid x ∉ used) ∧ Is_true (Qle_bool thresh (token_set_ratio (Py.lower (name d)) (Py.lower (name x))))) as Hin.
      { rewrite elem_of_list_to_set, list_elem_of_fmap. split.
        - intros (y & Hoid & Hy). rewrite Hg in Hy.
          apply list_elem_of_filter in Hy as [[Hyu Hys] Hy].
          assert (y = x) as ->.
          2:{ split; [|done]. intros ?. apply Hyu, elem_of_union. by left. }
          apply list_elem_of_lookup_1 in Hy as [i Hi].
          apply list_elem_of_lookup_1 in Hx as [j Hj].
          assert (i = j) as ->; [|congruence].
          eapply NoDup_lookup; [exact Hnd'| |].
          + by rewrite list_lookup_fmap, Hi.
          + rewrite list_lookup_fmap, Hj. simpl. by rewrite Hoid.
        - intros [Hxu Hxs]. exists x. split; [done|]. rewrite Hg.
          apply list_elem_of_filter. split; [|done]. split; [|done].
          rewrite not_elem_of_union, not_elem_of_singleton. tauto. }
      rewrite Hu, !not_elem_of_union, not_elem_of_singleton, Hin. tauto.
Qed.

Lemma absorb_similar name_i later used :
  Forall (λ e, Qle thresh (token_set_ratio name_i (Py.lower (name e))))
         (DomainGroups.absorb token_set_ratio thresh name_i later used).1.
Proof.
  revert used. induction later as [|e later IH]; intros used; simpl; [constructor|].
  case_decide; [apply IH|].
  destruct (Qle_bool thresh (token_set_ratio name_i (Py.lower (name e)))) eqn:Hs;
    [|apply IH].
  specialize (IH (used ∪ {[oid e]})).
  destruct (DomainGroups.absorb token_set_ratio thresh name_i later
              (used ∪ {[oid e]})) as [group used'].
  simpl in *. constructor; [by apply Qle_bool_iff|done].
Qed.

Lemma fuzzy_group_from_similar docs used :
  Forall (λ g, ∃ d rest, g = d :: rest ∧
               Forall (λ e, Qle thresh (token_set_ratio (Py.lower (name d))
                                                        (Py.lower (name e)))) rest)
         (DomainGroups.fuzzy_group_from token_set_ratio thresh docs used).
Proof.
  revert used. induction docs as [|d later IH]; intros used; simpl; [constructor|].
  case_decide; [apply IH|].
  pose proof (absorb_similar (Py.lower (name d)) later (used ∪ {[oid d]})) as Hsim.
  destruct (DomainGroups.absorb token_set_ratio thresh (Py.lower (name d)) later
              (used ∪ {[oid d]})) as [group used'].
  constructor; [|apply IH]. by exists d, group.
Qed.
End FuzzyPartition.

(** X20: when the documents have distinct identifiers,
    [fuzzy_group_remaining] loses and duplicates none of them: its
    groups together are a permutation of the documents.  Every group
    starts with a document whose lower-cased name scores at least the
    threshold against the lower-cased name of each other member. *)
Theorem fuzzy_groups_partition (token_set_ratio : string → string → Q) (thresh : Q)
    (docs : list org) :
  NoDup (oid <$> docs) →
  concat (DomainGroups.fuzzy_group_remaining token_set_ratio thresh docs) ≡ₚ docs ∧
  Forall (λ g, ∃ d rest, g = d :: rest ∧
               Forall (λ e, Qle thresh (token_set_ratio (Py.lower (name d))
                                                        (Py.lower (name e)))) rest)
         (DomainGroups.fuzzy_group_remaining token_set_ratio thresh docs).
Proof.
  intros Hnd. split; [|apply fuzzy_group_from_similar].
  unfold DomainGroups.fuzzy_group_remaining.
  rewrite fuzzy_group_from_perm by done. clear Hnd.
  induction docs as [|d docs IH]; [done|].
  rewrite filter_cons, decide_True by apply not_elem_of_empty. by rewrite IH.
Qed.

Lemma fuzzy_groups_partition_witness :
  map (map oid) (DomainGroups.fuzzy_group_remaining same_name_score 90 nameless_docs)
  = [["a1"; "c3"]; ["b2"]] ∧
  concat (DomainGroups.fuzzy_group_remaining same_name_score 90 nameless_docs)
  ≡ₚ nameless_docs ∧
  Forall (λ g, ∃ d rest, g = d :: rest ∧
               Forall (λ e, Qle 90 (same_name_score (Py.lower (name d))
                                                    (Py.lower (name e)))) rest)
         (DomainGroups.fuzzy_group_remaining same_name_score 90 nameless_docs).
Proof.
  split; [by vm_compute|].
  apply (fuzzy_groups_partition same_name_score 90 nameless_docs).
  exact (bool_decide_unpack (NoDup (oid <$> nameless_docs)) I).
Defined.

Section ApiNames.
Local Open Scope nat_scope.
Implicit Types (raw_orgs : list org) (groups : list (string * list org))
  (processed : gset nat) (names : list string).

(** *** The name matching *)

Lemma dict_keys_from names ks n :
  n ∈ foldl (λ ks n, if decide (n ∈ ks) then ks else ks ++ [n]) ks names
  ↔ n ∈ ks ∨ n ∈ names.
Proof.
  revert ks. induction names as [|x names IH]; intros ks; simpl.
  - rewrite elem_of_nil. tauto.
  - rewrite IH, elem_of_cons. case_decide as Hx.
    + split; [tauto|]. intros [?|[->|?]]; auto.
    + rewrite elem_of_app, list_elem_of_singleton. tauto.
Qed.

Lemma elem_of_dict_keys names n : n ∈ ApiNamesMain.dict_keys names ↔ n ∈ names.
Proof.
  unfold ApiNamesMain.dict_keys. rewrite dict_keys_from, elem_of_nil. tauto.
Qed.

Lemma match_name_Some names raw_name n :
  ApiNamesMain.match_name names raw_name = Some n → n ∈ names.
Proof.
  unfold ApiNamesMain.match_name. case_decide; [by intros [= <-]|].
  destruct (list_find _ _) as [[i k]|] eqn:Hfind; [|done].
  simpl. intros [= <-]. apply list_find_Some in Hfind as (Hk & _).
  apply list_elem_of_lookup_2 in Hk. by rewrite elem_of_dict_keys in Hk.
Qed.

Lemma match_name_None names raw_name :
  ApiNamesMain.match_name names raw_name = None ↔
  (raw_name ∉ names) ∧ ∀ n, n ∈ names → ApiNamesMain.name_matches raw_name n = false.
Proof.
  unfold ApiNamesMain.match_name. case_decide as Hin; [split; [done|by intros [? _]]|].
  rewrite fmap_None, list_find_None, list.Forall_forall.
  split.
  - intros Hall. split; [done|]. intros n Hn.
    rewrite <-elem_of_dict_keys in Hn. apply Hall in Hn.
    by destruct (ApiNamesMain.name_matches _ _).
  - intros [_ Hall] n Hn. rewrite elem_of_dict_keys in Hn.
    rewrite (Hall n Hn). tauto.
Qed.

Lemma contains_empty s : Py.contains EmptyString s = true.
Proof. by destruct s. Qed.

Lemma name_matches_empty n : ApiNamesMain.name_matches EmptyString n = true.
Proof.
  unfold ApiNamesMain.name_matches. simpl.
  by rewrite contains_empty, orb_true_r.
Qed.
(** *** The first pass *)

Lemma index_of_found raw_orgs o :
  o ∈ raw_orgs →
  ∃ idx, ApiNamesMain.index_of o raw_orgs = Some idx ∧ raw_orgs !! idx = Some o.
Proof.
  intros Ho. unfold ApiNamesMain.index_of.
  destruct (list_find_elem_of (λ o', o' = o) raw_orgs o Ho eq_refl) as [[idx o'] Hf].
  rewrite Hf. exists idx. split; [done|].
  by apply list_find_Some in Hf as (Hl & -> & _).
Qed.

Lemma take_org_state names raw_orgs api_name st o :
  first_pass_state names raw_orgs st → o ∈ raw_orgs → api_name ∈ names →
  ∃ st', ApiNamesMain.take_org raw_orgs api_name (Some st) o = Some st' ∧
         first_pass_state names raw_orgs st'.
Proof.
  intros (taken & Hnd & Hiff & Hlt & Hperm & Hkeys & Hnames) Ho Hn.
  destruct st as [groups processed]. simpl in *.
  destruct (index_of_found raw_orgs o Ho) as (idx & Hidx & Hlook).
  rewrite Hidx. simpl. case_decide as Hp.
  - eexists. split; [done|]. by exists taken.
  - eexists. split; [done|]. exists (taken ++ [idx]). simpl.
    split; [|split; [|split; [|split; [|split]]]].
    + apply list.NoDup_app. split; [done|]. split; [|apply NoDup_singleton].
      intros i Hi ->%list_elem_of_singleton. by apply Hp, Hiff.
    + intros i. rewrite elem_of_app, list_elem_of_singleton, elem_of_union,
        elem_of_singleton, Hiff. tauto.
    + apply Forall_app. split; [done|]. constructor; [|constructor].
      by eapply lookup_lt_Some.
    + rewrite dict_append_concat, omap_app, Hperm. simpl. by rewrite Hlook.
    + by apply dict_append_NoDup.
    + by apply (dict_append_named (λ k, k ∈ names)).
Qed.

Lemma take_orgs_state names raw_orgs api_name st (l : list org) :
  first_pass_state names raw_orgs st → Forall (λ o, o ∈ raw_orgs) l →
  api_name ∈ names →
  ∃ st', foldl (ApiNamesMain.take_org raw_orgs api_name) (Some st) l = Some st' ∧
         first_pass_state names raw_orgs st'.
Proof.
  intros Hst Hl Hn. revert st Hst.
  induction Hl as [|o l Ho _ IH]; intros st Hst; cbn [foldl]; [by eauto|].
  destruct (take_org_state names raw_orgs api_name st o Hst Ho Hn) as (st1 & -> & Hst1).
  by apply IH.
Qed.

Lemma first_pass_state_fold names raw_orgs (table : gmap string string)
    (d : list (string * list org)) st :
  (∀ k n, table !! k = Some n → n ∈ names) →
  Forall (λ g, Forall (λ o, o ∈ raw_orgs) g.2) d →
  first_pass_state names raw_orgs st →
  ∃ st', foldl (λ st kv,
                  match table !! kv.1 with
                  | Some api_name =>
                      foldl (ApiNamesMain.take_org raw_orgs api_name) st kv.2
                  | None => st
                  end) (Some st) d = Some st' ∧
         first_pass_state names raw_orgs st'.
Proof.
  intros Htable Hd. revert st.
  induction Hd as [|[k l] d Hl _ IH]; intros st Hst; cbn [foldl fst snd]; [by eauto|].
  destruct (table !! k) as [n|] eqn:Hk; [|by apply IH].
  destruct (take_orgs_state names raw_orgs n st l Hst Hl (Htable _ _ Hk))
    as (st1 & -> & Hst1).
  by apply IH.
Qed.

Lemma api_url_to_name_values host_ok (api_orgs : list ApiNamesMain.api_entry) k n :
  ApiNamesMain.api_url_to_name host_ok api_orgs !! k = Some n →
  n ∈ ApiNamesMain.entry_name <$> api_orgs.
Proof.
  unfold ApiNamesMain.api_url_to_name.
  assert (∀ (m : gmap string string),
            (∀ k n, m !! k = Some n → n ∈ ApiNamesMain.entry_name <$> api_orgs) →
            ∀ l, Forall (λ a, a ∈ api_orgs) l →
            ∀ k n, foldl (λ m a,
                     match truthy (ApiNamesMain.url a) with
                     | Some u =>
                         match MergeWithApiNames.normalize_url host_ok u with
                         | Some k => <[k := ApiNamesMain.entry_name a]> m
                         | None => m
                         end
                     | None => m
                     end) m l !! k = Some n →
                   n ∈ ApiNamesMain.entry_name <$> api_orgs) as Hgen.
  { intros m Hm l Hl. revert m Hm.
    induction Hl as [|a l Ha _ IH]; intros m Hm; simpl; [done|].
    apply IH. destruct (truthy _) as [u|]; [|done].
    destruct (MergeWithApiNames.normalize_url host_ok u) as [k'|]; [|done].
    intros k0 n0. destruct (decide (k0 = k')) as [->|Hne].
    - rewrite lookup_insert_eq. intros [= <-]. by apply list_elem_of_fmap_2.
    - rewrite lookup_insert_ne by done. apply Hm. }
  apply (Hgen ∅); [by intros ? ?; rewrite lookup_empty|].
  by apply list.Forall_forall.
Qed.

Lemma url_to_raw_orgs_members host_ok raw_orgs :
  Forall (λ g, Forall (λ o, o ∈ raw_orgs) g.2)
         (ApiNamesMain.url_to_raw_orgs host_ok raw_orgs).
Proof.
  unfold ApiNamesMain.url_to_raw_orgs.
  assert (∀ l d, Forall (λ o, o ∈ raw_orgs) l →
            Forall (λ g : string * list org, Forall (λ o, o ∈ raw_orgs) g.2) d →
            Forall (λ g, Forall (λ o, o ∈ raw_orgs) g.2)
              (foldl (λ d org0,
                        foldl (λ d k, MergeByUrls.dict_append k org0 d) d
                              (MergeWithApiNames.extract_key_urls host_ok org0))
                     d l)) as Hgen.
  { intros l d Hl. revert d. induction Hl as [|o l Ho _ IH]; intros d Hd; simpl; [done|].
    apply IH. generalize (MergeWithApiNames.extract_key_urls host_ok o). intros ks.
    revert d Hd. induction ks as [|k ks IHk]; intros d Hd; simpl; [done|].
    apply IHk. by apply (dict_append_rel (λ _ v, v ∈ raw_orgs)). }
  apply Hgen; [by apply list.Forall_forall|constructor].
Qed.

(** *** The second pass *)

Lemma second_pass_spec names processed raw_orgs i (rest : list org)
    (st : list (string * list org) * list org) :
  (∀ j, j < length rest → raw_orgs !! (i + j) = rest !! j) →
  NoDup st.1.*1 →
  Forall (λ g, g.1 ∈ names ∧ g.2 ≠ []) st.1 →
  Forall (λ u, ApiNamesMain.match_name names (name u) = None) st.2 →
  concat (ApiNamesMain.second_pass names processed i rest st).1.*2
    ++ (ApiNamesMain.second_pass names processed i rest st).2
  ≡ₚ (concat st.1.*2 ++ st.2)
     ++ omap (λ j, raw_orgs !! j)
             (filter (λ j, j ∉ processed) (seq i (length rest))) ∧
  NoDup (ApiNamesMain.second_pass names processed i rest st).1.*1 ∧
  Forall (λ g, g.1 ∈ names ∧ g.2 ≠ [])
         (ApiNamesMain.second_pass names processed i rest st).1 ∧
  Forall (λ u, ApiNamesMain.match_name names (name u) = None)
         (ApiNamesMain.second_pass names processed i rest st).2.
Proof.
  revert i st. induction rest as [|o rest IH]; intros i st Hraw Hnd Hnames Hun.
  - simpl. by rewrite app_nil_r.
  - assert (raw_orgs !! i = Some o) as Hi.
    { rewrite <-(Nat.add_0_r i). apply (Hraw 0). simpl. lia. }
    assert (∀ j, j < length rest → raw_orgs !! (S i + j) = rest !! j) as Hraw'.
    { intros j Hj. replace (S i + j) with (i + S j) by lia.
      apply (Hraw (S j)). simpl. lia. }
    cbn [ApiNamesMain.second_pass length seq]. rewrite filter_cons.
    destruct st as [groups unmatched]. simpl in Hnd, Hnames, Hun.
    case_decide as Hp.
    + rewrite decide_False by tauto. by apply IH.
    + rewrite decide_True by done. simpl omap. rewrite Hi.
      destruct (ApiNamesMain.match_name names (name o)) as [n|] eqn:Hm.
      * destruct (IH (S i) (MergeByUrls.dict_append n o groups, unmatched) Hraw')
          as (Hperm & ? & ? & ?); simpl.
        { by apply dict_append_NoDup. }
        { apply (dict_append_named (λ k, k ∈ names)); [|done].
          by eapply match_name_Some. }
        { done. }
        split; [|done]. rewrite Hperm. simpl. rewrite dict_append_concat.
        rewrite <-!(assoc_L (++)). f_equiv. simpl.
        rewrite (Permutation_app_comm unmatched (o :: _)). simpl.
        f_equiv. apply Permutation_app_comm.
      * destruct (IH (S i) (groups, unmatched ++ [o]) Hraw')
          as (Hperm & ? & ? & ?); simpl; [done|done| |].
        { apply Forall_app. split; [done|]. by constructor. }
        split; [|done]. rewrite Hperm. simpl.
        by rewrite <-!(assoc_L (++)).
Qed.

Lemma omap_lookup_seq (pre raw_orgs : list org) :
  omap (λ j, (pre ++ raw_orgs) !! j) (seq (length pre) (length raw_orgs)) = raw_orgs.
Proof.
  revert pre. induction raw_orgs as [|o l IH]; intros pre; simpl; [done|].
  rewrite list_lookup_middle by done. f_equal.
  specialize (IH (pre ++ [o])). rewrite length_app, Nat.add_1_r in IH.
  by rewrite <-(assoc_L (++)) in IH.
Qed.

Lemma taken_and_rest raw_orgs processed (taken : list nat) :
  NoDup taken → (∀ i, i ∈ taken ↔ i ∈ processed) →
  Forall (λ i, i < length raw_orgs) taken →
  omap (λ j, raw_orgs !! j) taken
    ++ omap (λ j, raw_orgs !! j)
            (filter (λ j, j ∉ processed) (seq 0 (length raw_orgs)))
  ≡ₚ raw_orgs.
Proof.
  intros Hnd Hiff Hlt. rewrite <-omap_app.
  pose proof (omap_lookup_seq [] raw_orgs) as Hseq. simpl in Hseq.
  trans (omap (λ j, raw_orgs !! j) (seq 0 (length raw_orgs))); [|by rewrite Hseq].
  apply omap_Permutation. apply NoDup_Permutation.
  - apply list.NoDup_app. split; [done|]. split; [|apply list.NoDup_filter, NoDup_seq].
    intros i Hi [Hp _]%list_elem_of_filter. by apply Hp, Hiff.
  - apply NoDup_seq.
  - intros i. rewrite elem_of_app, list_elem_of_filter, elem_of_seq, <-Hiff.
    rewrite list.Forall_forall in Hlt. split.
    + intros [Hi|[_ ?]]; [|done]. apply Hlt in Hi. lia.
    + intros Hi. destruct (decide (i ∈ taken)); [by left|by right].
Qed.

Lemma map_to_api_spec host_ok (api_orgs : list ApiNamesMain.api_entry) raw_orgs :
  ∃ groups unmatched,
    ApiNamesMain.map_to_api host_ok api_orgs raw_orgs = Some (groups, unmatched) ∧
    concat groups.*2 ++ unmatched ≡ₚ raw_orgs ∧
    NoDup groups.*1 ∧
    Forall (λ g, g.1 ∈ ApiNamesMain.entry_name <$> api_orgs ∧ g.2 ≠ []) groups ∧
    Forall (λ u, ApiNamesMain.match_name (ApiNamesMain.entry_name <$> api_orgs)
                   (name u) = None) unmatched.
Proof.
  unfold ApiNamesMain.map_to_api, ApiNamesMain.first_pass.
  set (names := ApiNamesMain.entry_name <$> api_orgs).
  destruct (first_pass_state_fold names raw_orgs
              (ApiNamesMain.api_url_to_name host_ok api_orgs)
              (ApiNamesMain.url_to_raw_orgs host_ok raw_orgs) ([], ∅))
    as ([groups processed] & -> & (taken & Hnd & Hiff & Hlt & Hperm & Hkeys & Hnames)).
  { intros k n. apply api_url_to_name_values. }
  { apply url_to_raw_orgs_members. }
  { exists []. simpl. split; [constructor|]. split.
    { intros i. rewrite elem_of_nil. split; [done|]. apply not_elem_of_empty. }
    repeat split; constructor. }
  simpl in *.
  destruct (second_pass_spec names processed raw_orgs 0 raw_orgs (groups, []))
    as (Hperm2 & ? & ? & ?); simpl; try done.
  destruct (ApiNamesMain.second_pass names processed 0 raw_orgs (groups, []))
    as [groups' unmatched].
  exists groups', unmatched. split; [done|].
  split; [|done]. rewrite Hperm2. simpl. rewrite app_nil_r, Hperm.
  by apply taken_and_rest.
Qed.

(** *** The final list *)

Lemma merge_with_name orgs n :
  orgs ≠ [] → Forall (λ o, is_Some (years_appeared o)) orgs →
  ∃ m, MergeWithApiNames.merge_organizations orgs n = Some m ∧
       is_Some (years_appeared m) ∧
       ∀ y, y ∈ years_of m ↔ ∃ o, o ∈ orgs ∧ y ∈ years_of o.
Proof.
  intros Hne Hyears. destruct orgs as [|o1 [|o2 orgs]]; [done| |].
  - apply Forall_cons_1 in Hyears as [Hy _]. eexists. split; [done|].
    split; [done|]. intros y. unfold years_of. simpl. split.
    + intros Hin. exists o1. split; [left|done].
    + by intros (o & ->%list_elem_of_singleton & ?).
  - assert (Forall years_not_null (o1 :: o2 :: orgs)) as Hnn.
    { eapply list.Forall_impl; [exact Hyears|]. intros o [ys Hys].
      unfold years_not_null, years_appeared in *.
      by destruct (years_appeared_key o). }
    destruct (merged_years_total _ Hnn) as [s Hs].
    unfold MergeWithApiNames.merge_organizations. cbn [head mbind option_bind].
    rewrite Hs. cbn [mbind option_bind].
    eexists. split; [done|]. split; [by eexists|].
    intros y. unfold years_of at 1. simpl.
    by rewrite elem_of_sorted_years, (elem_of_merged_years _ _ _ Hs).
Qed.

Lemma build_final_spec groups names :
  Forall (λ g, Forall (λ o, is_Some (years_appeared o)) g.2) groups →
  ∃ final, ApiNamesMain.build_final groups names = Some final ∧
    (∀ n, n ∈ names → AlignMain.dict_get n groups ≠ [] →
          ∃ m, m ∈ final ∧
               MergeWithApiNames.merge_organizations
                 (AlignMain.dict_get n groups) n = Some m) ∧
    (∀ m, m ∈ final →
          ∃ n, AlignMain.dict_get n groups ≠ [] ∧
               MergeWithApiNames.merge_organizations
                 (AlignMain.dict_get n groups) n = Some m).
Proof.
  intros Hyears. rewrite list.Forall_forall in Hyears.
  induction names as [|n names (final & Hb & Hin & Hout)];
    cbn [ApiNamesMain.build_final].
  - exists []. split; [done|]. split; [by intros n ?%elem_of_nil|].
    by intros m ?%elem_of_nil.
  - destruct (AlignMain.dict_get n groups) as [|o l] eqn:Hg.
    + exists final. split; [done|]. split; [|done].
      intros n' [->|Hn']%elem_of_cons Hne; [by rewrite Hg in Hne|by apply Hin].
    + destruct (merge_with_name (o :: l) n) as (m & Hm & [ys Hys] & _); [done| |].
      { apply (Hyears (n, o :: l)). rewrite <-Hg. apply dict_get_found.
        by rewrite Hg. }
      rewrite Hm. simpl. rewrite Hys. simpl. rewrite Hb. simpl.
      eexists. split; [done|]. split.
      * intros n' [->|Hn']%elem_of_cons Hne.
        -- exists m. split; [left|]. by rewrite Hg.
        -- destruct (Hin n' Hn' Hne) as (m' & ? & ?). exists m'. split; [by right|done].
      * intros m' [->|Hm']%elem_of_cons; [|by apply Hout].
        exists n. rewrite Hg. done.
Qed.
End ApiNames.

(** X21: the two passes of merge_with_api_names.py lose and duplicate no
    raw record: the records filed under authoritative names together
    with the unmatched ones are a permutation of the raw records; the
    groups are not empty and are filed under distinct authoritative
    names. *)
Theorem api_name_mapping_conserves (host_ok : string → bool)
    (api_orgs : list ApiNamesMain.api_entry) (raw_orgs : list org) :
  ∃ groups unmatched,
    ApiNamesMain.map_to_api host_ok api_orgs raw_orgs = Some (groups, unmatched) ∧
    concat groups.*2 ++ unmatched ≡ₚ raw_orgs ∧
    NoDup groups.*1 ∧
    Forall (λ g, g.1 ∈ ApiNamesMain.entry_name <$> api_orgs ∧ g.2 ≠ []) groups.
Proof.
  destruct (map_to_api_spec host_ok api_orgs raw_orgs)
    as (groups & unmatched & ? & ? & ? & ? & _).
  by exists groups, unmatched.
Qed.

(** X22: merge_with_api_names.py leaves a raw record unmatched only if its
    name is not empty and, ignoring case, no authoritative name contains
    it or is contained in it.  So a record without a name that the URL
    pass did not place is always merged into an authoritative
    organisation. *)
Theorem unmatched_names_are_unrelated (host_ok : string → bool)
    (api_orgs : list ApiNamesMain.api_entry) (raw_orgs : list org)
    (groups : list (string * list org)) (unmatched : list org)
    (u : org) (a : ApiNamesMain.api_entry) :
  ApiNamesMain.map_to_api host_ok api_orgs raw_orgs = Some (groups, unmatched) →
  u ∈ unmatched → a ∈ api_orgs →
  Py.is_empty (name u) = false ∧
  name u ≠ ApiNamesMain.entry_name a ∧
  Py.contains (Py.lower (ApiNamesMain.entry_name a)) (Py.lower (name u)) = false ∧
  Py.contains (Py.lower (name u)) (Py.lower (ApiNamesMain.entry_name a)) = false.
Proof.
  intros Hmap Hu Ha.
  destruct (map_to_api_spec host_ok api_orgs raw_orgs)
    as (groups' & unmatched' & Hmap' & _ & _ & _ & Hun).
  rewrite Hmap in Hmap'. injection Hmap' as <- <-.
  rewrite list.Forall_forall in Hun. specialize (Hun u Hu).
  apply match_name_None in Hun as [Hnot Hall].
  assert (ApiNamesMain.entry_name a ∈ ApiNamesMain.entry_name <$> api_orgs) as Hn
    by (by apply list_elem_of_fmap_2).
  specialize (Hall _ Hn).
  split.
  { destruct (name u) eqn:Hname; [|done]. by rewrite name_matches_empty in Hall. }
  split; [by intros Heq; rewrite Heq in Hnot|].
  unfold ApiNamesMain.name_matches in Hall.
  apply orb_false_iff in Hall as [Hall _]. by apply orb_false_iff in Hall.
Qed.

Lemma unmatched_names_are_unrelated_witness :
  ApiNamesMain.map_to_api any_host [kodi_entry] stray_records
  = Some ([("Kodi", [record "" None [2015]])], [record "Debian" None [2016]]) ∧
  Py.is_empty "Debian" = false ∧
  "Debian" ≠ "Kodi" ∧
  Py.contains (Py.lower "Kodi") (Py.lower "Debian") = false ∧
  Py.contains (Py.lower "Debian") (Py.lower "Kodi") = false.
Proof.
  split; [by vm_compute|].
  apply (unmatched_names_are_unrelated any_host [kodi_entry] stray_records
           [("Kodi", [record "" None [2015]])] [record "Debian" None [2016]]
           (record "Debian" None [2016]) kodi_entry).
  - by vm_compute.
  - left.
  - left.
Defined.

(** X23: when every raw record has its [years_appeared] list,
    merge_with_api_names.py produces its final list, and the years that
    appear in the final records are exactly the years that appear in the
    raw records. *)
Theorem api_names_merge_keeps_years (host_ok : string → bool)
    (api_orgs : list ApiNamesMain.api_entry) (raw_orgs : list org) :
  Forall (λ o, is_Some (years_appeared o)) raw_orgs →
  ∃ final,
    ApiNamesMain.final_orgs host_ok api_orgs raw_orgs = Some final ∧
    ∀ y, (∃ m, m ∈ final ∧ y ∈ years_of m) ↔ (∃ o, o ∈ raw_orgs ∧ y ∈ years_of o).
Proof.
  intros Hyears. unfold ApiNamesMain.final_orgs.
  destruct (map_to_api_spec host_ok api_orgs raw_orgs)
    as (groups & unmatched & -> & Hperm & Hnd & Hnames & _).
  simpl. rewrite list.Forall_forall in Hyears.
  assert (∀ g o, g ∈ groups → o ∈ g.2 → o ∈ raw_orgs) as Hmem.
  { intros g o Hg Ho. rewrite <-Hperm. apply elem_of_app. left.
    apply elem_of_concat. exists g.2. split; [done|]. by apply list_elem_of_fmap_2. }
  assert (Forall (λ g, Forall (λ o, is_Some (years_appeared o)) g.2) groups) as Hgy.
  { apply list.Forall_forall. intros g Hg. apply list.Forall_forall. intros o Ho.
    by eapply Hyears, Hmem. }
  destruct (build_final_spec groups (ApiNamesMain.entry_name <$> api_orgs) Hgy)
    as (final & -> & Hin & Hout).
  simpl. eexists. split; [done|].
  rewrite list.Forall_forall in Hgy. rewrite list.Forall_forall in Hnames.
  intros y. setoid_rewrite sort_by_name_perm. split.
  - intros (m & [Hm|Hm]%elem_of_app & Hy).
    + destruct (Hout m Hm) as (n & Hne & Hmerge).
      pose proof (dict_get_found _ _ Hne) as Hg.
      destruct (merge_with_name (AlignMain.dict_get n groups) n Hne (Hgy _ Hg))
        as (m' & Hm' & _ & Hiff).
      assert (m' = m) as -> by congruence.
      destruct (proj1 (Hiff y) Hy) as (o & Ho & Hyo). exists o. split; [|done].
      by apply (Hmem _ _ Hg).
    + exists m. split; [|done]. rewrite <-Hperm. apply elem_of_app. by right.
  - intros (o & Ho & Hy). rewrite <-Hperm in Ho.
    apply elem_of_app in Ho as [Ho|Ho].
    + apply elem_of_concat in Ho as (vs & Ho & Hvs).
      apply list_elem_of_fmap in Hvs as ([n vs'] & -> & Hg). simpl in Ho.
      destruct (Hnames _ Hg) as [Hn Hne]. simpl in Hn, Hne.
      pose proof (dict_get_entry _ _ _ Hnd Hg) as Hget.
      destruct (Hin n Hn) as (m & Hm & Hmerge); [by rewrite Hget|].
      rewrite Hget in Hmerge.
      destruct (merge_with_name vs' n Hne (Hgy _ Hg)) as (m' & Hm' & _ & Hiff).
      assert (m' = m) as -> by congruence.
      exists m. split; [apply elem_of_app; by left|]. apply Hiff. eauto.
    + exists o. split; [apply elem_of_app; by right|done].
Qed.

Lemma api_names_merge_keeps_years_witness :
  ∃ final,
    ApiNamesMain.final_orgs any_host [kodi_entry] stray_records = Some final ∧
    ∀ y, (∃ m, m ∈ final ∧ y ∈ years_of m) ↔
         (∃ o, o ∈ stray_records ∧ y ∈ years_of o).
Proof.
  apply (api_names_merge_keeps_years any_host [kodi_entry] stray_records).
  repeat constructor; by eexists.
Defined.

Section ApiMatchFields.
Local Open Scope nat_scope.
Implicit Types (o : org) (later : list org) (w : option string).

Lemma https_website_fold later w :
  (foldl AlignWithApi.https_website w later = w ∨
   ∃ o v, o ∈ later ∧ website o = Some v ∧ Py.startswith "https://" v = true ∧
          foldl AlignWithApi.https_website w later = Some v) ∧
  ((∃ o v, o ∈ later ∧ website o = Some v ∧ Py.startswith "https://" v = true) →
   ∃ v, foldl AlignWithApi.https_website w later = Some v ∧
        Py.startswith "https://" v = true).
Proof.
  revert w. induction later as [|o later IH]; intros w; cbn [foldl].
  - split; [by left|]. by intros (o & v & ?%elem_of_nil & _).
  - destruct (IH (AlignWithApi.https_website w o)) as [Hfrom Hhttps].
    assert (AlignWithApi.https_website w o = w ∨
            ∃ v, website o = Some v ∧ Py.startswith "https://" v = true ∧
                 AlignWithApi.https_website w o = Some v) as Hstep.
    { unfold AlignWithApi.https_website, truthy.
      destruct (website o) as [v|]; [|by left].
      destruct (Py.is_empty v); [by left|].
      destruct (Py.startswith "https://" v) eqn:Hs; [|by left].
      right. by exists v. }
    split.
    + destruct Hfrom as [Heq|(o' & v & Ho' & ? & ? & ?)].
      * rewrite Heq. destruct Hstep as [->|(v & ? & ? & ->)]; [by left|].
        right. exists o, v. split; [left|done].
      * right. exists o', v. split; [by right|done].
    + intros (o' & v & [->|Ho']%elem_of_cons & Hv & Hs).
      * destruct Hfrom as [Heq|(o'' & v' & _ & _ & ? & ?)]; [|by eauto].
        rewrite Heq. unfold AlignWithApi.https_website, truthy. rewrite Hv.
        assert (Py.is_empty v = false) as -> by (by destruct v).
        rewrite Hs. eauto.
      * apply Hhttps. eauto.
Qed.

End ApiMatchFields.

(** X24: a record that [merge_orgs_for_api_match] returns carries the
    authoritative name and the identifier of the first member, and under
    ['socials'] what the first member holds there, an empty object if it
    has no such key.  Its website is the first member's unless a later
    member has an https:// website, in which case it is such a later
    member's https:// website.  Where the first member holds null under
    ['description_html'], no later member has a description and the
    record holds null too; otherwise its description is the first
    member's (the empty text if it has none) or a later member's, and no
    member has a longer one. *)
Theorem api_match_field_rules (api : api_org) (first_org : org) (later : list org)
    (m : org) :
  AlignWithApi.merge_orgs_for_api_match api (first_org :: later) = Some m →
  name m = api_name api ∧ oid m = oid first_org ∧
  socials_key m = get_or AlignWithApi.no_socials (socials_key first_org) ∧
  (website m = website first_org ∨
   ∃ o v, o ∈ later ∧ website o = Some v ∧ Py.startswith "https://" v = true ∧
          website m = Some v) ∧
  ((∃ o v, o ∈ later ∧ website o = Some v ∧ Py.startswith "https://" v = true) →
   ∃ v, website m = Some v ∧ Py.startswith "https://" v = true) ∧
  match description_html_key first_org with
  | Null =>
      description_html_key m = Null ∧
      ∀ o, o ∈ later → truthy (description_html o) = None
  | _ =>
      ∃ d, description_html_key m = Val d ∧
           (d = default EmptyString (description_html first_org) ∨
            ∃ o, o ∈ later ∧ description_html o = Some d) ∧
           ∀ o d', o ∈ first_org :: later → description_html o = Some d' →
                   (Py.len d' ≤ Py.len d)%nat
  end.
Proof.
  intros Hm. pose proof (merge_for_api_mergeable _ _ _ Hm) as Hok.
  destruct (merge_for_api_spec api first_org later Hok)
    as (desc & short & Heq & Hnull & Hval).
  rewrite Heq in Hm. injection Hm as <-.
  cbn [name oid socials_key website description_html_key].
  split; [done|]. split; [done|]. split; [done|].
  destruct (https_website_fold later (website first_org)) as [Hfrom Hhttps].
  split; [done|]. split; [done|].
  destruct Hok as [Hdesc _]. unfold text_mergeable in Hdesc.
  change (description_html first_org) with (get (description_html_key first_org)).
  destruct (description_html_key first_org) as [| |cur] eqn:Hkey; cbn [get default].
  - destruct (Hval EmptyString eq_refl) as (d & -> & Hd & Hlen & Hall).
    exists d. split; [done|]. split; [done|].
    intros o d' [->|Ho]%elem_of_cons Hd'; [|by eapply Hall].
    unfold description_html in Hd'. by rewrite Hkey in Hd'.
  - split; [by apply Hnull|]. intros o Ho.
    specialize (Hdesc eq_refl). rewrite list.Forall_forall in Hdesc. by apply Hdesc.
  - destruct (Hval cur eq_refl) as (d & -> & Hd & Hlen & Hall).
    exists d. split; [done|]. split; [done|].
    intros o d' [->|Ho]%elem_of_cons Hd'; [|by eapply Hall].
    unfold description_html in Hd'. rewrite Hkey in Hd'. by injection Hd' as <-.
Qed.

Lemma api_match_field_rules_witness :
  ∃ m, AlignWithApi.merge_orgs_for_api_match example_api site_group = Some m ∧
       website m = Some "https://kodi.tv" ∧
       name m = api_name example_api ∧
       (∃ v, website m = Some v ∧ Py.startswith "https://" v = true).
Proof.
  eexists. split; [vm_compute; reflexivity|]. split; [reflexivity|].
  destruct (api_match_field_rules example_api
              (record "Kodi Foundation" (Some "http://kodi.tv") [2016])
              [record "Kodi" (Some "https://kodi.tv") [2017]] _
              ltac:(vm_compute; reflexivity))
    as (Hname & _ & _ & _ & Hhttps & _).
  split; [exact Hname|]. apply Hhttps.
  eexists _, _. split; [left|]. split; reflexivity.
Defined.

Section BareDomain.
Variable host_ok : string → bool.
Implicit Types (s : string) (P : ascii → bool).

Local Abbreviation no_slash := (λ c : ascii, negb (Py.is_char "/" c)).

Lemma find_char_take P s i :
  Py.find_char P s = Some i → Py.forallb (λ c, negb (P c)) (Py.take i s) = true.
Proof.
  revert i. induction s as [|a s IH]; intros i; simpl; [done|].
  destruct (P a) eqn:Ha; [by intros [= <-]|].
  destruct (Py.find_char P s) as [j|]; [|done]. simpl. intros [= <-].
  simpl. by rewrite Ha, IH.
Qed.

Lemma find_char_absent P s :
  Py.find_char P s = None → Py.forallb (λ c, negb (P c)) s = true.
Proof.
  induction s as [|a s IH]; simpl; [done|].
  destruct (P a) eqn:Ha; [done|].
  destruct (Py.find_char P s); [done|]. intros _. by rewrite IH.
Qed.

Lemma forallb_drop P n s : Py.forallb P s = true → Py.forallb P (Py.drop n s) = true.
Proof.
  revert s. induction n as [|n IH]; intros [|a s]; simpl; try done.
  intros [_ Hs]%andb_true_iff. by apply IH.
Qed.

Lemma forallb_lstrip P (Q : ascii → bool) s :
  Py.forallb P s = true → Py.forallb P (Py.lstrip Q s) = true.
Proof.
  induction s as [|a s IH]; simpl; [done|].
  intros Has. destruct (Q a); [|done].
  apply andb_true_iff in Has as [_ Hs]. by apply IH.
Qed.

Lemma forallb_remove_chars P (Q : ascii → bool) s :
  Py.forallb P s = true → Py.forallb P (Url.remove_chars Q s) = true.
Proof.
  induction s as [|a s IH]; simpl; [done|].
  intros [Ha Hs]%andb_true_iff. destruct (Q a); simpl; [by apply IH|].
  by rewrite Ha, IH.
Qed.

Lemma no_slash_lower_char c : no_slash c = true → no_slash (Py.lower_char c) = true.
Proof. destruct c as [[] [] [] [] [] [] [] []]; by vm_compute. Qed.

Lemma no_slash_lower s :
  Py.forallb no_slash s = true → Py.forallb no_slash (Py.lower s) = true.
Proof.
  induction s as [|a s IH]; simpl; [done|].
  intros [Ha Hs]%andb_true_iff. by rewrite (no_slash_lower_char a Ha), IH.
Qed.

Lemma no_slash_startswith s :
  Py.forallb no_slash s = true → Py.startswith "//" s = false.
Proof.
  destruct s as [|a s]; [done|]. simpl.
  intros [Ha _]%andb_true_iff. unfold Py.is_char in Ha.
  apply negb_true_iff, bool_decide_eq_false in Ha.
  rewrite bool_decide_eq_false_2; [done|]. by intros <-.
Qed.

Lemma split_scheme_no_slash s :
  Py.forallb no_slash s = true →
  Py.forallb no_slash (Url.split_scheme s).2 = true.
Proof.
  intros Hs. unfold Url.split_scheme.
  destruct (Py.find_char (Py.is_char ":") s) as [[|i]|]; [done| |done].
  destruct (_ && _); [|done]. cbn [snd]. by apply forallb_drop.
Qed.

(** A string without a slash has no network location. *)
Lemma urlparse_no_slash s :
  Py.forallb no_slash s = true →
  ∃ r, Url.urlparse host_ok s = Some r ∧ Url.netloc r = EmptyString.
Proof.
  intros Hs. unfold Url.urlparse, Url.urlsplit.
  pose proof (split_scheme_no_slash
                (Url.remove_chars Url.unsafe (Py.lstrip Url.c0_or_space s))
                (forallb_remove_chars _ _ _ (forallb_lstrip _ _ _ Hs))) as Hrest.
  destruct (Url.split_scheme _) as [sch rest]. simpl in Hrest.
  rewrite (no_slash_startswith rest Hrest). simpl.
  destruct (bool_decide _ && Url.has ";" _); by eexists.
Qed.

(** The network location of a parsed URL has no slash. *)
Lemma netloc_no_slash url r :
  Url.urlparse host_ok url = Some r → Py.forallb no_slash (Url.netloc r) = true.
Proof.
  unfold Url.urlparse, Url.urlsplit.
  destruct (Url.split_scheme _) as [sch rest].
  destruct (Py.startswith "//" rest) eqn:Hstart.
  - unfold Url.splitnetloc.
    destruct (Py.find_char Url.netloc_end (Py.drop 2 rest)) as [i|] eqn:Hfind.
    + pose proof (find_char_take _ _ _ Hfind) as Hloc.
      assert (Py.forallb no_slash (Py.take i (Py.drop 2 rest)) = true) as Hns.
      { eapply forallb_impl; [|exact Hloc]. intros c. unfold Url.netloc_end, Py.is_char.
        destruct (bool_decide (c = "/"%char)); [done|]. done. }
      destruct (xorb _ _); [done|]. destruct (_ && negb _); [done|]. simpl.
      destruct (negb _ && negb _); [done|]. simpl.
      destruct (bool_decide _ && Url.has ";" _); by intros [= <-].
    + pose proof (find_char_absent _ _ Hfind) as Hloc.
      assert (Py.forallb no_slash (Py.drop 2 rest) = true) as Hns.
      { eapply forallb_impl; [|exact Hloc]. intros c. unfold Url.netloc_end, Py.is_char.
        destruct (bool_decide (c = "/"%char)); [done|]. done. }
      destruct (xorb _ _); [done|]. destruct (_ && negb _); [done|]. simpl.
      destruct (negb _ && negb _); [done|]. simpl.
      destruct (bool_decide _ && Url.has ";" _); by intros [= <-].
  - simpl. destruct (bool_decide _ && Url.has ";" _); by intros [= <-].
Qed.

Lemma domain_no_slash url d :
  DomainGroups.domain_from_url host_ok url = Some d → Py.forallb no_slash d = true.
Proof.
  unfold DomainGroups.domain_from_url.
  destruct (truthy url) as [u|]; [|done].
  destruct (Url.urlparse host_ok u) as [r|] eqn:Hr; [|done].
  pose proof (no_slash_lower _ (netloc_no_slash _ _ Hr)) as Hns.
  destruct (Py.startswith "www." (Py.lower (Url.netloc r)));
    intros [= <-]; [exact (forallb_drop _ 4 _ Hns)|done].
Qed.

Lemma domain_of_bare_domain d :
  Py.is_empty d = false → Py.forallb no_slash d = true →
  DomainGroups.domain_from_url host_ok (Some d) = Some EmptyString.
Proof.
  intros Hne Hns. unfold DomainGroups.domain_from_url, truthy. rewrite Hne.
  destruct (urlparse_no_slash d Hns) as (r & -> & ->). done.
Qed.

Lemma group_domain_from (docs : list org) (acc : option string) d :
  foldl (λ domain doc,
           match truthy (DomainGroups.domain_from_url host_ok (website doc)) with
           | Some x => Some x
           | None => domain
           end) acc docs = Some d →
  acc = Some d ∨
  ∃ doc, doc ∈ docs ∧
         DomainGroups.domain_from_url host_ok (website doc) = Some d ∧
         Py.is_empty d = false.
Proof.
  revert acc. induction docs as [|doc docs IH]; intros acc; simpl; [by left|].
  intros [Hacc|(doc' & ? & ? & ?)]%IH.
  - unfold truthy in Hacc.
    destruct (DomainGroups.domain_from_url host_ok (website doc)) as [x|] eqn:Hx;
      [|by left].
    destruct (Py.is_empty x) eqn:Hex; [by left|]. injection Hacc as ->.
    right. exists doc. split; [left|done].
  - right. exists doc'. split; [by right|done].
Qed.
End BareDomain.

(** X25: when [merge_group] finds a domain for its group, the website it
    writes into the merged document is that bare domain, the domain of
    the website of a member.  [domain_from_url] reads no domain back
    from it: the result is empty, so on a later run the merged document
    counts as a document without a domain. *)
Theorem merged_website_is_not_read_back (host_ok : string → bool) (primary : org)
    (docs : list org) (d : string) :
  DomainOfGroup.group_domain host_ok docs = Some d →
  DomainOfGroup.merged_website host_ok primary docs = Some d ∧
  Py.is_empty d = false ∧
  (∃ doc, doc ∈ docs ∧
          DomainGroups.domain_from_url host_ok (website doc) = Some d) ∧
  DomainGroups.domain_from_url host_ok (Some d) = Some EmptyString ∧
  truthy (DomainGroups.domain_from_url host_ok (Some d)) = None.
Proof.
  intros Hd. unfold DomainOfGroup.merged_website. rewrite Hd.
  split; [done|].
  apply group_domain_from in Hd as [?|(doc & Hdoc & Hdom & Hne)]; [done|].
  split; [done|]. split; [by exists doc|].
  assert (DomainGroups.domain_from_url host_ok (Some d) = Some EmptyString) as ->.
  { apply domain_of_bare_domain; [done|]. by eapply domain_no_slash. }
  done.
Qed.

Lemma merged_website_is_not_read_back_witness :
  DomainOfGroup.group_domain any_host site_docs = Some "kodi.tv" ∧
  DomainOfGroup.merged_website any_host (record "Kodi" None []) site_docs
  = Some "kodi.tv" ∧
  DomainGroups.domain_from_url any_host (Some "kodi.tv") = Some EmptyString.
Proof.
  split; [by vm_compute|].
  destruct (merged_website_is_not_read_back any_host (record "Kodi" None [])
              site_docs "kodi.tv" ltac:(by vm_compute))
    as (Hweb & _ & _ & Hback & _).
  split; [exact Hweb|exact Hback].
Defined.
